(** * scram-sha-256: the SCRAM-SHA-256 verifier generator of [main.go]

    A shallow embedding of the command-line tool and the properties of its
    derivation, its output format and its input handling.

    Layout:
    - bytes, Go strings and Go errors;
    - the library code the program calls, modelled after the Go packages it
      imports (crypto/sha256, crypto/hmac, golang.org/x/crypto/pbkdf2,
      encoding/base64, unicode/utf8, strings, bufio, fmt, crypto/rand);
    - the program itself ([readPasswordFromStdin], [validatePassword],
      [generateSCRAMSHA256], [main]) over an explicit world state;
    - reference definitions (RFC 2104, RFC 8018, the verifier grammar);
    - the theorems. *)

From Stdlib Require Import ZArith List Lia Bool Arith.
From Stdlib Require Import Strings.Byte.
From Stdlib Require Strings.String.
Import ListNotations String.StringSyntax.

Local Open Scope Z_scope.

(** ** Bytes and Go strings *)

(** A Go [string] and a Go [[]byte] are both sequences of bytes; the
    conversions [[]byte(s)] and [string(b)] are the identity on them. *)
Definition bytes := list byte.

(** A string literal of the source, as the bytes of its (ASCII) text. *)
Definition lit (s : String.string) : bytes := String.list_byte_of_string s.
Arguments lit s%_string_scope.

Definition byte_to_Z (b : byte) : Z := Z.of_N (Byte.to_N b).

Definition byte_of_Z (z : Z) : byte :=
  match Byte.of_N (Z.to_N (z mod 256)) with
  | Some b => b
  | None => x00
  end.

Definition byte_eqb (a b : byte) : bool := Byte.eqb a b.

Fixpoint bytes_eqb (a b : bytes) : bool :=
  match a, b with
  | [], [] => true
  | x :: a', y :: b' => byte_eqb x y && bytes_eqb a' b'
  | _, _ => false
  end.

(** ** Unsigned 32-bit arithmetic (Go's [uint32]) *)

Module U32.

Definition modulus : Z := 2 ^ 32.

Definition wrap (x : Z) : Z := x mod modulus.

Definition add (x y : Z) : Z := wrap (x + y).

Definition not (x : Z) : Z := Z.lxor x (modulus - 1).

Definition shl (x n : Z) : Z := wrap (Z.shiftl x n).

Definition shr (x n : Z) : Z := Z.shiftr x n.

(** [bits.RotateLeft32(x, -n)]: rotation to the right by [n] bits. *)
Definition rotr (x n : Z) : Z := Z.lor (shr x n) (shl x (32 - n)).

(** Big-endian bytes of a word, as [binary.BigEndian.PutUint32] writes
    them. *)
Definition to_bytes (x : Z) : bytes :=
  [ byte_of_Z (Z.shiftr x 24); byte_of_Z (Z.shiftr x 16);
    byte_of_Z (Z.shiftr x 8); byte_of_Z x ].

(** [uint32(p[j])<<24 | uint32(p[j+1])<<16 | uint32(p[j+2])<<8 | uint32(p[j+3])] *)
Definition of_bytes (b0 b1 b2 b3 : byte) : Z :=
  Z.lor (Z.lor (Z.lor (Z.shiftl (byte_to_Z b0) 24) (Z.shiftl (byte_to_Z b1) 16))
               (Z.shiftl (byte_to_Z b2) 8))
        (byte_to_Z b3).

End U32.

(** ** crypto/sha256 *)

Module SHA256.

Definition Size : nat := 32.
Definition BlockSize : nat := 64.

(** The round constants [_K], four to a line as in sha256block.go. *)
Definition _K : list Z :=
  [0x428A2F98; 0x71374491; 0xB5C0FBCF; 0xE9B5DBA5] ++
  [0x3956C25B; 0x59F111F1; 0x923F82A4; 0xAB1C5ED5] ++
  [0xD807AA98; 0x12835B01; 0x243185BE; 0x550C7DC3] ++
  [0x72BE5D74; 0x80DEB1FE; 0x9BDC06A7; 0xC19BF174] ++
  [0xE49B69C1; 0xEFBE4786; 0x0FC19DC6; 0x240CA1CC] ++
  [0x2DE92C6F; 0x4A7484AA; 0x5CB0A9DC; 0x76F988DA] ++
  [0x983E5152; 0xA831C66D; 0xB00327C8; 0xBF597FC7] ++
  [0xC6E00BF3; 0xD5A79147; 0x06CA6351; 0x14292967] ++
  [0x27B70A85; 0x2E1B2138; 0x4D2C6DFC; 0x53380D13] ++
  [0x650A7354; 0x766A0ABB; 0x81C2C92E; 0x92722C85] ++
  [0xA2BFE8A1; 0xA81A664B; 0xC24B8B70; 0xC76C51A3] ++
  [0xD192E819; 0xD6990624; 0xF40E3585; 0x106AA070] ++
  [0x19A4C116; 0x1E376C08; 0x2748774C; 0x34B0BCB5] ++
  [0x391C0CB3; 0x4ED8AA4A; 0x5B9CCA4F; 0x682E6FF3] ++
  [0x748F82EE; 0x78A5636F; 0x84C87814; 0x8CC70208] ++
  [0x90BEFFFA; 0xA4506CEB; 0xBEF9A3F7; 0xC67178F2].

(** The chaining value [dig.h], eight words. *)
Record digest := mkDigest {
  h0 : Z; h1 : Z; h2 : Z; h3 : Z; h4 : Z; h5 : Z; h6 : Z; h7 : Z }.

Definition init : digest :=
  mkDigest 0x6A09E667 0xBB67AE85 0x3C6EF372 0xA54FF53A
           0x510E527F 0x9B05688C 0x1F83D9AB 0x5BE0CD19.

(** The first sixteen words of the schedule: the chunk read big-endian. *)
Fixpoint words_of (p : bytes) : list Z :=
  match p with
  | b0 :: b1 :: b2 :: b3 :: p' => U32.of_bytes b0 b1 b2 b3 :: words_of p'
  | _ => []
  end.

Definition sigma0 (v : Z) : Z :=
  Z.lxor (Z.lxor (U32.rotr v 7) (U32.rotr v 18)) (U32.shr v 3).

Definition sigma1 (v : Z) : Z :=
  Z.lxor (Z.lxor (U32.rotr v 17) (U32.rotr v 19)) (U32.shr v 10).

(** The schedule is kept newest word first: [w] holds w[i-1], w[i-2], ...
    so that w[i-k] is [nth (k-1) w 0]. *)
Fixpoint extend (n : nat) (w : list Z) : list Z :=
  match n with
  | O => w
  | S n' =>
      let t1 := sigma1 (nth 1 w 0) in
      let t2 := sigma0 (nth 14 w 0) in
      extend n' (U32.add (U32.add (U32.add t1 (nth 6 w 0)) t2) (nth 15 w 0) :: w)
  end.

Definition schedule (chunk : bytes) : list Z :=
  rev (extend 48 (rev (words_of chunk))).

Definition Sigma0 (a : Z) : Z :=
  Z.lxor (Z.lxor (U32.rotr a 2) (U32.rotr a 13)) (U32.rotr a 22).

Definition Sigma1 (e : Z) : Z :=
  Z.lxor (Z.lxor (U32.rotr e 6) (U32.rotr e 11)) (U32.rotr e 25).

Definition Ch (e f g : Z) : Z :=
  Z.lxor (Z.land e f) (Z.land (U32.not e) g).

Definition Maj (a b c : Z) : Z :=
  Z.lxor (Z.lxor (Z.land a b) (Z.land a c)) (Z.land b c).

(** One round of the compression loop on the working variables. *)
Definition round (s : digest) (kw : Z * Z) : digest :=
  let '(k, w) := kw in
  let t1 := U32.add (U32.add (U32.add (U32.add (h7 s) (Sigma1 (h4 s)))
              (Ch (h4 s) (h5 s) (h6 s))) k) w in
  let t2 := U32.add (Sigma0 (h0 s)) (Maj (h0 s) (h1 s) (h2 s)) in
  mkDigest (U32.add t1 t2) (h0 s) (h1 s) (h2 s)
           (U32.add (h3 s) t1) (h4 s) (h5 s) (h6 s).

(** [blockGeneric] on one 64-byte chunk. *)
Definition block (d : digest) (chunk : bytes) : digest :=
  let s := fold_left round (combine _K (schedule chunk)) d in
  mkDigest (U32.add (h0 d) (h0 s)) (U32.add (h1 d) (h1 s))
           (U32.add (h2 d) (h2 s)) (U32.add (h3 d) (h3 s))
           (U32.add (h4 d) (h4 s)) (U32.add (h5 d) (h5 s))
           (U32.add (h6 d) (h6 s)) (U32.add (h7 d) (h7 s)).

(** [blockGeneric] on a whole buffer: [for len(p) >= chunk]. *)
Fixpoint blocks (fuel : nat) (d : digest) (p : bytes) : digest :=
  match fuel with
  | O => d
  | S fuel' =>
      if (length p <? BlockSize)%nat then d
      else blocks fuel' (block d (firstn BlockSize p)) (skipn BlockSize p)
  end.

(** The padding of [checkSum]: 0x80, zeros up to 56 mod 64, then the
    length in bits as a big-endian 64-bit number. *)
Definition padding (len : nat) : bytes :=
  let r := (len mod 64)%nat in
  let zeros := (if (r <? 56)%nat then 55 - r else 119 - r)%nat in
  let bits := Z.of_nat len * 8 in
  x80 :: repeat x00 zeros
  ++ U32.to_bytes (Z.shiftr bits 32) ++ U32.to_bytes bits.

Definition digest_bytes (d : digest) : bytes :=
  U32.to_bytes (h0 d) ++ U32.to_bytes (h1 d) ++ U32.to_bytes (h2 d)
  ++ U32.to_bytes (h3 d) ++ U32.to_bytes (h4 d) ++ U32.to_bytes (h5 d)
  ++ U32.to_bytes (h6 d) ++ U32.to_bytes (h7 d).

(** [sha256.Sum256(data)], as a slice. *)
Definition Sum256 (data : bytes) : bytes :=
  let p := data ++ padding (length data) in
  digest_bytes (blocks (S (length p / BlockSize)) init p).

End SHA256.

(** ** hash.Hash

    An object of Go's [hash.Hash] interface.  Its mutable state is the data
    written since the last [Reset]; [Sum] appends the digest of that data to
    its argument and leaves the state as it is. *)

Module hash.

Record Hash := mkHash {
  digest_of : bytes -> bytes;
  written : bytes;
  Size : nat;
  BlockSize : nat }.

Definition Write (h : Hash) (p : bytes) : Hash :=
  mkHash (digest_of h) (written h ++ p) (Size h) (BlockSize h).

Definition Sum (h : Hash) (b : bytes) : bytes :=
  b ++ digest_of h (written h).

Definition Reset (h : Hash) : Hash :=
  mkHash (digest_of h) [] (Size h) (BlockSize h).

End hash.

(** [sha256.New()] *)
Definition sha256_New : hash.Hash :=
  hash.mkHash SHA256.Sum256 [] SHA256.Size SHA256.BlockSize.

(** ** Slices of bytes *)

Definition byte_xor (a b : byte) : byte :=
  byte_of_Z (Z.lxor (byte_to_Z a) (byte_to_Z b)).

(** [make([]byte, n)] *)
Definition make (n : nat) : bytes := repeat x00 n.

(** [copy(dst, src)]: the first [min(len(dst), len(src))] bytes of [dst] are
    overwritten. *)
Definition copy (dst src : bytes) : bytes :=
  firstn (length dst) src ++ skipn (length src) dst.

(** [for x := range u { t[x] ^= u[x] }], for [len(u) <= len(t)]. *)
Fixpoint xor_into (t u : bytes) : bytes :=
  match t, u with
  | a :: t', b :: u' => byte_xor a b :: xor_into t' u'
  | _, _ => t
  end.

(** ** crypto/hmac *)

Module hmac.

Record t := mk {
  opad : bytes;
  ipad : bytes;
  outer : hash.Hash;
  inner : hash.Hash }.

(** [hmac.New(h, key)] *)
Definition New (h : hash.Hash) (key : bytes) : t :=
  let outer0 := h in
  let inner0 := h in
  let blocksize := hash.BlockSize inner0 in
  let '(outer1, key1) :=
    if (blocksize <? length key)%nat
    then let o := hash.Write outer0 key in (o, hash.Sum o [])
    else (outer0, key) in
  let ipad1 := map (fun b => byte_xor b x36) (copy (make blocksize) key1) in
  let opad1 := map (fun b => byte_xor b x5c) (copy (make blocksize) key1) in
  mk opad1 ipad1 outer1 (hash.Write inner0 ipad1).

Definition Write (h : t) (p : bytes) : t :=
  mk (opad h) (ipad h) (outer h) (hash.Write (inner h) p).

(** [Sum(in)]; the outer hash is reset and rewritten on the way. *)
Definition Sum_state (h : t) (b : bytes) : bytes * t :=
  let in1 := hash.Sum (inner h) b in
  let outer1 := hash.Reset (outer h) in
  let outer2 := hash.Write outer1 (opad h) in
  let outer3 := hash.Write outer2 (skipn (length b) in1) in
  (hash.Sum outer3 (firstn (length b) in1),
   mk (opad h) (ipad h) outer3 (inner h)).

Definition Sum (h : t) (b : bytes) : bytes := fst (Sum_state h b).

Definition Reset (h : t) : t :=
  mk (opad h) (ipad h) (outer h) (hash.Write (hash.Reset (inner h)) (ipad h)).

Definition Size (h : t) : nat := hash.Size (outer h).

End hmac.

(** ** golang.org/x/crypto/pbkdf2 *)

Module pbkdf2.

(** The state of the loops of [Key]: the PRF object, the key material
    [dk] without its last block, the last block [T] (in the source a
    slice that aliases the tail of [dk], so that [T[x] ^= U[x]] updates
    [dk] in place), and the buffer [U]. *)
Record state := mkState {
  prf : hmac.t;
  dk : bytes;
  T : bytes;
  U : bytes }.

(** One turn of [for n := 2; n <= iter; n++]. *)
Definition inner_step (s : state) : state :=
  let prf1 := hmac.Write (hmac.Reset (prf s)) (U s) in
  let '(U1, prf2) := hmac.Sum_state prf1 [] in
  mkState prf2 (dk s) (xor_into (T s) U1) U1.

(** One turn of [for block := 1; block <= numBlocks; block++]. *)
Definition block_step (salt : bytes) (iter : Z) (hashLen : nat)
    (s : state) (block : Z) : state :=
  let prf1 := hmac.Write (hmac.Reset (prf s)) salt in
  let buf := [ byte_of_Z (Z.shiftr block 24); byte_of_Z (Z.shiftr block 16);
               byte_of_Z (Z.shiftr block 8); byte_of_Z block ] in
  let prf2 := hmac.Write prf1 buf in
  let '(dk1, prf3) := hmac.Sum_state prf2 (dk s ++ T s) in
  let T1 := skipn (length dk1 - hashLen) dk1 in
  let U1 := copy (U s) T1 in
  Nat.iter (Z.to_nat (iter - 1)) inner_step
    (mkState prf3 (firstn (length dk1 - hashLen) dk1) T1 U1).

Fixpoint block_loop (salt : bytes) (iter : Z) (hashLen : nat)
    (n : nat) (block : Z) (s : state) : state :=
  match n with
  | O => s
  | S n' =>
      block_loop salt iter hashLen n' (block + 1)
        (block_step salt iter hashLen s block)
  end.

(** [pbkdf2.Key(password, salt, iter, keyLen, h)] *)
Definition Key (password salt : bytes) (iter : Z) (keyLen : nat)
    (h : hash.Hash) : bytes :=
  let prf0 := hmac.New h password in
  let hashLen := hmac.Size prf0 in
  let numBlocks := ((keyLen + hashLen - 1) / hashLen)%nat in
  let s := block_loop salt iter hashLen numBlocks 1
             (mkState prf0 [] [] (make hashLen)) in
  firstn keyLen (dk s ++ T s).

End pbkdf2.

(** ** Go errors *)

(** An [error] value: the sentinel [io.EOF], a plain error made by
    [fmt.Errorf] without [%w], or an error that wraps another one
    ([fmt.Errorf] with [%w]). *)
Inductive error :=
| io_EOF
| errorString (msg : bytes)
| wrapError (msg : bytes) (err : error).

(** The method [Error()]. *)
Definition Error (e : error) : bytes :=
  match e with
  | io_EOF => lit "EOF"
  | errorString msg => msg
  | wrapError msg _ => msg
  end.

(** [err == io.EOF]: identity with the sentinel. *)
Definition is_EOF (e : error) : bool :=
  match e with
  | io_EOF => true
  | _ => false
  end.

(** [errors.Unwrap] *)
Definition Unwrap (e : error) : option error :=
  match e with
  | wrapError _ err => Some err
  | _ => None
  end.

(** [io.ErrUnexpectedEOF], made by [errors.New]; nothing in the program
    compares an error with it. *)
Definition io_ErrUnexpectedEOF : error := errorString (lit "unexpected EOF").

(** ** fmt *)

Module fmt.

(** The loop of [fmtInteger] in base 10: the digits of [u], most
    significant first, pushed in front of [acc]. *)
Fixpoint digits (fuel : nat) (u : Z) (acc : bytes) : bytes :=
  match fuel with
  | O => acc
  | S fuel' =>
      if u <? 10 then byte_of_Z (48 + u) :: acc
      else digits fuel' (u / 10) (byte_of_Z (48 + (u - (u / 10) * 10)) :: acc)
  end.

(** The verb [%d] on an [int]. *)
Definition FormatInt (z : Z) : bytes :=
  let u := Z.abs z in
  let ds := digits (S (Z.to_nat (Z.log2 u))) u [] in
  if z <? 0 then x2d :: ds else ds.

(** An operand of a formatting call. *)
Inductive arg :=
| Int (z : Z)
| Str (s : bytes)
| Err (e : error).

(** One operand under one verb.  The program formats an [int] with [%d],
    a [string] with [%s] and an [error] with [%v] or [%w]; for the other
    pairs the text is Go's bad-verb form [%!verb(type=value)]. *)
Definition printArg (verb : byte) (a : arg) : bytes :=
  let bad (ty value : bytes) :=
    lit "%!" ++ [verb] ++ lit "(" ++ ty ++ lit "=" ++ value ++ lit ")" in
  match a with
  | Int z =>
      if byte_eqb verb x64 || byte_eqb verb x76 then FormatInt z
      else bad (lit "int") (FormatInt z)
  | Str s =>
      if byte_eqb verb x73 || byte_eqb verb x76 then s
      else bad (lit "string") s
  | Err e =>
      if byte_eqb verb x73 || byte_eqb verb x76 || byte_eqb verb x77
      then Error e
      else bad (lit "error") (Error e)
  end.

(** [doPrintf]: plain bytes are copied; [%%] is a percent sign; any other
    [%verb] consumes the next operand, and [%!verb(MISSING)] stands for an
    operand that is not there.  Flags, widths and the report of surplus
    operands, which no format of the program uses, are left out. *)
Fixpoint doPrintf (format : bytes) (args : list arg) : bytes :=
  match format with
  | [] => []
  | c :: rest =>
      if byte_eqb c x25 then
        match rest with
        | [] => lit "%!(NOVERB)"
        | verb :: rest' =>
            if byte_eqb verb x25 then x25 :: doPrintf rest' args
            else
              match args with
              | [] => lit "%!" ++ [verb] ++ lit "(MISSING)" ++ doPrintf rest' []
              | a :: args' => printArg verb a ++ doPrintf rest' args'
              end
        end
      else c :: doPrintf rest args
  end.

Definition Sprintf (format : bytes) (args : list arg) : bytes :=
  doPrintf format args.

(** The operand of the first [%w] of a format, if it is an error. *)
Fixpoint wrapped (format : bytes) (args : list arg) : option error :=
  match format with
  | [] => None
  | c :: rest =>
      if byte_eqb c x25 then
        match rest with
        | [] => None
        | verb :: rest' =>
            if byte_eqb verb x25 then wrapped rest' args
            else
              match args with
              | [] => None
              | a :: args' =>
                  match a with
                  | Err e => if byte_eqb verb x77 then Some e
                             else wrapped rest' args'
                  | _ => wrapped rest' args'
                  end
              end
        end
      else wrapped rest args
  end.

(** [fmt.Errorf] *)
Definition Errorf (format : bytes) (args : list arg) : error :=
  match wrapped format args with
  | Some e => wrapError (Sprintf format args) e
  | None => errorString (Sprintf format args)
  end.

End fmt.

(** ** encoding/base64 *)

Module base64.

Definition encodeStd : bytes :=
  lit "ABCDEFGHIJKLMNOPQRSTUVWXYZabcdefghijklmnopqrstuvwxyz0123456789+/".

Definition StdPadding : byte := x3d.

(** [enc.encode[v & 0x3F]] *)
Definition enc (v : Z) : byte := nth (Z.to_nat (Z.land v 0x3F)) encodeStd x00.

(** [StdEncoding.EncodeToString(src)] *)
Fixpoint EncodeToString (src : bytes) : bytes :=
  match src with
  | [] => []
  | [b0] =>
      let val := Z.shiftl (byte_to_Z b0) 16 in
      [ enc (Z.shiftr val 18); enc (Z.shiftr val 12); StdPadding; StdPadding ]
  | [b0; b1] =>
      let val := Z.lor (Z.shiftl (byte_to_Z b0) 16) (Z.shiftl (byte_to_Z b1) 8) in
      [ enc (Z.shiftr val 18); enc (Z.shiftr val 12); enc (Z.shiftr val 6);
        StdPadding ]
  | b0 :: b1 :: b2 :: src' =>
      let val := Z.lor (Z.lor (Z.shiftl (byte_to_Z b0) 16)
                              (Z.shiftl (byte_to_Z b1) 8))
                       (byte_to_Z b2) in
      enc (Z.shiftr val 18) :: enc (Z.shiftr val 12) :: enc (Z.shiftr val 6)
      :: enc val :: EncodeToString src'
  end.

End base64.

(** ** unicode/utf8 *)

Module utf8.

(** What the table [first] and [acceptRanges] say about a leading byte
    [>= 0x80]: the size of the sequence and the accepted range of its
    second byte; [None] is the entry [xx]. *)
Definition first (b : Z) : option (nat * Z * Z) :=
  if (0xC2 <=? b) && (b <=? 0xDF) then Some (2%nat, 0x80, 0xBF)
  else if b =? 0xE0 then Some (3%nat, 0xA0, 0xBF)
  else if (0xE1 <=? b) && (b <=? 0xEC) then Some (3%nat, 0x80, 0xBF)
  else if b =? 0xED then Some (3%nat, 0x80, 0x9F)
  else if (0xEE <=? b) && (b <=? 0xEF) then Some (3%nat, 0x80, 0xBF)
  else if b =? 0xF0 then Some (4%nat, 0x90, 0xBF)
  else if (0xF1 <=? b) && (b <=? 0xF3) then Some (4%nat, 0x80, 0xBF)
  else if b =? 0xF4 then Some (4%nat, 0x80, 0x8F)
  else None.

Definition in_range (lo hi : Z) (c : byte) : bool :=
  (lo <=? byte_to_Z c) && (byte_to_Z c <=? hi).

(** A continuation byte: between [locb] and [hicb]. *)
Definition cont (c : byte) : bool := in_range 0x80 0xBF c.

(** [utf8.ValidString(s)] *)
Fixpoint ValidString (s : bytes) : bool :=
  match s with
  | [] => true
  | si :: s1 =>
      if byte_to_Z si <? 0x80 then ValidString s1
      else
        match first (byte_to_Z si) with
        | None => false
        | Some (size, lo, hi) =>
            match s1 with
            | [] => false
            | c1 :: s2 =>
                if negb (in_range lo hi c1) then false
                else if (size =? 2)%nat then ValidString s2
                else
                  match s2 with
                  | [] => false
                  | c2 :: s3 =>
                      if negb (cont c2) then false
                      else if (size =? 3)%nat then ValidString s3
                      else
                        match s3 with
                        | [] => false
                        | c3 :: s4 =>
                            if negb (cont c3) then false
                            else ValidString s4
                        end
                  end
            end
        end
  end.

End utf8.

(** ** strings *)

Module strings.

Definition contains (set : bytes) (b : byte) : bool :=
  existsb (byte_eqb b) set.

Fixpoint drop_while (p : byte -> bool) (s : bytes) : bytes :=
  match s with
  | [] => []
  | b :: s' => if p b then drop_while p s' else s
  end.

(** [strings.TrimRight(s, cutset)] for a cutset of ASCII bytes: the last
    byte is dropped as long as it is in the cutset. *)
Definition TrimRight (s cutset : bytes) : bytes :=
  rev (drop_while (contains cutset) (rev s)).

End strings.

(** ** The world the program runs in *)

(** A source of bytes: what it will still deliver, and the error its
    reader returns once that is used up.  For standard input read through
    [bufio] that is [io.EOF] at a regular end of input.  For the terminal
    it is the error of read(2), which is never [io.EOF]: see
    [term_ReadPassword]. *)
Record Stream := mkStream {
  pending : bytes;
  fault : error }.

(** A call of the program into the cryptographic libraries or the random
    source, with its operands. *)
Inductive Call :=
| Call_rand_Read (n : nat)
| Call_pbkdf2_Key (password salt : bytes) (iter : Z) (keyLen : nat)
| Call_hmac_New (key : bytes)
| Call_hmac_Write (p : bytes)
| Call_hmac_Sum
| Call_sha256_Sum256 (data : bytes).

Record World := mkWorld {
  rand_Reader : Stream;          (* crypto/rand.Reader *)
  os_Stdin : Stream;
  terminal : Stream;             (* what read(2) delivers from the terminal *)
  terminal_fault : option error; (* set when standard input is no terminal *)
  os_Args : list bytes;
  os_Stdout : bytes;
  os_Stderr : bytes;
  trace : list Call }.

(** Computations of the program: state passing over the world. *)
Definition M (A : Type) : Type := World -> A * World.

Definition ret {A} (a : A) : M A := fun w => (a, w).

Definition bind {A B} (m : M A) (k : A -> M B) : M B :=
  fun w => let (a, w') := m w in k a w'.

Declare Scope go_scope.
Delimit Scope go_scope with go.
Notation "x <- m ;; k" := (bind m (fun x => k))
  (at level 61, m at next level, right associativity) : go_scope.
Notation "' pat <- m ;; k" := (bind m (fun x => match x with pat => k end))
  (at level 61, pat pattern, m at next level, right associativity) : go_scope.
Notation "m ;; k" := (bind m (fun _ => k))
  (at level 61, right associativity) : go_scope.
Local Open Scope go_scope.

(** The world with one more call in its trace. *)
Definition record_call (c : Call) (w : World) : World :=
  mkWorld (rand_Reader w) (os_Stdin w) (terminal w) (terminal_fault w)
          (os_Args w) (os_Stdout w) (os_Stderr w) (trace w ++ [c]).

Definition log (c : Call) : M unit := fun w => (tt, record_call c w).

(** *** crypto/rand *)

(** [rand.Read(b)].  When the source delivers, [b] is filled entirely and
    the error is nil.  When the source stops short, what happens depends on
    the library: before Go 1.24 [rand.Read] is [io.ReadFull(rand.Reader, b)]
    and returns an error, which is what the second branch models
    ([io.ErrUnexpectedEOF] when some bytes were read and the source then
    reports [io.EOF], the error of the source otherwise); from Go 1.24 on
    [rand.Read] returns no error at all and the runtime ends the process
    there, so that no run of the program takes the second branch.  The
    properties below that speak of a failing read are therefore stated of
    the error [rand.Read] returned, whatever it is, and the others of a
    source that delivers. *)
Definition rand_Read (b : bytes) : M (bytes * nat * option error) :=
  log (Call_rand_Read (length b)) ;;
  fun w =>
    let r := rand_Reader w in
    let got := firstn (length b) (pending r) in
    let r' := mkStream (skipn (length b) (pending r)) (fault r) in
    let w' := mkWorld r' (os_Stdin w) (terminal w) (terminal_fault w)
                      (os_Args w) (os_Stdout w) (os_Stderr w) (trace w) in
    if (length b <=? length (pending r))%nat
    then ((got, length b, None), w')
    else ((copy b got, length got,
           Some (if negb (length got =? 0)%nat && is_EOF (fault r)
                 then io_ErrUnexpectedEOF
                 else fault r)), w').

(** *** The cryptographic calls, recorded in the trace *)

Definition pbkdf2_Key (password salt : bytes) (iter : Z) (keyLen : nat)
    (h : hash.Hash) : M bytes :=
  log (Call_pbkdf2_Key password salt iter keyLen) ;;
  ret (pbkdf2.Key password salt iter keyLen h).

Definition hmac_New (h : hash.Hash) (key : bytes) : M hmac.t :=
  log (Call_hmac_New key) ;;
  ret (hmac.New h key).

Definition hmac_Write (m : hmac.t) (p : bytes) : M hmac.t :=
  log (Call_hmac_Write p) ;;
  ret (hmac.Write m p).

Definition hmac_Sum (m : hmac.t) (b : bytes) : M bytes :=
  log Call_hmac_Sum ;;
  ret (hmac.Sum m b).

Definition sha256_Sum256 (data : bytes) : M bytes :=
  log (Call_sha256_Sum256 data) ;;
  ret (SHA256.Sum256 data).

(** *** bufio *)

(** The bytes up to and including the first [delim], and what follows. *)
Fixpoint split_after (delim : byte) (s : bytes) : option (bytes * bytes) :=
  match s with
  | [] => None
  | b :: s' =>
      if byte_eqb b delim then Some ([b], s')
      else match split_after delim s' with
           | Some (line, rest) => Some (b :: line, rest)
           | None => None
           end
  end.

(** [bufio.NewReader(os.Stdin).ReadString(delim)]: the input through the
    first [delim]; when the input ends before a [delim], what was read and
    the error of the stream. *)
Definition bufio_ReadString (delim : byte) : M (bytes * option error) :=
  fun w =>
    let s := os_Stdin w in
    let set_stdin s' :=
      mkWorld (rand_Reader w) s' (terminal w) (terminal_fault w) (os_Args w)
              (os_Stdout w) (os_Stderr w) (trace w) in
    match split_after delim (pending s) with
    | Some (line, rest) => ((line, None), set_stdin (mkStream rest (fault s)))
    | None => ((pending s, Some (fault s)), set_stdin (mkStream [] (fault s)))
    end.

(** *** golang.org/x/term *)

(** The loop of [readPasswordLine] (on a system that is not Windows) over
    the bytes its reader delivers: a backspace removes the last byte, a
    line feed ends the line, a carriage return is skipped, any other byte
    is appended. *)
Fixpoint readPasswordLine (input : bytes) (got : bytes)
    : bytes * bytes * bool :=
  match input with
  | [] => (got, [], false)
  | c :: input' =>
      if byte_eqb c x08 then readPasswordLine input' (removelast got)
      else if byte_eqb c x0a then (got, input', true)
      else if byte_eqb c x0d then readPasswordLine input' got
      else readPasswordLine input' (got ++ [c])
  end.

(** [term.ReadPassword(fd)] under Unix.  When the descriptor is no terminal
    the call fails at once.  Otherwise it reads with read(2), a byte at a
    time, in the mode it has set: no echo, canonical input, and a typed
    carriage return delivered as a line feed; so [terminal w] holds what
    read(2) delivers, not the keys as typed, and a carriage return in it
    is one that came through as such.  After these bytes read(2) fails with
    [fault (terminal w)], and the loop returns that error.  The test for
    [io.EOF] is the loop's own, for readers that report it; read(2) does
    not: at an end of input it delivers nothing without an error and the
    loop reads again, for ever if nothing more comes.  No world stands for
    such a run, and a world whose terminal fault is [io.EOF] stands for no
    run of this call. *)
Definition term_ReadPassword : M (bytes * option error) :=
  fun w =>
    match terminal_fault w with
    | Some e => (([], Some e), w)
    | None =>
        let t := terminal w in
        let '(got, rest, ended) := readPasswordLine (pending t) [] in
        let w' := mkWorld (rand_Reader w) (os_Stdin w) (mkStream rest (fault t))
                          None (os_Args w) (os_Stdout w) (os_Stderr w)
                          (trace w) in
        if ended then ((got, None), w')
        else if is_EOF (fault t) && negb (length got =? 0)%nat
             then ((got, None), w')
             else ((got, Some (fault t)), w')
    end.

(** *** Printing *)

Inductive File := Stdout | Stderr.

Definition fmt_Fprintf (f : File) (format : bytes) (args : list fmt.arg)
    : M unit :=
  fun w =>
    let text := fmt.Sprintf format args in
    match f with
    | Stdout =>
        (tt, mkWorld (rand_Reader w) (os_Stdin w) (terminal w)
                     (terminal_fault w) (os_Args w) (os_Stdout w ++ text)
                     (os_Stderr w) (trace w))
    | Stderr =>
        (tt, mkWorld (rand_Reader w) (os_Stdin w) (terminal w)
                     (terminal_fault w) (os_Args w) (os_Stdout w)
                     (os_Stderr w ++ text) (trace w))
    end.

Definition LF : bytes := [x0a].
Definition CR : bytes := [x0d].

Definition fmt_Printf (format : bytes) (args : list fmt.arg) : M unit :=
  fmt_Fprintf Stdout format args.

(** [fmt.Print(s)] and [fmt.Println(s)] of one string. *)
Definition fmt_Print (s : bytes) : M unit :=
  fmt_Fprintf Stdout (lit "%s") [fmt.Str s].

Definition fmt_Println (s : bytes) : M unit :=
  fmt_Fprintf Stdout (lit "%s" ++ LF) [fmt.Str s].

Definition os_Args0 : M bytes := fun w => (nth 0 (os_Args w) [], w).

(** * The program: main.go *)

Definition defaultIterations : Z := 4096.
Definition saltLength : nat := 16.
Definition keyLength : nat := 32.

Record Config := mkConfig {
  UseStdin : bool;
  ShowHelp : bool;
  Iterations : Z }.

Definition showHelp : M unit :=
  fmt_Println (lit "SCRAM-SHA-256 Password Generator") ;;
  fmt_Println [] ;;
  fmt_Println (lit "USAGE:") ;;
  arg0 <- os_Args0 ;;
  fmt_Printf (lit "  %s [OPTIONS]" ++ LF) [fmt.Str arg0] ;;
  fmt_Println [] ;;
  fmt_Println (lit "OPTIONS:") ;;
  fmt_Println (lit "  -stdin           Read password from stdin instead of prompting") ;;
  fmt_Println (lit "  -h, -help        Show this help message") ;;
  fmt_Println (lit "  -i, -iterations  Number of PBKDF2 iterations (default: 4096)") ;;
  fmt_Println [] ;;
  fmt_Println (lit "EXAMPLES:") ;;
  fmt_Printf (lit "  %s                    # Prompt for password" ++ LF) [fmt.Str arg0] ;;
  fmt_Printf (lit "  echo 'mypass' | %s -stdin  # Read from stdin" ++ LF) [fmt.Str arg0] ;;
  fmt_Printf (lit "  %s -i 8192               # Custom iterations" ++ LF) [fmt.Str arg0] ;;
  fmt_Println [] ;;
  fmt_Println (lit "INSTALLATION:") ;;
  fmt_Println (lit "  go install github.com/SonOfBytes/scram-sha-256@latest").

Definition promptPassword : M (bytes * option error) :=
  fmt_Print (lit "Password: ") ;;
  '(passwordBytes, err) <- term_ReadPassword ;;
  match err with
  | Some err =>
      ret ([], Some (fmt.Errorf (lit "failed to read password: %w") [fmt.Err err]))
  | None =>
      fmt_Println [] ;;
      ret (passwordBytes, None)
  end.

Definition readPasswordFromStdin : M (bytes * option error) :=
  '(password, err) <- bufio_ReadString x0a ;;
  match err with
  | Some err =>
      if negb (is_EOF err)
      then ret ([], Some (fmt.Errorf (lit "failed to read from stdin: %w") [fmt.Err err]))
      else ret (strings.TrimRight password (CR ++ LF), None)
  | None => ret (strings.TrimRight password (CR ++ LF), None)
  end.

Definition validatePassword (password : bytes) : option error :=
  if (length password =? 0)%nat
  then Some (fmt.Errorf (lit "password cannot be empty") [])
  else if negb (utf8.ValidString password)
  then Some (fmt.Errorf (lit "password must be valid UTF-8") [])
  else None.

Definition generateSCRAMSHA256 (password : bytes) (iterations : Z)
    : M (bytes * option error) :=
  if iterations <? 1
  then ret ([], Some (fmt.Errorf (lit "iterations must be at least 1") []))
  else
    let salt := make saltLength in
    '(salt, _, err) <- rand_Read salt ;;
    match err with
    | Some err =>
        ret ([], Some (fmt.Errorf (lit "failed to generate salt: %w") [fmt.Err err]))
    | None =>
        saltedPassword <- pbkdf2_Key password salt iterations keyLength sha256_New ;;

        clientKey <- hmac_New sha256_New saltedPassword ;;
        clientKey <- hmac_Write clientKey (lit "Client Key") ;;
        clientKeyBytes <- hmac_Sum clientKey [] ;;

        storedKey <- sha256_Sum256 clientKeyBytes ;;

        serverKey <- hmac_New sha256_New saltedPassword ;;
        serverKey <- hmac_Write serverKey (lit "Server Key") ;;
        serverKeyBytes <- hmac_Sum serverKey [] ;;

        let saltB64 := base64.EncodeToString salt in
        let storedKeyB64 := base64.EncodeToString storedKey in
        let serverKeyB64 := base64.EncodeToString serverKeyBytes in

        let result :=
          fmt.Sprintf (lit "SCRAM-SHA-256$%d:%s$%s:%s")
            [fmt.Int iterations; fmt.Str saltB64; fmt.Str storedKeyB64;
             fmt.Str serverKeyB64] in

        ret (result, None)
    end.

(** [main], from the parsed flags on; the result is the exit status of the
    process ([os.Exit(1)] on the error paths, 0 otherwise). *)
Definition main (config : Config) : M Z :=
  if ShowHelp config then
    showHelp ;;
    ret 0
  else
    acquired <-
      (if UseStdin config then
         '(password, err) <- readPasswordFromStdin ;;
         match err with
         | Some err =>
             fmt_Fprintf Stderr (lit "Error reading password from stdin: %v" ++ LF)
               [fmt.Err err] ;;
             ret (inl 1)
         | None => ret (inr password)
         end
       else
         '(password, err) <- promptPassword ;;
         match err with
         | Some err =>
             fmt_Fprintf Stderr (lit "Error reading password: %v" ++ LF)
               [fmt.Err err] ;;
             ret (inl 1)
         | None => ret (inr password)
         end) ;;
    match acquired with
    | inl status => ret status
    | inr password =>
        match validatePassword password with
        | Some err =>
            fmt_Fprintf Stderr (lit "Invalid password: %v" ++ LF) [fmt.Err err] ;;
            ret 1
        | None =>
            '(hash, err) <- generateSCRAMSHA256 password (Iterations config) ;;
            match err with
            | Some err =>
                fmt_Fprintf Stderr (lit "Error generating SCRAM-SHA-256: %v" ++ LF)
                  [fmt.Err err] ;;
                ret 1
            | None =>
                fmt_Println hash ;;
                ret 0
            end
        end
    end.

(** ** The values of one derivation

    The four keys that [generateSCRAMSHA256] computes from a password, a
    salt and an iteration count, as functions of these three. *)

Definition SaltedPassword (password salt : bytes) (iterations : Z) : bytes :=
  pbkdf2.Key password salt iterations keyLength sha256_New.

Definition ClientKey (password salt : bytes) (iterations : Z) : bytes :=
  hmac.Sum
    (hmac.Write (hmac.New sha256_New (SaltedPassword password salt iterations))
                (lit "Client Key")) [].

Definition StoredKey (password salt : bytes) (iterations : Z) : bytes :=
  SHA256.Sum256 (ClientKey password salt iterations).

Definition ServerKey (password salt : bytes) (iterations : Z) : bytes :=
  hmac.Sum
    (hmac.Write (hmac.New sha256_New (SaltedPassword password salt iterations))
                (lit "Server Key")) [].

(** The salt a call draws: the next [saltLength] bytes of the random
    source. *)
Definition next_salt (w : World) : bytes :=
  firstn saltLength (pending (rand_Reader w)).

(** The world after a call that drew a salt and made the calls [calls]. *)
Definition drawn (w : World) (calls : list Call) : World :=
  mkWorld (mkStream (skipn saltLength (pending (rand_Reader w)))
                    (fault (rand_Reader w)))
          (os_Stdin w) (terminal w) (terminal_fault w) (os_Args w)
          (os_Stdout w) (os_Stderr w) (trace w ++ calls).

(** The calls of one complete derivation, in their order. *)
Definition derivation_calls (password salt : bytes) (iterations : Z)
    : list Call :=
  [ Call_rand_Read saltLength;
    Call_pbkdf2_Key password salt iterations keyLength;
    Call_hmac_New (SaltedPassword password salt iterations);
    Call_hmac_Write (lit "Client Key");
    Call_hmac_Sum;
    Call_sha256_Sum256 (ClientKey password salt iterations);
    Call_hmac_New (SaltedPassword password salt iterations);
    Call_hmac_Write (lit "Server Key");
    Call_hmac_Sum ].

(** * Reference definitions *)

(** ** HMAC (RFC 2104) and PBKDF2 (RFC 8018) over SHA-256

    Written after the two documents, independently of the Go packages
    above; the theorems relate the two. *)

Module RFC.

Definition H : bytes -> bytes := SHA256.Sum256.
Definition B : nat := 64.
Definition hLen : nat := 32.

(** The key brought to [B] bytes: hashed first when it is longer, then
    filled with zeros. *)
Definition K0 (K : bytes) : bytes :=
  let K' := if (B <? length K)%nat then H K else K in
  K' ++ repeat x00 (B - length K').

Definition xor_with (c : byte) (k : bytes) : bytes :=
  map (fun b => byte_xor b c) k.

(** HMAC(K, text) = H((K0 xor opad) || H((K0 xor ipad) || text)) *)
Definition HMAC_SHA256 (K text : bytes) : bytes :=
  H (xor_with x5c (K0 K) ++ H (xor_with x36 (K0 K) ++ text)).

Definition xor_bytes (a b : bytes) : bytes :=
  map (fun p => byte_xor (fst p) (snd p)) (combine a b).

(** INT(i): the four-octet encoding of [i], most significant octet
    first. *)
Definition INT (i : Z) : bytes :=
  [ byte_of_Z (i / 2 ^ 24); byte_of_Z (i / 2 ^ 16); byte_of_Z (i / 2 ^ 8);
    byte_of_Z i ].

Section F.
Variables (P S : bytes) (i : Z).

(** [U j] is U_(j+1): U_1 = PRF(P, S || INT(i)), U_n = PRF(P, U_(n-1)). *)
Fixpoint U (j : nat) : bytes :=
  match j with
  | O => HMAC_SHA256 P (S ++ INT i)
  | Datatypes.S j' => HMAC_SHA256 P (U j')
  end.

(** [xor_upto j] is U_1 xor ... xor U_(j+1). *)
Fixpoint xor_upto (j : nat) : bytes :=
  match j with
  | O => U O
  | Datatypes.S j' => xor_bytes (xor_upto j') (U j)
  end.

(** F(P, S, c, i) = U_1 xor U_2 xor ... xor U_c, for [c >= 1]. *)
Definition F (c : Z) : bytes := xor_upto (Z.to_nat (c - 1)).
End F.

(** DK = T_1 || T_2 || ... || T_l, cut to [dkLen] octets, with
    l = ceil(dkLen / hLen) and T_i = F(P, S, c, i). *)
Definition PBKDF2 (P S : bytes) (c : Z) (dkLen : nat) : bytes :=
  let l := ((dkLen + hLen - 1) / hLen)%nat in
  firstn dkLen
    (flat_map (fun i => F P S (Z.of_nat i) c) (seq 1 l)).

End RFC.

(** ** The verifier grammar

    [SCRAM-SHA-256$<iterations>:<salt>$<storedkey>:<serverkey>], read by
    splitting on ['$'] and [':'], with the decimal and base64 (RFC 4648,
    standard alphabet, padded) readers its fields need. *)

Module Verifier.

(** The pieces of [s] between the occurrences of [sep]. *)
Fixpoint split (sep : byte) (s : bytes) : list bytes :=
  match s with
  | [] => [[]]
  | b :: s' =>
      if byte_eqb b sep then [] :: split sep s'
      else match split sep s' with
           | piece :: pieces => (b :: piece) :: pieces
           | [] => [[b]]
           end
  end.

Definition is_digit (b : byte) : bool :=
  (48 <=? byte_to_Z b) && (byte_to_Z b <=? 57).

(** The number a string of digits stands for. *)
Definition decimal_value (ds : bytes) : Z :=
  fold_left (fun acc c => 10 * acc + (byte_to_Z c - 48)) ds 0.

(** A decimal numeral: digits only, at least one, none of them a leading
    zero (the numeral [0] apart). *)
Definition parse_decimal (s : bytes) : option Z :=
  match s with
  | [] => None
  | d :: s' =>
      if forallb is_digit s
         && negb (byte_eqb d x30 && negb (length s' =? 0)%nat)
      then Some (decimal_value s)
      else None
  end.

(** The position of a character in the standard alphabet. *)
Fixpoint index_in (c : byte) (alphabet : bytes) (i : Z) : option Z :=
  match alphabet with
  | [] => None
  | a :: alphabet' =>
      if byte_eqb c a then Some i else index_in c alphabet' (i + 1)
  end.

Definition sextet (c : byte) : option Z := index_in c base64.encodeStd 0.

Definition is_pad (c : byte) : bool := byte_eqb c x3d.

(** Groups of four characters give three octets; the last group may end
    in one or two pad characters and then gives two or one. *)
Fixpoint base64_decode (s : bytes) : option bytes :=
  match s with
  | [] => Some []
  | c0 :: c1 :: c2 :: c3 :: s' =>
      match sextet c0, sextet c1 with
      | Some i0, Some i1 =>
          if is_pad c2 && is_pad c3 then
            match s' with
            | [] => Some [ byte_of_Z ((i0 * 64 + i1) / 16) ]
            | _ => None
            end
          else
            match sextet c2 with
            | Some i2 =>
                if is_pad c3 then
                  match s' with
                  | [] =>
                      let n := (i0 * 64 + i1) * 64 + i2 in
                      Some [ byte_of_Z (n / 1024); byte_of_Z (n / 4) ]
                  | _ => None
                  end
                else
                  match sextet c3, base64_decode s' with
                  | Some i3, Some out =>
                      let n := ((i0 * 64 + i1) * 64 + i2) * 64 + i3 in
                      Some (byte_of_Z (n / 65536) :: byte_of_Z (n / 256)
                            :: byte_of_Z n :: out)
                  | _, _ => None
                  end
            | None => None
            end
      | _, _ => None
      end
  | _ => None
  end.

(** The fields of a verifier string: iteration count, salt, StoredKey,
    ServerKey. *)
Definition parse (s : bytes) : option (Z * bytes * bytes * bytes) :=
  match split x24 s with
  | [scheme; front; back] =>
      if bytes_eqb scheme (lit "SCRAM-SHA-256") then
        match split x3a front, split x3a back with
        | [its; salt64], [stored64; server64] =>
            match parse_decimal its, base64_decode salt64,
                  base64_decode stored64, base64_decode server64 with
            | Some i, Some salt, Some stored, Some server =>
                Some (i, salt, stored, server)
            | _, _, _, _ => None
            end
        | _, _ => None
        end
      else None
  | _ => None
  end.

(** A valid verifier string: it parses, the iteration count is at least
    1, the salt has 16 bytes and each key has 32. *)
Definition valid (s : bytes) : bool :=
  match parse s with
  | Some (i, salt, stored, server) =>
      (1 <=? i) && (length salt =? 16)%nat && (length stored =? 32)%nat
      && (length server =? 32)%nat
  | None => false
  end.

(** White space: space, tab, line feed, vertical tab, form feed,
    carriage return. *)
Definition is_space (b : byte) : bool :=
  byte_eqb b x20 || byte_eqb b x09 || byte_eqb b x0a || byte_eqb b x0b
  || byte_eqb b x0c || byte_eqb b x0d.

(** A character of a base64 text: a letter of the alphabet or the pad. *)
Definition base64_char (c : byte) : bool :=
  strings.contains base64.encodeStd c || is_pad c.

(** A byte that may occur inside a field: neither a delimiter nor white
    space. *)
Definition field_char (c : byte) : bool :=
  negb (byte_eqb c x24) && negb (byte_eqb c x3a) && negb (is_space c).

(** The verifier string of four given fields, piece by piece. *)
Definition render (iterations : Z) (salt stored server : bytes) : bytes :=
  lit "SCRAM-SHA-256$" ++ fmt.FormatInt iterations ++ lit ":"
  ++ base64.EncodeToString salt ++ lit "$"
  ++ base64.EncodeToString stored ++ lit ":"
  ++ base64.EncodeToString server.

End Verifier.

(** An HMAC object keyed with [K]: its pads are those of RFC 2104 and both
    its hashes are SHA-256. *)
Definition hmac_keyed (K : bytes) (m : hmac.t) : Prop :=
  hmac.opad m = RFC.xor_with x5c (RFC.K0 K)
  /\ hmac.ipad m = RFC.xor_with x36 (RFC.K0 K)
  /\ hash.digest_of (hmac.outer m) = SHA256.Sum256
  /\ hash.digest_of (hmac.inner m) = SHA256.Sum256
  /\ hash.Size (hmac.outer m) = 32%nat.

(** ** Vocabulary of the further properties *)

(** The world after [text] was written to a stream. *)
Definition printed (f : File) (text : bytes) (w : World) : World :=
  match f with
  | Stdout =>
      mkWorld (rand_Reader w) (os_Stdin w) (terminal w) (terminal_fault w)
              (os_Args w) (os_Stdout w ++ text) (os_Stderr w) (trace w)
  | Stderr =>
      mkWorld (rand_Reader w) (os_Stdin w) (terminal w) (terminal_fault w)
              (os_Args w) (os_Stdout w) (os_Stderr w ++ text) (trace w)
  end.

(** The reader [main] uses under a configuration. *)
Definition password_reader (config : Config) : M (bytes * option error) :=
  if UseStdin config then readPasswordFromStdin else promptPassword.

(** The words in front of a reader's error on standard error. *)
Definition read_error_prefix (config : Config) : bytes :=
  if UseStdin config then lit "Error reading password from stdin: "
  else lit "Error reading password: ".

(** A byte of the ASCII range. *)
Definition is_ascii (b : byte) : bool := byte_to_Z b <? 0x80.

(** A computation whose only effect is to append text to standard
    output. *)
Definition only_prints (m : M unit) : Prop :=
  forall w, exists text, m w = (tt, printed Stdout text w).

(** The bytes that occur in no UTF-8 text: 0xC0, 0xC1 and 0xF5 to 0xFF. *)
Definition never_in_utf8 (b : byte) : bool :=
  (byte_to_Z b =? 0xC0) || (byte_to_Z b =? 0xC1) || (0xF5 <=? byte_to_Z b).

(** The characters a verifier string is made of: letters, digits and
    [+ / = $ : -]. *)
Definition verifier_char (c : byte) : bool :=
  let z := byte_to_Z c in
  ((65 <=? z) && (z <=? 90)) || ((97 <=? z) && (z <=? 122))
  || ((48 <=? z) && (z <=? 57))
  || strings.contains (lit "+/=$:-") c.

(** A letter of the base64 alphabet (the pad is none). *)
Definition base64_letter (c : byte) : bool :=
  strings.contains base64.encodeStd c.

(** How often a byte occurs in a string. *)
Definition count (b : byte) (s : bytes) : nat :=
  length (filter (byte_eqb b) s).

(** ** strconv and flag, and [parseFlags] *)

Module strconv.

(** [lower(c)]: the byte with the bit of lower case set. *)
Definition lower (c : byte) : Z := Z.lor (byte_to_Z c) 0x20.

(** [strconv.ParseBool] *)
Definition ParseBool (s : bytes) : option bool :=
  if existsb (bytes_eqb s)
       [lit "1"; lit "t"; lit "T"; lit "TRUE"; lit "true"; lit "True"]
  then Some true
  else if existsb (bytes_eqb s)
            [lit "0"; lit "f"; lit "F"; lit "FALSE"; lit "false"; lit "False"]
  then Some false
  else None.

(** The base prefix of [ParseUint] with base 0: the base and the digits
    that follow the prefix. *)
Definition base_prefix (s : bytes) : Z * bytes :=
  match s with
  | c0 :: rest =>
      if byte_eqb c0 x30 then
        match rest with
        | c1 :: _ :: _ =>
            if lower c1 =? 98 then (2, tl rest)
            else if lower c1 =? 111 then (8, tl rest)
            else if lower c1 =? 120 then (16, tl rest)
            else (8, rest)
        | _ => (8, rest)
        end
      else (10, s)
  | [] => (10, s)
  end.

(** The digit loop of [ParseUint] for 64 bits; [None] is a syntax or a
    range error. *)
Fixpoint digits_loop (base : Z) (s : bytes) (n : Z) : option Z :=
  match s with
  | [] => Some n
  | c :: s' =>
      if byte_eqb c x5f then digits_loop base s' n
      else
        let z := byte_to_Z c in
        let d := if (48 <=? z) && (z <=? 57) then Some (z - 48)
                 else if (97 <=? lower c) && (lower c <=? 122)
                      then Some (lower c - 97 + 10)
                      else None in
        match d with
        | None => None
        | Some d =>
            if base <=? d then None
            else if (2 ^ 64 - 1) / base + 1 <=? n then None
            else if 2 ^ 64 - 1 <? n * base + d then None
            else digits_loop base s' (n * base + d)
        end
  end.

(** The state [saw] of [underscoreOK]. *)
Inductive seen := seen_start | seen_digit | seen_underscore | seen_other.

Fixpoint underscore_scan (hex : bool) (s : bytes) (saw : seen) : bool :=
  match s with
  | [] => match saw with seen_underscore => false | _ => true end
  | c :: s' =>
      let z := byte_to_Z c in
      if ((48 <=? z) && (z <=? 57))
         || (hex && (97 <=? lower c) && (lower c <=? 102))
      then underscore_scan hex s' seen_digit
      else if byte_eqb c x5f then
        match saw with
        | seen_digit => underscore_scan hex s' seen_underscore
        | _ => false
        end
      else
        match saw with
        | seen_underscore => false
        | _ => underscore_scan hex s' seen_other
        end
  end.

(** [underscoreOK]: underscores only between digits, or between the base
    prefix and a digit. *)
Definition underscoreOK (s : bytes) : bool :=
  let s1 := match s with
            | c :: rest =>
                if byte_eqb c x2d || byte_eqb c x2b then rest else s
            | [] => s
            end in
  match s1 with
  | c0 :: c1 :: rest =>
      if byte_eqb c0 x30
         && ((lower c1 =? 98) || (lower c1 =? 111) || (lower c1 =? 120))
      then underscore_scan (lower c1 =? 120) rest seen_digit
      else underscore_scan false s1 seen_start
  | _ => underscore_scan false s1 seen_start
  end.

(** [strconv.ParseUint(s, 0, 64)] *)
Definition ParseUint (s : bytes) : option Z :=
  match s with
  | [] => None
  | _ :: _ =>
      let '(base, ds) := base_prefix s in
      match digits_loop base ds 0 with
      | None => None
      | Some n =>
          if existsb (byte_eqb x5f) ds && negb (underscoreOK s) then None
          else Some n
      end
  end.

(** [strconv.ParseInt(s, 0, 64)]; [None] stands for either error. *)
Definition ParseInt (s : bytes) : option Z :=
  match s with
  | [] => None
  | c :: rest =>
      let neg := byte_eqb c x2d in
      let s1 := if byte_eqb c x2b || neg then rest else s in
      match ParseUint s1 with
      | None => None
      | Some un =>
          if negb neg && (2 ^ 63 <=? un) then None
          else if neg && (2 ^ 63 <? un) then None
          else Some (if neg then - un else un)
      end
  end.

End strconv.

Module flag.

(** The variable a flag writes to, by its kind. *)
Inductive Value :=
| boolVar (set : bool -> Config -> Config)
| intVar (set : Z -> Config -> Config).

(** One step of the parser: a flag was seen and set, the flags are over
    (with the arguments that remain), or the argument is in error. *)
Inductive step :=
| Seen (args : list bytes) (config : Config)
| Over (args : list bytes)
| Failed.

(** A flag name and, after the first [=] that is not its first byte, its
    value. *)
Fixpoint cut_value (s : bytes) : bytes * option bytes :=
  match s with
  | [] => ([], None)
  | c :: s' =>
      if byte_eqb c x3d then ([], Some s')
      else let '(name, value) := cut_value s' in (c :: name, value)
  end.

Definition name_and_value (name : bytes) : bytes * option bytes :=
  match name with
  | [] => ([], None)
  | c :: s' => let '(n, v) := cut_value s' in (c :: n, v)
  end.

Section FlagSet.

(** The flags that were defined: [f.formal]. *)
Variable formal : bytes -> option Value.

(** The method [parseOne] of the flag set. *)
Definition parseOne (args : list bytes) (config : Config) : step :=
  match args with
  | [] => Over []
  | s :: rest =>
      if (length s <? 2)%nat || negb (byte_eqb (hd x00 s) x2d) then Over args
      else
        let two := byte_eqb (nth 1 s x00) x2d in
        if two && (length s =? 2)%nat then Over rest
        else
          let name := skipn (if two then 2 else 1) s in
          if (length name =? 0)%nat || byte_eqb (hd x00 name) x2d
             || byte_eqb (hd x00 name) x3d
          then Failed
          else
            let '(name, value) := name_and_value name in
            match formal name with
            | None => Failed
            | Some (boolVar set) =>
                match value with
                | Some v =>
                    match strconv.ParseBool v with
                    | Some b => Seen rest (set b config)
                    | None => Failed
                    end
                | None => Seen rest (set true config)
                end
            | Some (intVar set) =>
                let set_from v args' :=
                  match strconv.ParseInt v with
                  | Some n => Seen args' (set n config)
                  | None => Failed
                  end in
                match value with
                | Some v => set_from v rest
                | None =>
                    match rest with
                    | v :: rest' => set_from v rest'
                    | [] => Failed
                    end
                end
            end
  end.

(** The loop of the method [Parse]: [None] when an argument is in error
    (the flag package then reports it and ends the process with status
    2). *)
Fixpoint Parse_loop (fuel : nat) (args : list bytes) (config : Config)
    : option (Config * list bytes) :=
  match fuel with
  | O => Some (config, args)
  | S fuel' =>
      match parseOne args config with
      | Seen args' config' => Parse_loop fuel' args' config'
      | Over args' => Some (config, args')
      | Failed => None
      end
  end.

Definition Parse (args : list bytes) (config : Config)
    : option (Config * list bytes) :=
  Parse_loop (S (length args)) args config.

End FlagSet.

End flag.

Definition set_UseStdin (b : bool) (c : Config) : Config :=
  mkConfig b (ShowHelp c) (Iterations c).

Definition set_ShowHelp (b : bool) (c : Config) : Config :=
  mkConfig (UseStdin c) b (Iterations c).

Definition set_Iterations (n : Z) (c : Config) : Config :=
  mkConfig (UseStdin c) (ShowHelp c) n.

(** The flags [parseFlags] defines: two names for the help flag and two
    for the iteration count. *)
Definition defined_flags (name : bytes) : option flag.Value :=
  if bytes_eqb name (lit "stdin") then Some (flag.boolVar set_UseStdin)
  else if bytes_eqb name (lit "help") then Some (flag.boolVar set_ShowHelp)
  else if bytes_eqb name (lit "h") then Some (flag.boolVar set_ShowHelp)
  else if bytes_eqb name (lit "iterations")
  then Some (flag.intVar set_Iterations)
  else if bytes_eqb name (lit "i") then Some (flag.intVar set_Iterations)
  else None.

(** [parseFlags], on the arguments of the command line after the program
    name; [None] when the flag package ends the process. *)
Definition parseFlags_of (args : list bytes) : option Config :=
  let config := mkConfig false false defaultIterations in
  match flag.Parse defined_flags args config with
  | Some (config', _) => Some config'
  | None => None
  end.

(** How [parseFlags] ends: with the configuration; or, on an argument in
    error, inside the flag package, which reports the error and ends the
    process with status 2 (what it prints is not modelled); or, when
    [os.Args] is empty, at the slice [os.Args[1:]] of [flag.Parse]. *)
Inductive parsed :=
| Parsed (config : Config)
| Exit2
| OutOfRange.

(** [parseFlags]: it reads [os.Args] and, when it returns, has changed
    nothing of the world. *)
Definition parseFlags (w : World) : parsed :=
  match os_Args w with
  | [] => OutOfRange
  | _ :: args =>
      match parseFlags_of args with
      | Some config => Parsed config
      | None => Exit2
      end
  end.

(** *** Command lines, read as lists of settings *)

(** The one or two dashes in front of a flag name. *)
Definition dashes (d : bytes) : Prop := d = lit "-" \/ d = lit "--".

(** [flag_arg a f]: the arguments [a] (one, or a flag and its value) are
    one well-formed use of a defined flag, and [f] is what it sets. *)
Inductive flag_arg : list bytes -> (Config -> Config) -> Prop :=
| bool_flag (d name : bytes) (set : bool -> Config -> Config) :
    dashes d ->
    defined_flags name = Some (flag.boolVar set) ->
    flag_arg [d ++ name] (set true)
| bool_flag_value (d name v : bytes) (set : bool -> Config -> Config)
    (b : bool) :
    dashes d ->
    defined_flags name = Some (flag.boolVar set) ->
    strconv.ParseBool v = Some b ->
    flag_arg [d ++ name ++ x3d :: v] (set b)
| int_flag_value (d name v : bytes) (set : Z -> Config -> Config) (n : Z) :
    dashes d ->
    defined_flags name = Some (flag.intVar set) ->
    strconv.ParseInt v = Some n ->
    flag_arg [d ++ name ++ x3d :: v] (set n)
| int_flag_next (d name v : bytes) (set : Z -> Config -> Config) (n : Z) :
    dashes d ->
    defined_flags name = Some (flag.intVar set) ->
    strconv.ParseInt v = Some n ->
    flag_arg [d ++ name; v] (set n).

(** A sequence of such uses, and the settings made from left to right. *)
Inductive flag_args : list bytes -> (Config -> Config) -> Prop :=
| no_flags : flag_args [] (fun c => c)
| more_flags (a args : list bytes) (f g : Config -> Config) :
    flag_arg a f -> flag_args args g ->
    flag_args (a ++ args) (fun c => g (f c)).

(** Arguments at which the flags end: none, or a first argument that is
    no flag (shorter than two bytes, or not starting with a dash) or is
    the terminator [--]. *)
Definition ends_flags (rest : list bytes) : Prop :=
  match rest with
  | [] => True
  | s :: _ => (length s < 2)%nat \/ hd x00 s <> x2d \/ s = lit "--"
  end.

(** The shape of a flag name on the command line: not empty, no dash and
    no equals sign in front, no equals sign further on. *)
Definition flag_name (name : bytes) : Prop :=
  match name with
  | [] => False
  | b :: name' => b <> x2d /\ b <> x3d /\ ~ In x3d name'
  end.

(** [bad_flag args]: the arguments start with a dash argument that the
    flag package refuses. *)
Inductive bad_flag : list bytes -> Prop :=
| three_dashes (t : bytes) (rest : list bytes) :
    bad_flag ((lit "---" ++ t) :: rest)
| equals_first (d t : bytes) (rest : list bytes) :
    dashes d -> bad_flag ((d ++ x3d :: t) :: rest)
| undefined_flag (d name : bytes) (rest : list bytes) :
    dashes d -> flag_name name -> defined_flags name = None ->
    bad_flag ((d ++ name) :: rest)
| undefined_flag_value (d name v : bytes) (rest : list bytes) :
    dashes d -> flag_name name -> defined_flags name = None ->
    bad_flag ((d ++ name ++ x3d :: v) :: rest)
| bool_flag_bad_value (d name v : bytes) (set : bool -> Config -> Config)
    (rest : list bytes) :
    dashes d ->
    defined_flags name = Some (flag.boolVar set) ->
    strconv.ParseBool v = None ->
    bad_flag ((d ++ name ++ x3d :: v) :: rest)
| int_flag_bad_value (d name v : bytes) (set : Z -> Config -> Config)
    (rest : list bytes) :
    dashes d ->
    defined_flags name = Some (flag.intVar set) ->
    strconv.ParseInt v = None ->
    bad_flag ((d ++ name ++ x3d :: v) :: rest)
| int_flag_bad_next (d name v : bytes) (set : Z -> Config -> Config)
    (rest : list bytes) :
    dashes d ->
    defined_flags name = Some (flag.intVar set) ->
    strconv.ParseInt v = None ->
    bad_flag ((d ++ name) :: v :: rest)
| int_flag_no_value (d name : bytes) (set : Z -> Config -> Config) :
    dashes d ->
    defined_flags name = Some (flag.intVar set) ->
    bad_flag [d ++ name].

(** ** Concrete inputs *)

(** Lower-case hexadecimal text, for comparing digests with published
    values. *)
Definition hex (b : bytes) : bytes :=
  let digit n := byte_of_Z (if n <? 10 then 48 + n else 87 + n) in
  flat_map (fun x => [digit (byte_to_Z x / 16); digit (byte_to_Z x mod 16)]) b.

(** A world whose random source delivers [entropy] and then fails, with
    [input] on a standard input that is no terminal, and empty output
    streams and trace. *)
Definition example_world (entropy input : bytes) : World :=
  mkWorld (mkStream entropy (errorString (lit "entropy source failed")))
          (mkStream input io_EOF)
          (mkStream [] (errorString (lit "input/output error")))
          (Some (errorString (lit "inappropriate ioctl for device")))
          [lit "scram-sha-256"] [] [] [].

Definition example_salt : bytes :=
  [x00; x01; x02; x03; x04; x05; x06; x07; x08; x09; x0a; x0b; x0c; x0d; x0e; x0f].

Definition example_salt' : bytes :=
  [x10; x11; x12; x13; x14; x15; x16; x17; x18; x19; x1a; x1b; x1c; x1d; x1e; x1f].

Definition example_password : bytes := lit "pencil".

Definition world_one_salt : World := example_world example_salt [].

Definition world_two_salts : World :=
  example_world (example_salt ++ example_salt') [].

Definition world_three_draws : World :=
  example_world (example_salt ++ example_salt' ++ [xff]) [].

Definition world_other : World :=
  example_world (example_salt ++ [xff]) (lit "other input").

(** One run of the derivation, with two iterations. *)
Definition example_run : bytes * option error * World :=
  generateSCRAMSHA256 example_password 2 world_one_salt.

Definition example_line : bytes := lit "my  pass word " ++ CR ++ CR.

Definition world_with_line : World :=
  example_world [] (example_line ++ x0a :: lit "second line").

(** Standard input that holds a byte string that is no UTF-8. *)
Definition world_bad_utf8 : World := example_world example_salt [xff; x0a].

(** Standard input that breaks off with a read error after some bytes. *)
Definition world_broken_stdin : World :=
  mkWorld (mkStream example_salt (errorString (lit "entropy source failed")))
          (mkStream (lit "penc") (errorString (lit "read /dev/stdin: input/output error")))
          (mkStream [] (errorString (lit "input/output error")))
          (Some (errorString (lit "inappropriate ioctl for device")))
          [lit "scram-sha-256"] [] [] [].

(** A world with a command line. *)
Definition world_with_args (args : list bytes) : World :=
  mkWorld (mkStream example_salt (errorString (lit "entropy source failed")))
          (mkStream [] io_EOF)
          (mkStream [] (errorString (lit "input/output error")))
          (Some (errorString (lit "inappropriate ioctl for device")))
          (lit "scram-sha-256" :: args) [] [] [].

Definition example_flags : list bytes :=
  [lit "-stdin"; lit "--iterations=8192"; lit "-i"; lit "10000";
   lit "-h=false"].

Definition example_operands : list bytes := [lit "--"; lit "-help"].



(** * Properties *)

(** ** The library models on published values *)

(** SHA-256 of [abc] (FIPS 180-4, appendix B.1) and of the empty input. *)
Example sha256_abc :
  hex (SHA256.Sum256 (lit "abc"))
  = lit "ba7816bf8f01cfea414140de5dae2223b00361a396177a9cb410ff61f20015ad".
Proof. vm_compute. reflexivity. Qed.

Example sha256_empty :
  hex (SHA256.Sum256 [])
  = lit "e3b0c44298fc1c149afbf4c8996fb92427ae41e4649b934ca495991b7852b855".
Proof. vm_compute. reflexivity. Qed.

(** SHA-256 of a message of two blocks (FIPS 180-4, appendix B.2). *)
Example sha256_two_blocks :
  hex (SHA256.Sum256
         (lit "abcdbcdecdefdefgefghfghighijhijkijkljklmklmnlmnomnopnopq"))
  = lit "248d6a61d20638b8e5c026930c3e6039a33ce45964ff2167f6ecedd419db06c1".
Proof. vm_compute. reflexivity. Qed.

(** HMAC-SHA-256, test case 2 of RFC 4231, and a key longer than a
    block (test case 6). *)
Example hmac_rfc4231_case2 :
  hex (hmac.Sum (hmac.Write (hmac.New sha256_New (lit "Jefe"))
                            (lit "what do ya want for nothing?")) [])
  = lit "5bdcc146bf60754e6a042426089575c75a003f089d2739839dec58b964ec3843".
Proof. vm_compute. reflexivity. Qed.

Example hmac_rfc4231_case6 :
  hex (hmac.Sum
         (hmac.Write (hmac.New sha256_New (repeat xaa 131))
            (lit "Test Using Larger Than Block-Size Key - Hash Key First")) [])
  = lit "60e431591ee0b67f0d8a26aacbf5b77f8e0bc6213728c5140546040f0ee37f54".
Proof. vm_compute. reflexivity. Qed.

(** PBKDF2-HMAC-SHA-256 with one and with two iterations, and over more
    than one block. *)
Example pbkdf2_one_iteration :
  hex (pbkdf2.Key (lit "password") (lit "salt") 1 32 sha256_New)
  = lit "120fb6cffcf8b32c43e7225256c4f837a86548c92ccc35480805987cb70be17b".
Proof. vm_compute. reflexivity. Qed.

Example pbkdf2_two_iterations :
  hex (pbkdf2.Key (lit "password") (lit "salt") 2 32 sha256_New)
  = lit "ae4d0c95af6b46d32d0adff928f06dd02a303f8ef3c251dfd6e2d85a95474c43".
Proof. vm_compute. reflexivity. Qed.

Example pbkdf2_two_blocks :
  hex (pbkdf2.Key (lit "passwordPASSWORDpassword")
         (lit "saltSALTsaltSALTsaltSALTsaltSALTsalt") 3 40 sha256_New)
  = lit "325651a5ca818d11f4331cb0c300d6f8b68790c75a09ebad494e74b3f649475856c392e03e00705f".
Proof. vm_compute. reflexivity. Qed.

(** base64 on the vectors of RFC 4648. *)
Example base64_rfc4648 :
  map base64.EncodeToString
      [lit ""; lit "f"; lit "fo"; lit "foo"; lit "foob"; lit "fooba";
       lit "foobar"]
  = [lit ""; lit "Zg=="; lit "Zm8="; lit "Zm9v"; lit "Zm9vYg==";
     lit "Zm9vYmE="; lit "Zm9vYmFy"].
Proof. reflexivity. Qed.

Example FormatInt_values :
  map fmt.FormatInt [0; 7; 10; 4096; -15; 9223372036854775807]
  = [lit "0"; lit "7"; lit "10"; lit "4096"; lit "-15";
     lit "9223372036854775807"].
Proof. vm_compute. reflexivity. Qed.

(** UTF-8: an overlong form, a surrogate, a code point above U+10FFFF and
    a cut sequence are refused. *)
Example ValidString_values :
  map utf8.ValidString
      [lit "abc"; [xc3; xa9]; [xe2; x82; xac]; [xf0; x9f; x98; x80];
       [xf4; x8f; xbf; xbf]; [xff]; [xc0; x80]; [xed; xa0; x80];
       [xf4; x90; x80; x80]; [xe2; x82]]
  = [true; true; true; true; true; false; false; false; false; false].
Proof. reflexivity. Qed.

(** The example of the README is a valid verifier string. *)
Example README_example_is_valid :
  Verifier.valid
    (lit "SCRAM-SHA-256$4096:2JOi/fCI9fLQbBIvOGYjZg==$xT/AX0HenOPJXGjpyhuSPpXwBlrRtO3NglO9pJs8ICg=:4Eu09+DaYd3rb27kkrCKQloHGoR6X9pqVgzSxDakeGU=")
  = true.
Proof. vm_compute. reflexivity. Qed.

(** One whole run of the program, reading [mypassword] from standard
    input. *)
Example main_on_stdin :
  let w := example_world (repeat x00 16) (lit "mypassword" ++ CR ++ LF) in
  let r := main (mkConfig true false 2) w in
  fst r = 0
  /\ os_Stdout (snd r)
     = lit "SCRAM-SHA-256$2:AAAAAAAAAAAAAAAAAAAAAA==$cPNgCGuyWIC+lXOFpi+HPJT4haDCtpNqlpzc2+kPmdM=:Ss78QqDZTfcQZrHraQEi+r+dxup3iKKsWar3g4D9n7M="
       ++ LF
  /\ os_Stderr (snd r) = [].
Proof. vm_compute. repeat split. Qed.

(** ** Bytes *)

Lemma byte_to_Z_range (b : byte) : 0 <= byte_to_Z b < 256.
Proof.
  unfold byte_to_Z. pose proof (Byte.to_N_bounded b). lia.
Qed.

Lemma byte_of_to_Z (b : byte) : byte_of_Z (byte_to_Z b) = b.
Proof.
  unfold byte_of_Z.
  rewrite Z.mod_small by apply byte_to_Z_range.
  unfold byte_to_Z. now rewrite N2Z.id, Byte.of_to_N.
Qed.

Lemma byte_to_of_Z (z : Z) : 0 <= z < 256 -> byte_to_Z (byte_of_Z z) = z.
Proof.
  intros Hz. unfold byte_of_Z. rewrite Z.mod_small by lia.
  destruct (Byte.of_N (Z.to_N z)) eqn:E.
  - apply Byte.to_of_N in E. unfold byte_to_Z. rewrite E. lia.
  - apply Byte.of_N_None_iff in E. lia.
Qed.

Lemma byte_of_Z_mod (z : Z) : byte_of_Z (z mod 256) = byte_of_Z z.
Proof.
  unfold byte_of_Z. now rewrite Z.mod_mod by lia.
Qed.

Lemma byte_of_Z_unique (z : Z) (b : byte) :
  z mod 256 = byte_to_Z b -> byte_of_Z z = b.
Proof.
  intros H. now rewrite <- byte_of_Z_mod, H, byte_of_to_Z.
Qed.

Lemma byte_of_Z_inj (x y : Z) :
  0 <= x < 256 -> 0 <= y < 256 -> byte_of_Z x = byte_of_Z y -> x = y.
Proof.
  intros Hx Hy E. apply (f_equal byte_to_Z) in E.
  now rewrite !byte_to_of_Z in E.
Qed.

Lemma byte_eqb_eq (a b : byte) : byte_eqb a b = true <-> a = b.
Proof.
  unfold byte_eqb. split.
  - apply Byte.byte_dec_bl.
  - apply Byte.byte_dec_lb.
Qed.

Lemma byte_eqb_refl (a : byte) : byte_eqb a a = true.
Proof. now apply byte_eqb_eq. Qed.

Lemma byte_eqb_neq (a b : byte) : byte_eqb a b = false <-> a <> b.
Proof.
  split.
  - intros H E. apply byte_eqb_eq in E. congruence.
  - intros H. destruct (byte_eqb a b) eqn:E; [|reflexivity].
    apply byte_eqb_eq in E. contradiction.
Qed.

Lemma bytes_eqb_refl (s : bytes) : bytes_eqb s s = true.
Proof.
  induction s as [|b s IH]; simpl; [reflexivity|].
  now rewrite byte_eqb_refl, IH.
Qed.

(** Induction over a list three elements at a time, the way the base64
    encoder walks its input. *)
Lemma list_ind3 {A} (P : list A -> Prop) :
  P [] ->
  (forall a, P [a]) ->
  (forall a b, P [a; b]) ->
  (forall a b c l, P l -> P (a :: b :: c :: l)) ->
  forall l, P l.
Proof.
  intros H0 H1 H2 H3.
  fix IH 1. intros [|a [|b [|c l]]].
  - exact H0.
  - apply H1.
  - apply H2.
  - apply H3, IH.
Qed.

(** ** Shifts and masks as arithmetic *)

Lemma lor_shiftl_add (hi lo k : Z) :
  0 <= k -> 0 <= lo < 2 ^ k ->
  Z.lor (Z.shiftl hi k) lo = hi * 2 ^ k + lo.
Proof.
  intros Hk Hlo.
  assert (D : Z.land (Z.shiftl hi k) lo = 0).
  { apply Z.bits_inj'. intros n Hn.
    rewrite Z.land_spec, Z.bits_0.
    destruct (Z.lt_ge_cases n k) as [Hlt|Hge].
    - now rewrite Z.shiftl_spec_low.
    - destruct (Z.eq_dec lo 0) as [->|Hnz].
      + now rewrite Z.bits_0, andb_false_r.
      + rewrite (Z.bits_above_log2 lo n), andb_false_r; try lia.
        apply Z.log2_lt_pow2; try lia.
        apply Z.lt_le_trans with (2 ^ k); [lia|].
        apply Z.pow_le_mono_r; lia. }
  rewrite <- (Z.lxor_lor _ _ D), <- (Z.add_nocarry_lxor _ _ D).
  now rewrite Z.shiftl_mul_pow2.
Qed.

Lemma lor_add (a b k : Z) :
  0 <= k -> a mod 2 ^ k = 0 -> 0 <= b < 2 ^ k -> Z.lor a b = a + b.
Proof.
  intros Hk Ha Hb.
  assert (E : a = Z.shiftl (a / 2 ^ k) k).
  { rewrite Z.shiftl_mul_pow2 by lia.
    pose proof (Z.div_mod a (2 ^ k)). lia. }
  rewrite E at 1. rewrite lor_shiftl_add by lia.
  pose proof (Z.div_mod a (2 ^ k)). lia.
Qed.

Lemma land_63 (v : Z) : Z.land v 0x3F = v mod 64.
Proof.
  change 0x3F with (Z.ones 6). now rewrite Z.land_ones.
Qed.

(** ** base64 *)

Lemma encodeStd_length : length base64.encodeStd = 64%nat.
Proof. reflexivity. Qed.

Lemma enc_nth (v : Z) :
  base64.enc v = nth (Z.to_nat (v mod 64)) base64.encodeStd x00.
Proof.
  unfold base64.enc. now rewrite land_63.
Qed.

Lemma enc_In (v : Z) : In (base64.enc v) base64.encodeStd.
Proof.
  rewrite enc_nth. apply nth_In. rewrite encodeStd_length.
  pose proof (Z.mod_pos_bound v 64). lia.
Qed.

Lemma alphabet_forall (p : byte -> bool) :
  forallb p base64.encodeStd = true -> forall v, p (base64.enc v) = true.
Proof.
  intros H v. rewrite forallb_forall in H. apply H, enc_In.
Qed.

Lemma sextet_enc (v : Z) : Verifier.sextet (base64.enc v) = Some (v mod 64).
Proof.
  rewrite enc_nth.
  assert (T : forallb (fun i => match Verifier.sextet (nth i base64.encodeStd x00) with
                                | Some j => j =? Z.of_nat i
                                | None => false
                                end) (seq 0 64) = true) by (vm_compute; reflexivity).
  rewrite forallb_forall in T.
  pose proof (Z.mod_pos_bound v 64 ltac:(lia)) as Hb.
  specialize (T (Z.to_nat (v mod 64))).
  rewrite in_seq in T.
  destruct (Verifier.sextet _) as [j|].
  - f_equal. assert (E : (j =? Z.of_nat (Z.to_nat (v mod 64))) = true) by (apply T; lia).
    apply Z.eqb_eq in E. lia.
  - assert (E : false = true) by (apply T; lia). discriminate.
Qed.

Lemma enc_not_pad (v : Z) : Verifier.is_pad (base64.enc v) = false.
Proof.
  apply negb_true_iff.
  apply (alphabet_forall (fun c => negb (Verifier.is_pad c))).
  vm_compute. reflexivity.
Qed.

Lemma pad_is_pad : Verifier.is_pad base64.StdPadding = true.
Proof. reflexivity. Qed.

Lemma decode_group3 (b0 b1 b2 : byte) :
  let val := Z.lor (Z.lor (Z.shiftl (byte_to_Z b0) 16) (Z.shiftl (byte_to_Z b1) 8))
                   (byte_to_Z b2) in
  let n := (((Z.shiftr val 18 mod 64) * 64 + Z.shiftr val 12 mod 64) * 64
            + Z.shiftr val 6 mod 64) * 64 + val mod 64 in
  byte_of_Z (n / 65536) = b0 /\ byte_of_Z (n / 256) = b1 /\ byte_of_Z n = b2.
Proof.
  intros val n. subst n val.
  pose proof (byte_to_Z_range b0). pose proof (byte_to_Z_range b1).
  pose proof (byte_to_Z_range b2).
  rewrite !Z.shiftl_mul_pow2 by lia.
  rewrite !Z.shiftr_div_pow2 by lia.
  change (2 ^ 16) with 65536. change (2 ^ 8) with 256. change (2 ^ 18) with 262144.
  change (2 ^ 12) with 4096. change (2 ^ 6) with 64.
  rewrite (lor_add (byte_to_Z b0 * 65536) (byte_to_Z b1 * 256) 16)
    by (change (2 ^ 16) with 65536; try lia; Z.div_mod_to_equations; lia).
  rewrite (lor_add _ (byte_to_Z b2) 8)
    by (change (2 ^ 8) with 256; try lia; Z.div_mod_to_equations; lia).
  repeat split; apply byte_of_Z_unique; Z.div_mod_to_equations; lia.
Qed.

Lemma decode_group2 (b0 b1 : byte) :
  let val := Z.lor (Z.shiftl (byte_to_Z b0) 16) (Z.shiftl (byte_to_Z b1) 8) in
  let n := ((Z.shiftr val 18 mod 64) * 64 + Z.shiftr val 12 mod 64) * 64
           + Z.shiftr val 6 mod 64 in
  byte_of_Z (n / 1024) = b0 /\ byte_of_Z (n / 4) = b1.
Proof.
  intros val n. subst n val.
  pose proof (byte_to_Z_range b0). pose proof (byte_to_Z_range b1).
  rewrite !Z.shiftl_mul_pow2 by lia.
  rewrite !Z.shiftr_div_pow2 by lia.
  change (2 ^ 16) with 65536. change (2 ^ 8) with 256. change (2 ^ 18) with 262144.
  change (2 ^ 12) with 4096. change (2 ^ 6) with 64.
  rewrite (lor_add (byte_to_Z b0 * 65536) (byte_to_Z b1 * 256) 16)
    by (change (2 ^ 16) with 65536; try lia; Z.div_mod_to_equations; lia).
  split; apply byte_of_Z_unique; Z.div_mod_to_equations; lia.
Qed.

Lemma decode_group1 (b0 : byte) :
  let val := Z.shiftl (byte_to_Z b0) 16 in
  let n := (Z.shiftr val 18 mod 64) * 64 + Z.shiftr val 12 mod 64 in
  byte_of_Z (n / 16) = b0.
Proof.
  intros val n. subst n val.
  pose proof (byte_to_Z_range b0).
  rewrite !Z.shiftl_mul_pow2 by lia.
  rewrite !Z.shiftr_div_pow2 by lia.
  change (2 ^ 16) with 65536. change (2 ^ 18) with 262144.
  change (2 ^ 12) with 4096.
  apply byte_of_Z_unique; Z.div_mod_to_equations; lia.
Qed.

Lemma base64_decode_step (c0 c1 c2 c3 : byte) (s : bytes) (i0 i1 i2 i3 : Z) :
  Verifier.sextet c0 = Some i0 -> Verifier.sextet c1 = Some i1 ->
  Verifier.sextet c2 = Some i2 -> Verifier.sextet c3 = Some i3 ->
  Verifier.is_pad c2 = false -> Verifier.is_pad c3 = false ->
  Verifier.base64_decode (c0 :: c1 :: c2 :: c3 :: s) =
  match Verifier.base64_decode s with
  | Some out =>
      let n := ((i0 * 64 + i1) * 64 + i2) * 64 + i3 in
      Some (byte_of_Z (n / 65536) :: byte_of_Z (n / 256) :: byte_of_Z n :: out)
  | None => None
  end.
Proof.
  intros E0 E1 E2 E3 P2 P3.
  cbn [Verifier.base64_decode]. rewrite E0, E1, E2, E3, P2, P3.
  reflexivity.
Qed.

(** Decoding undoes [EncodeToString]. *)
Lemma base64_decode_encode (src : bytes) :
  Verifier.base64_decode (base64.EncodeToString src) = Some src.
Proof.
  induction src as [|b0|b0 b1|b0 b1 b2 src IH] using list_ind3.
  - reflexivity.
  - cbn [base64.EncodeToString Verifier.base64_decode].
    rewrite !sextet_enc, pad_is_pad. cbn [andb].
    now rewrite decode_group1.
  - cbn [base64.EncodeToString Verifier.base64_decode].
    rewrite !sextet_enc, pad_is_pad, enc_not_pad. cbn [andb].
    destruct (decode_group2 b0 b1) as [E0 E1].
    cbv zeta in E0, E1. now rewrite E0, E1.
  - cbn [base64.EncodeToString].
    erewrite base64_decode_step; try apply sextet_enc; try apply enc_not_pad.
    rewrite IH.
    destruct (decode_group3 b0 b1 b2) as (E0 & E1 & E2).
    cbv zeta in E0, E1, E2 |- *. now rewrite E0, E1, E2.
Qed.

Lemma base64_EncodeToString_inj (a b : bytes) :
  base64.EncodeToString a = base64.EncodeToString b -> a = b.
Proof.
  intros E. apply (f_equal Verifier.base64_decode) in E.
  rewrite !base64_decode_encode in E. congruence.
Qed.

(** The encoded length: four characters for every three bytes, the last
    group padded. *)
Lemma base64_length (src : bytes) :
  length (base64.EncodeToString src) = (4 * ((length src + 2) / 3))%nat.
Proof.
  induction src as [|b0|b0 b1|b0 b1 b2 src IH] using list_ind3;
    try reflexivity.
  cbn [base64.EncodeToString length]. rewrite IH.
  replace (S (S (S (length src))) + 2)%nat with (1 * 3 + (length src + 2))%nat by lia.
  rewrite Nat.div_add_l by lia. lia.
Qed.

Lemma enc_base64_char (v : Z) : Verifier.base64_char (base64.enc v) = true.
Proof.
  apply (alphabet_forall Verifier.base64_char). vm_compute. reflexivity.
Qed.

Lemma base64_chars (src : bytes) :
  Forall (fun c => Verifier.base64_char c = true) (base64.EncodeToString src).
Proof.
  induction src as [|b0|b0 b1|b0 b1 b2 src IH] using list_ind3;
    cbn [base64.EncodeToString].
  - apply Forall_nil.
  - apply Forall_cons; [apply enc_base64_char|].
    apply Forall_cons; [apply enc_base64_char|].
    apply Forall_cons; [reflexivity|].
    apply Forall_cons; [reflexivity|]. apply Forall_nil.
  - apply Forall_cons; [apply enc_base64_char|].
    apply Forall_cons; [apply enc_base64_char|].
    apply Forall_cons; [apply enc_base64_char|].
    apply Forall_cons; [reflexivity|]. apply Forall_nil.
  - apply Forall_cons; [apply enc_base64_char|].
    apply Forall_cons; [apply enc_base64_char|].
    apply Forall_cons; [apply enc_base64_char|].
    apply Forall_cons; [apply enc_base64_char|]. exact IH.
Qed.

(** ** Decimal numerals *)

Lemma decimal_value_snoc (ds : bytes) (d : byte) :
  Verifier.decimal_value (ds ++ [d]) = 10 * Verifier.decimal_value ds + (byte_to_Z d - 48).
Proof.
  unfold Verifier.decimal_value. now rewrite fold_left_app.
Qed.

Lemma is_digit_of_Z (d : Z) :
  0 <= d < 10 ->
  Verifier.is_digit (byte_of_Z (48 + d)) = true
  /\ byte_to_Z (byte_of_Z (48 + d)) = 48 + d.
Proof.
  intros Hd. unfold Verifier.is_digit.
  rewrite byte_to_of_Z by lia. split; [|reflexivity].
  apply andb_true_iff. split; apply Z.leb_le; lia.
Qed.

(** What the digit loop produces: the numeral of [u], in front of [acc]. *)
Lemma digits_spec (fuel : nat) :
  forall u acc,
    (0 < fuel)%nat ->
    0 <= u < 10 ^ Z.of_nat fuel ->
    exists ds,
      fmt.digits fuel u acc = ds ++ acc
      /\ forallb Verifier.is_digit ds = true
      /\ Verifier.decimal_value ds = u
      /\ (0 < length ds)%nat
      /\ (hd x00 ds = x30 -> u = 0 /\ length ds = 1%nat)
      /\ (0 < u -> 10 ^ (Z.of_nat (length ds) - 1) <= u)
      /\ u < 10 ^ Z.of_nat (length ds).
Proof.
  induction fuel as [|fuel IH]; intros u acc Hf Hu; [lia|].
  cbn [fmt.digits]. destruct (u <? 10) eqn:Hlt.
  - apply Z.ltb_lt in Hlt.
    destruct (is_digit_of_Z u) as [Hd Hv]; [lia|].
    exists [byte_of_Z (48 + u)].
    split; [reflexivity|].
    split; [cbn [forallb]; now rewrite Hd|].
    split; [unfold Verifier.decimal_value; cbn [fold_left]; rewrite Hv; lia|].
    split; [simpl; lia|].
    split.
    { intros H0. cbn [hd] in H0. apply (f_equal byte_to_Z) in H0.
      rewrite Hv in H0. change (byte_to_Z x30) with 48 in H0.
      split; [lia|reflexivity]. }
    cbn [length]. change (Z.of_nat 1 - 1) with 0. change (Z.of_nat 1) with 1.
    rewrite Z.pow_0_r, Z.pow_1_r. lia.
  - apply Z.ltb_ge in Hlt.
    assert (Hq : 0 <= u / 10 < 10 ^ Z.of_nat fuel).
    { rewrite Nat2Z.inj_succ, Z.pow_succ_r in Hu by lia.
      split; [apply Z.div_pos; lia|].
      apply Z.div_lt_upper_bound; lia. }
    assert (Hq1 : 1 <= u / 10) by (apply Z.div_le_lower_bound; lia).
    assert (Hf' : (0 < fuel)%nat).
    { destruct fuel; [|lia]. simpl in Hq. lia. }
    assert (Hr : 0 <= u - u / 10 * 10 < 10).
    { pose proof (Z.div_mod u 10 ltac:(lia)).
      pose proof (Z.mod_pos_bound u 10 ltac:(lia)). lia. }
    destruct (IH (u / 10) (byte_of_Z (48 + (u - u / 10 * 10)) :: acc) Hf' Hq)
      as (ds & E & Hds & Hval & Hlen & Hhd & Hlo & Hhi).
    destruct (is_digit_of_Z (u - u / 10 * 10) Hr) as [Hd Hv].
    exists (ds ++ [byte_of_Z (48 + (u - u / 10 * 10))]).
    split; [rewrite E, <- app_assoc; reflexivity|].
    split; [rewrite forallb_app, Hds; cbn [forallb]; now rewrite Hd|].
    split; [rewrite decimal_value_snoc, Hval, Hv; lia|].
    split; [rewrite length_app; simpl; lia|].
    split.
    { intros H0. destruct ds as [|d ds']; [simpl in Hlen; lia|].
      cbn [hd app] in H0. destruct (Hhd H0). lia. }
    rewrite length_app. cbn [length].
    replace (Z.of_nat (length ds + 1)) with (Z.succ (Z.of_nat (length ds))) by lia.
    replace (Z.succ (Z.of_nat (length ds)) - 1)
      with (Z.succ (Z.of_nat (length ds) - 1)) by lia.
    rewrite !Z.pow_succ_r by lia.
    specialize (Hlo ltac:(lia)). lia.
Qed.

Lemma fuel_enough (u : Z) :
  0 <= u -> 0 <= u < 10 ^ Z.of_nat (S (Z.to_nat (Z.log2 u))).
Proof.
  intros Hu. split; [assumption|].
  pose proof (Z.log2_nonneg u) as Hl.
  rewrite Nat2Z.inj_succ, Z2Nat.id by assumption.
  destruct (Z.eq_dec u 0) as [->|Hnz].
  - simpl. lia.
  - destruct (Z.log2_spec u ltac:(lia)) as [_ Hup].
    apply Z.lt_le_trans with (2 ^ Z.succ (Z.log2 u)); [assumption|].
    apply Z.pow_le_mono_l. lia.
Qed.

(** [%d] on a number that is not negative: its decimal numeral. *)
Lemma FormatInt_spec (z : Z) :
  0 <= z ->
  let ds := fmt.FormatInt z in
  forallb Verifier.is_digit ds = true
  /\ Verifier.parse_decimal ds = Some z
  /\ (0 < length ds)%nat
  /\ (0 < z -> 10 ^ (Z.of_nat (length ds) - 1) <= z)
  /\ z < 10 ^ Z.of_nat (length ds).
Proof.
  intros Hz ds. subst ds. unfold fmt.FormatInt.
  rewrite Z.abs_eq by assumption.
  destruct (z <? 0) eqn:Hneg; [apply Z.ltb_lt in Hneg; lia|].
  destruct (digits_spec _ z [] (Nat.lt_0_succ _) (fuel_enough z Hz))
    as (ds & E & Hds & Hval & Hlen & Hhd & Hlo & Hhi).
  rewrite app_nil_r in E. rewrite E.
  repeat split; try assumption.
  unfold Verifier.parse_decimal.
  destruct ds as [|d ds']; [simpl in Hlen; lia|].
  rewrite Hds. cbn [andb].
  destruct (byte_eqb d x30) eqn:Hd0.
  - apply byte_eqb_eq in Hd0. destruct (Hhd Hd0) as [_ Hl].
    cbn [length] in Hl. assert (length ds' = 0%nat) as -> by lia.
    cbn. now rewrite <- Hval.
  - cbn. now rewrite <- Hval.
Qed.
(** ** Splitting *)

Lemma split_no_sep (sep : byte) (s : bytes) :
  ~ In sep s -> Verifier.split sep s = [s].
Proof.
  induction s as [|b s IH]; intros Hn; [reflexivity|].
  cbn [Verifier.split].
  destruct (byte_eqb b sep) eqn:E.
  - apply byte_eqb_eq in E. subst. exfalso. apply Hn. now left.
  - rewrite IH; [reflexivity|]. intros Hin. apply Hn. now right.
Qed.

Lemma split_app (sep : byte) (a rest : bytes) :
  ~ In sep a ->
  Verifier.split sep (a ++ sep :: rest) = a :: Verifier.split sep rest.
Proof.
  induction a as [|b a IH]; intros Hn.
  - cbn [app Verifier.split]. now rewrite byte_eqb_refl.
  - cbn [app Verifier.split].
    destruct (byte_eqb b sep) eqn:E.
    + apply byte_eqb_eq in E. subst. exfalso. apply Hn. now left.
    + rewrite IH; [reflexivity|]. intros Hin. apply Hn. now right.
Qed.

(** ** The characters of a field *)

Lemma digit_field_char (c : byte) :
  Verifier.is_digit c = true -> Verifier.field_char c = true.
Proof. destruct c; intros H; try reflexivity; discriminate H. Qed.

Lemma base64_field_char (c : byte) :
  Verifier.base64_char c = true -> Verifier.field_char c = true.
Proof. destruct c; intros H; try reflexivity; discriminate H. Qed.

Lemma field_chars_no (s : bytes) (sep : byte) :
  Verifier.field_char sep = false ->
  forallb Verifier.field_char s = true -> ~ In sep s.
Proof.
  intros Hs Hall Hin. rewrite forallb_forall in Hall.
  specialize (Hall _ Hin). congruence.
Qed.

Lemma base64_field_chars (src : bytes) :
  forallb Verifier.field_char (base64.EncodeToString src) = true.
Proof.
  apply forallb_forall. intros c Hc.
  apply base64_field_char.
  pose proof (base64_chars src) as H. rewrite Forall_forall in H. now apply H.
Qed.

Lemma FormatInt_field_chars (z : Z) :
  0 <= z -> forallb Verifier.field_char (fmt.FormatInt z) = true.
Proof.
  intros Hz. destruct (FormatInt_spec z Hz) as (Hd & _).
  apply forallb_forall. intros c Hc. apply digit_field_char.
  rewrite forallb_forall in Hd. now apply Hd.
Qed.

(** ** The output format *)

Lemma Sprintf_verifier (iterations : Z) (a b c : bytes) :
  fmt.Sprintf (lit "SCRAM-SHA-256$%d:%s$%s:%s")
    [fmt.Int iterations; fmt.Str a; fmt.Str b; fmt.Str c]
  = lit "SCRAM-SHA-256$" ++ fmt.FormatInt iterations ++ lit ":" ++ a
    ++ lit "$" ++ b ++ lit ":" ++ c.
Proof.
  unfold fmt.Sprintf.
  cbv - [fmt.FormatInt app]. cbn [app].
  now rewrite app_nil_r.
Qed.

Lemma render_shape (iterations : Z) (salt stored server : bytes) :
  Verifier.render iterations salt stored server
  = lit "SCRAM-SHA-256"
    ++ x24 :: (fmt.FormatInt iterations ++ x3a :: base64.EncodeToString salt)
    ++ x24 :: (base64.EncodeToString stored ++ x3a :: base64.EncodeToString server).
Proof.
  unfold Verifier.render.
  change (lit "SCRAM-SHA-256$") with (lit "SCRAM-SHA-256" ++ [x24]).
  change (lit ":") with [x3a]. change (lit "$") with [x24].
  rewrite <- !app_assoc. reflexivity.
Qed.

Lemma field_pair_split (a b : bytes) :
  forallb Verifier.field_char a = true -> forallb Verifier.field_char b = true ->
  Verifier.split x3a (a ++ x3a :: b) = [a; b]
  /\ ~ In x24 (a ++ x3a :: b).
Proof.
  intros Ha Hb. split.
  - rewrite split_app by (apply field_chars_no; [reflexivity|assumption]).
    rewrite split_no_sep by (apply field_chars_no; [reflexivity|assumption]).
    reflexivity.
  - intros Hin. apply in_app_or in Hin. destruct Hin as [Hin|[Hin|Hin]].
    + revert Hin. apply field_chars_no; [reflexivity|assumption].
    + discriminate Hin.
    + revert Hin. apply field_chars_no; [reflexivity|assumption].
Qed.

(** Reading a rendered verifier gives its four fields back. *)
Lemma parse_render (iterations : Z) (salt stored server : bytes) :
  0 <= iterations ->
  Verifier.parse (Verifier.render iterations salt stored server)
  = Some (iterations, salt, stored, server).
Proof.
  intros Hi. rewrite render_shape. unfold Verifier.parse.
  destruct (field_pair_split (fmt.FormatInt iterations)
              (base64.EncodeToString salt)) as [S1 N1];
    [now apply FormatInt_field_chars | apply base64_field_chars |].
  destruct (field_pair_split (base64.EncodeToString stored)
              (base64.EncodeToString server)) as [S2 N2];
    [apply base64_field_chars | apply base64_field_chars |].
  rewrite split_app.
  2:{ apply field_chars_no; reflexivity. }
  rewrite split_app by exact N1.
  rewrite split_no_sep by exact N2.
  rewrite bytes_eqb_refl, S1, S2.
  destruct (FormatInt_spec iterations Hi) as (_ & Hp & _).
  rewrite Hp, !base64_decode_encode. reflexivity.
Qed.

Lemma render_no_space (iterations : Z) (salt stored server : bytes) :
  0 <= iterations ->
  forallb (fun c => negb (Verifier.is_space c))
          (Verifier.render iterations salt stored server) = true.
Proof.
  intros Hi. unfold Verifier.render.
  assert (W : forall s, forallb Verifier.field_char s = true ->
                        forallb (fun c => negb (Verifier.is_space c)) s = true).
  { intros s Hs. apply forallb_forall. intros c Hc.
    rewrite forallb_forall in Hs. specialize (Hs c Hc).
    unfold Verifier.field_char in Hs. now apply andb_true_iff in Hs. }
  rewrite !forallb_app.
  rewrite (W _ (FormatInt_field_chars _ Hi)), !(W _ (base64_field_chars _)).
  reflexivity.
Qed.

Lemma render_length (iterations : Z) (salt stored server : bytes) :
  length salt = 16%nat -> length stored = 32%nat -> length server = 32%nat ->
  length (base64.EncodeToString salt) = 24%nat
  /\ length (base64.EncodeToString stored) = 44%nat
  /\ length (base64.EncodeToString server) = 44%nat
  /\ length (Verifier.render iterations salt stored server)
     = (129 + length (fmt.FormatInt iterations))%nat.
Proof.
  intros H1 H2 H3. unfold Verifier.render.
  rewrite !length_app, !base64_length, H1, H2, H3.
  repeat split; try reflexivity.
  change (length (lit "SCRAM-SHA-256$")) with 14%nat.
  change (length (lit ":")) with 1%nat. change (length (lit "$")) with 1%nat.
  change (4 * ((16 + 2) / 3))%nat with 24%nat.
  change (4 * ((32 + 2) / 3))%nat with 44%nat. lia.
Qed.
(** ** SHA-256 and HMAC *)

Lemma Sum256_length (data : bytes) : length (SHA256.Sum256 data) = 32%nat.
Proof. reflexivity. Qed.

Lemma skipn_repeat {A} (x : A) (n m : nat) :
  skipn n (repeat x m) = repeat x (m - n).
Proof.
  revert m. induction n as [|n IH]; intros [|m]; simpl; auto.
Qed.

Lemma copy_make (n : nat) (k : bytes) :
  (length k <= n)%nat -> copy (make n) k = k ++ repeat x00 (n - length k).
Proof.
  intros H. unfold copy, make.
  rewrite repeat_length, firstn_all2 by assumption.
  now rewrite skipn_repeat.
Qed.

Lemma copy_same_length (dst src : bytes) :
  length dst = length src -> copy dst src = src.
Proof.
  intros H. unfold copy.
  rewrite H, firstn_all, <- H, skipn_all. apply app_nil_r.
Qed.

Lemma New_keyed (K : bytes) :
  let m := hmac.New sha256_New K in
  hmac_keyed K m /\ hash.written (hmac.inner m) = hmac.ipad m.
Proof.
  unfold hmac.New, hmac_keyed, RFC.K0, RFC.xor_with, RFC.H, RFC.B.
  cbn [hash.BlockSize sha256_New].
  change SHA256.BlockSize with 64%nat.
  destruct (64 <? length K)%nat eqn:E.
  - cbn -[SHA256.Sum256 copy make]. 
    rewrite copy_make by (rewrite Sum256_length; lia).
    repeat split.
  - apply Nat.ltb_ge in E.
    cbn -[SHA256.Sum256 copy make].
    rewrite copy_make by assumption.
    repeat split.
Qed.

Lemma Sum_state_keyed (K : bytes) (m : hmac.t) (text b : bytes) :
  hmac_keyed K m ->
  hash.written (hmac.inner m) = hmac.ipad m ++ text ->
  fst (hmac.Sum_state m b) = b ++ RFC.HMAC_SHA256 K text
  /\ hmac_keyed K (snd (hmac.Sum_state m b)).
Proof.
  intros (Ho & Hi & Do & Di & Sz) Hw.
  unfold hmac.Sum_state, hmac_keyed. cbn -[SHA256.Sum256].
  unfold hash.Sum. cbn -[SHA256.Sum256].
  rewrite Do, Di, Hw, Ho, Hi.
  rewrite skipn_app, skipn_all, Nat.sub_diag, firstn_app, firstn_all, Nat.sub_diag.
  cbn [skipn firstn app]. rewrite app_nil_r.
  repeat split; try assumption.
Qed.

Lemma Reset_Write_keyed (K : bytes) (m : hmac.t) (p : bytes) :
  hmac_keyed K m ->
  hmac_keyed K (hmac.Write (hmac.Reset m) p)
  /\ hash.written (hmac.inner (hmac.Write (hmac.Reset m) p)) = hmac.ipad m ++ p.
Proof.
  intros (Ho & Hi & Do & Di & Sz). unfold hmac_keyed. cbn. auto 10.
Qed.

Lemma Write_keyed (K : bytes) (m : hmac.t) (p : bytes) :
  hmac_keyed K m ->
  hmac_keyed K (hmac.Write m p)
  /\ hash.written (hmac.inner (hmac.Write m p))
     = hash.written (hmac.inner m) ++ p
  /\ hmac.ipad (hmac.Write m p) = hmac.ipad m.
Proof.
  intros (Ho & Hi & Do & Di & Sz). unfold hmac_keyed. cbn. auto 10.
Qed.

(** The HMAC of crypto/hmac over SHA-256 is the HMAC of RFC 2104. *)
Lemma hmac_is_RFC (K text : bytes) :
  hmac.Sum (hmac.Write (hmac.New sha256_New K) text) [] = RFC.HMAC_SHA256 K text.
Proof.
  destruct (New_keyed K) as [Hk Hw]. cbv zeta in Hk, Hw.
  destruct (Write_keyed K _ text Hk) as (Hk' & Hw' & Hi').
  rewrite Hw, <- Hi' in Hw'.
  unfold hmac.Sum.
  destruct (Sum_state_keyed K _ text [] Hk' Hw') as [E _].
  exact E.
Qed.

Lemma HMAC_length (K text : bytes) : length (RFC.HMAC_SHA256 K text) = 32%nat.
Proof. apply Sum256_length. Qed.

(** ** PBKDF2 *)

Lemma xor_into_xor_bytes (t u : bytes) :
  length t = length u -> xor_into t u = RFC.xor_bytes t u.
Proof.
  revert u. induction t as [|a t IH]; intros [|b u] H; try discriminate H.
  - reflexivity.
  - cbn [xor_into]. unfold RFC.xor_bytes. cbn [combine map fst snd].
    f_equal. apply IH. now injection H.
Qed.

Lemma xor_bytes_length (a b : bytes) :
  length a = 32%nat -> length b = 32%nat -> length (RFC.xor_bytes a b) = 32%nat.
Proof.
  intros Ha Hb. unfold RFC.xor_bytes.
  rewrite length_map, length_combine, Ha, Hb. reflexivity.
Qed.

Lemma U_length (P S : bytes) (i : Z) (j : nat) : length (RFC.U P S i j) = 32%nat.
Proof. destruct j; apply HMAC_length. Qed.

Lemma xor_upto_length (P S : bytes) (i : Z) (j : nat) :
  length (RFC.xor_upto P S i j) = 32%nat.
Proof.
  induction j as [|j IH]; cbn [RFC.xor_upto].
  - apply U_length.
  - apply xor_bytes_length; [exact IH | apply U_length].
Qed.

Lemma INT_shift (i : Z) :
  [ byte_of_Z (Z.shiftr i 24); byte_of_Z (Z.shiftr i 16);
    byte_of_Z (Z.shiftr i 8); byte_of_Z i ] = RFC.INT i.
Proof.
  unfold RFC.INT. now rewrite !Z.shiftr_div_pow2 by lia.
Qed.

(** The inner loop of [Key]: after [j] turns, [U] is U_(j+1) and [T] is
    U_1 xor ... xor U_(j+1). *)
Lemma inner_loop_spec (P S : bytes) (i : Z) (d : bytes) (j : nat) (s : pbkdf2.state) :
  hmac_keyed P (pbkdf2.prf s) ->
  pbkdf2.dk s = d ->
  pbkdf2.T s = RFC.xor_upto P S i 0 ->
  pbkdf2.U s = RFC.U P S i 0 ->
  let s' := Nat.iter j pbkdf2.inner_step s in
  hmac_keyed P (pbkdf2.prf s')
  /\ pbkdf2.dk s' = d
  /\ pbkdf2.T s' = RFC.xor_upto P S i j
  /\ pbkdf2.U s' = RFC.U P S i j.
Proof.
  intros Hk Hd HT HU. cbv zeta. induction j as [|j IH].
  - cbn [Nat.iter nat_rect].
    split; [exact Hk|]. split; [exact Hd|]. split; [exact HT|exact HU].
  - rewrite Nat.iter_succ.
    destruct IH as (Hk' & Hd' & HT' & HU').
    set (s1 := Nat.iter j pbkdf2.inner_step s) in *.
    unfold pbkdf2.inner_step.
    destruct (Reset_Write_keyed P (pbkdf2.prf s1) (pbkdf2.U s1) Hk') as [Hk1 Hw1].
    assert (Hw1' : hash.written (hmac.inner (hmac.Write (hmac.Reset (pbkdf2.prf s1)) (pbkdf2.U s1)))
                   = hmac.ipad (hmac.Write (hmac.Reset (pbkdf2.prf s1)) (pbkdf2.U s1)) ++ pbkdf2.U s1)
      by exact Hw1.
    destruct (Sum_state_keyed P _ (pbkdf2.U s1) [] Hk1 Hw1') as [E Hk2].
    destruct (hmac.Sum_state (hmac.Write (hmac.Reset (pbkdf2.prf s1)) (pbkdf2.U s1)) [])
      as [U1 prf2].
    cbn [fst snd app] in E, Hk2. subst U1.
    cbn [pbkdf2.prf pbkdf2.dk pbkdf2.T pbkdf2.U].
    rewrite HU', HT'. cbn [RFC.xor_upto RFC.U].
    split; [exact Hk2|]. split; [exact Hd'|]. split; [|reflexivity].
    apply xor_into_xor_bytes.
    now rewrite xor_upto_length, HMAC_length.
Qed.

(** One block of [Key]: the block T_i = F(P, S, c, i) is appended to the
    key material. *)
Lemma block_step_spec (P S : bytes) (c i : Z) (s : pbkdf2.state) :
  hmac_keyed P (pbkdf2.prf s) ->
  length (pbkdf2.U s) = 32%nat ->
  let s' := pbkdf2.block_step S c 32 s i in
  hmac_keyed P (pbkdf2.prf s')
  /\ length (pbkdf2.U s') = 32%nat
  /\ pbkdf2.dk s' = pbkdf2.dk s ++ pbkdf2.T s
  /\ pbkdf2.T s' = RFC.F P S i c.
Proof.
  intros Hk HU. unfold pbkdf2.block_step. rewrite INT_shift.
  destruct (Reset_Write_keyed P (pbkdf2.prf s) S Hk) as [Hk1 Hw1].
  destruct (Write_keyed P _ (RFC.INT i) Hk1) as (Hk2 & Hw2 & Hi2).
  rewrite Hw1, <- app_assoc in Hw2.
  change (hmac.ipad (pbkdf2.prf s))
    with (hmac.ipad (hmac.Write (hmac.Write (hmac.Reset (pbkdf2.prf s)) S) (RFC.INT i)))
    in Hw2.
  destruct (Sum_state_keyed P _ (S ++ RFC.INT i) (pbkdf2.dk s ++ pbkdf2.T s) Hk2 Hw2)
    as [E Hk3].
  destruct (hmac.Sum_state _ (pbkdf2.dk s ++ pbkdf2.T s)) as [dk1 prf3].
  cbn [fst snd] in E, Hk3. subst dk1.
  rewrite length_app, HMAC_length, Nat.add_sub.
  rewrite skipn_app, skipn_all, Nat.sub_diag, firstn_app, firstn_all, Nat.sub_diag.
  cbn [skipn firstn app]. rewrite app_nil_r.
  rewrite copy_same_length by (now rewrite HU, HMAC_length).
  match goal with
  | |- context [Nat.iter ?n pbkdf2.inner_step ?s0] =>
      destruct (inner_loop_spec P S i (pbkdf2.dk s ++ pbkdf2.T s) n s0)
        as (R1 & R2 & R3 & R4); try reflexivity; try assumption
  end.
  cbv zeta. unfold RFC.F.
  split; [exact R1|]. split; [rewrite R4; apply U_length|].
  split; [exact R2|exact R3].
Qed.

Lemma block_loop_spec (P salt : bytes) (c : Z) (n : nat) :
  forall (k : nat) (s : pbkdf2.state),
    hmac_keyed P (pbkdf2.prf s) ->
    length (pbkdf2.U s) = 32%nat ->
    let s' := pbkdf2.block_loop salt c 32 n (Z.of_nat k) s in
    pbkdf2.dk s' ++ pbkdf2.T s'
    = (pbkdf2.dk s ++ pbkdf2.T s)
      ++ flat_map (fun i => RFC.F P salt (Z.of_nat i) c) (seq k n).
Proof.
  induction n as [|n IH]; intros k s Hk HU.
  - cbn [pbkdf2.block_loop seq flat_map]. now rewrite app_nil_r.
  - cbn [pbkdf2.block_loop seq flat_map].
    destruct (block_step_spec P salt c (Z.of_nat k) s Hk HU) as (Hk' & HU' & Hd & HT).
    replace (Z.of_nat k + 1) with (Z.of_nat (S k)) by lia.
    cbv zeta. rewrite (IH (S k) _ Hk' HU'), Hd, HT.
    now rewrite <- !app_assoc.
Qed.

(** [pbkdf2.Key] over SHA-256 is the PBKDF2 of RFC 8018 with HMAC-SHA-256
    as its pseudorandom function. *)
Lemma Key_is_RFC (P salt : bytes) (c : Z) (dkLen : nat) :
  pbkdf2.Key P salt c dkLen sha256_New = RFC.PBKDF2 P salt c dkLen.
Proof.
  unfold pbkdf2.Key, RFC.PBKDF2.
  destruct (New_keyed P) as [Hk _]. cbv zeta in Hk.
  assert (Hsz : hmac.Size (hmac.New sha256_New P) = 32%nat)
    by (destruct Hk as (_ & _ & _ & _ & Hs); exact Hs).
  rewrite Hsz. change RFC.hLen with 32%nat.
  change 1 with (Z.of_nat 1).
  rewrite (block_loop_spec P salt c _ 1%nat); cbn [pbkdf2.prf pbkdf2.U pbkdf2.dk pbkdf2.T];
    try assumption; try reflexivity.
Qed.

(** ** Runs of [generateSCRAMSHA256] *)

Lemma run_bind {A B} (m : M A) (k : A -> M B) (w w' : World) (a : A) :
  m w = (a, w') -> bind m k w = k a w'.
Proof.
  intros E. unfold bind. now rewrite E.
Qed.

Lemma pbkdf2_Key_run (password salt : bytes) (iter : Z) (keyLen : nat)
    (h : hash.Hash) (w : World) :
  pbkdf2_Key password salt iter keyLen h w
  = (pbkdf2.Key password salt iter keyLen h,
     record_call (Call_pbkdf2_Key password salt iter keyLen) w).
Proof. reflexivity. Qed.

Lemma hmac_New_run (h : hash.Hash) (key : bytes) (w : World) :
  hmac_New h key w = (hmac.New h key, record_call (Call_hmac_New key) w).
Proof. reflexivity. Qed.

Lemma hmac_Write_run (m : hmac.t) (p : bytes) (w : World) :
  hmac_Write m p w = (hmac.Write m p, record_call (Call_hmac_Write p) w).
Proof. reflexivity. Qed.

Lemma hmac_Sum_run (m : hmac.t) (b : bytes) (w : World) :
  hmac_Sum m b w = (hmac.Sum m b, record_call Call_hmac_Sum w).
Proof. reflexivity. Qed.

Lemma sha256_Sum256_run (data : bytes) (w : World) :
  sha256_Sum256 data w
  = (SHA256.Sum256 data, record_call (Call_sha256_Sum256 data) w).
Proof. reflexivity. Qed.

Lemma record_call_drawn (c : Call) (w : World) (calls : list Call) :
  record_call c (drawn w calls) = drawn w (calls ++ [c]).
Proof.
  unfold record_call, drawn.
  cbn [rand_Reader os_Stdin terminal terminal_fault os_Args os_Stdout
       os_Stderr trace].
  now rewrite <- app_assoc.
Qed.

(** A draw from a source that still has [saltLength] bytes. *)
Lemma rand_Read_full (w : World) :
  (saltLength <= length (pending (rand_Reader w)))%nat ->
  rand_Read (make saltLength) w
  = ((next_salt w, saltLength, None), drawn w [Call_rand_Read saltLength]).
Proof.
  intros Hr. unfold rand_Read, log.
  erewrite run_bind by reflexivity.
  unfold make. rewrite repeat_length.
  unfold record_call.
  cbn [rand_Reader os_Stdin terminal terminal_fault os_Args os_Stdout
       os_Stderr trace].
  apply Nat.leb_le in Hr. rewrite Hr. reflexivity.
Qed.

(** A draw from a source that stops before [saltLength] bytes, where
    [rand.Read] returns: it returns an error. *)
Lemma rand_Read_short (w : World) :
  (length (pending (rand_Reader w)) < saltLength)%nat ->
  exists got n err,
    rand_Read (make saltLength) w
    = ((got, n, Some err), drawn w [Call_rand_Read saltLength]).
Proof.
  intros Hr. unfold rand_Read, log.
  erewrite run_bind by reflexivity.
  unfold make. rewrite repeat_length.
  unfold record_call.
  cbn [rand_Reader os_Stdin terminal terminal_fault os_Args os_Stdout
       os_Stderr trace].
  apply Nat.leb_gt in Hr. rewrite Hr. eexists. eexists. eexists. reflexivity.
Qed.

Lemma generate_rejects (password : bytes) (iterations : Z) (w : World) :
  iterations < 1 ->
  generateSCRAMSHA256 password iterations w
  = (([], Some (errorString (lit "iterations must be at least 1"))), w).
Proof.
  intros H. unfold generateSCRAMSHA256.
  apply Z.ltb_lt in H. rewrite H. reflexivity.
Qed.

Lemma generate_succeeds (password : bytes) (iterations : Z) (w : World) :
  1 <= iterations ->
  (saltLength <= length (pending (rand_Reader w)))%nat ->
  generateSCRAMSHA256 password iterations w
  = ((Verifier.render iterations (next_salt w)
        (StoredKey password (next_salt w) iterations)
        (ServerKey password (next_salt w) iterations), None),
     drawn w (derivation_calls password (next_salt w) iterations)).
Proof.
  intros Hi Hr. unfold generateSCRAMSHA256.
  apply Z.ltb_ge in Hi. rewrite Hi.
  rewrite (run_bind _ _ _ _ _ (rand_Read_full w Hr)).
  rewrite (run_bind _ _ _ _ _ (pbkdf2_Key_run _ _ _ _ _ _)).
  rewrite (run_bind _ _ _ _ _ (hmac_New_run _ _ _)).
  rewrite (run_bind _ _ _ _ _ (hmac_Write_run _ _ _)).
  rewrite (run_bind _ _ _ _ _ (hmac_Sum_run _ _ _)).
  rewrite (run_bind _ _ _ _ _ (sha256_Sum256_run _ _)).
  rewrite (run_bind _ _ _ _ _ (hmac_New_run _ _ _)).
  rewrite (run_bind _ _ _ _ _ (hmac_Write_run _ _ _)).
  rewrite (run_bind _ _ _ _ _ (hmac_Sum_run _ _ _)).
  rewrite !record_call_drawn. cbn [app].
  rewrite Sprintf_verifier.
  reflexivity.
Qed.

(** When the read of the random source returns an error, the call ends
    there and returns that error, wrapped. *)
Lemma generate_read_failed (password : bytes) (iterations : Z)
    (w w1 : World) (got : bytes) (n : nat) (err : error) :
  1 <= iterations ->
  rand_Read (make saltLength) w = ((got, n, Some err), w1) ->
  generateSCRAMSHA256 password iterations w
  = (([], Some (wrapError (lit "failed to generate salt: " ++ Error err)
                          err)), w1).
Proof.
  intros Hi E. unfold generateSCRAMSHA256.
  apply Z.ltb_ge in Hi. rewrite Hi.
  rewrite (run_bind _ _ _ _ _ E).
  unfold ret. f_equal. f_equal. f_equal.
  unfold fmt.Errorf, fmt.Sprintf.
  cbv - [Error app]. cbn [app]. now rewrite app_nil_r.
Qed.

Lemma generate_without_salt (password : bytes) (iterations : Z) (w : World) :
  1 <= iterations ->
  (length (pending (rand_Reader w)) < saltLength)%nat ->
  exists got n err,
    rand_Read (make saltLength) w
    = ((got, n, Some err), drawn w [Call_rand_Read saltLength])
    /\ generateSCRAMSHA256 password iterations w
       = (([], Some (wrapError (lit "failed to generate salt: " ++ Error err)
                               err)),
          drawn w [Call_rand_Read saltLength]).
Proof.
  intros Hi Hr.
  destruct (rand_Read_short w Hr) as (got & n & err & E).
  exists got, n, err. split; [exact E|].
  exact (generate_read_failed password iterations w _ got n err Hi E).
Qed.

Lemma next_salt_app (w : World) (salt rest : bytes) :
  length salt = saltLength ->
  pending (rand_Reader w) = salt ++ rest ->
  next_salt w = salt /\ (saltLength <= length (pending (rand_Reader w)))%nat.
Proof.
  intros Hl Hp. unfold next_salt. rewrite Hp, <- Hl. split.
  - rewrite firstn_app, firstn_all, Nat.sub_diag. cbn [firstn]. apply app_nil_r.
  - rewrite length_app. lia.
Qed.

Lemma next_salt_length (w : World) :
  (saltLength <= length (pending (rand_Reader w)))%nat ->
  length (next_salt w) = saltLength.
Proof.
  intros H. unfold next_salt. rewrite length_firstn. lia.
Qed.

Lemma StoredKey_length (password salt : bytes) (iterations : Z) :
  length (StoredKey password salt iterations) = 32%nat.
Proof. apply Sum256_length. Qed.

Lemma ServerKey_length (password salt : bytes) (iterations : Z) :
  length (ServerKey password salt iterations) = 32%nat.
Proof. unfold ServerKey. rewrite hmac_is_RFC. apply HMAC_length. Qed.

(** The three ways a call can go. *)
Lemma generate_cases (password : bytes) (iterations : Z) (w : World) :
  (iterations < 1
   /\ generateSCRAMSHA256 password iterations w
      = (([], Some (errorString (lit "iterations must be at least 1"))), w))
  \/ (1 <= iterations
      /\ (length (pending (rand_Reader w)) < saltLength)%nat
      /\ exists got n err,
           rand_Read (make saltLength) w
           = ((got, n, Some err), drawn w [Call_rand_Read saltLength])
           /\ generateSCRAMSHA256 password iterations w
              = (([], Some (wrapError (lit "failed to generate salt: "
                                       ++ Error err) err)),
                 drawn w [Call_rand_Read saltLength]))
  \/ (1 <= iterations
      /\ (saltLength <= length (pending (rand_Reader w)))%nat
      /\ generateSCRAMSHA256 password iterations w
         = ((Verifier.render iterations (next_salt w)
               (StoredKey password (next_salt w) iterations)
               (ServerKey password (next_salt w) iterations), None),
            drawn w (derivation_calls password (next_salt w) iterations))).
Proof.
  destruct (Z.lt_ge_cases iterations 1) as [Hlt|Hge].
  - left. split; [assumption|]. now apply generate_rejects.
  - destruct (Nat.lt_ge_cases (length (pending (rand_Reader w))) saltLength)
      as [Hs|Hf].
    + right. left. split; [assumption|]. split; [assumption|].
      now apply generate_without_salt.
    + right. right. repeat split; try assumption.
      now apply generate_succeeds.
Qed.

(** What a successful call returned. *)
Lemma generate_success_inv (password : bytes) (iterations : Z)
    (w w' : World) (s : bytes) :
  generateSCRAMSHA256 password iterations w = ((s, None), w') ->
  1 <= iterations
  /\ (saltLength <= length (pending (rand_Reader w)))%nat
  /\ s = Verifier.render iterations (next_salt w)
           (StoredKey password (next_salt w) iterations)
           (ServerKey password (next_salt w) iterations)
  /\ w' = drawn w (derivation_calls password (next_salt w) iterations).
Proof.
  intros E.
  destruct (generate_cases password iterations w)
    as [[_ R]|[(_ & _ & got & n & err & _ & R)|(Hi & Hr & R)]];
    rewrite R in E.
  - discriminate E.
  - discriminate E.
  - injection E as E1 E2. repeat split; try assumption; congruence.
Qed.

(** * The claims *)

(** C1. For a non-empty password that is valid UTF-8, an iteration count of
    at least 1 and a 16-byte salt delivered by the random source, the
    derivation makes exactly these calls, in this order: the read of the
    salt, PBKDF2 over the password and the salt with that count and a key
    length of 32, HMAC keyed with the salted password over "Client Key",
    SHA-256 of the client key, HMAC keyed with the salted password over
    "Server Key".  The values are those of PBKDF2-HMAC-SHA-256 (RFC 8018),
    HMAC-SHA-256 (RFC 2104) and SHA-256, and the stored key and the server
    key are the ones written into the result. *)
Theorem derivation_follows_the_algorithm
    (password salt rest : bytes) (iterations : Z) (w : World) :
  validatePassword password = None ->
  1 <= iterations ->
  length salt = 16%nat ->
  pending (rand_Reader w) = salt ++ rest ->
  let saltedPassword := RFC.PBKDF2 password salt iterations 32 in
  let clientKey := RFC.HMAC_SHA256 saltedPassword (lit "Client Key") in
  let storedKey := SHA256.Sum256 clientKey in
  let serverKey := RFC.HMAC_SHA256 saltedPassword (lit "Server Key") in
  generateSCRAMSHA256 password iterations w
  = ((Verifier.render iterations salt storedKey serverKey, None),
     drawn w [ Call_rand_Read 16;
               Call_pbkdf2_Key password salt iterations 32;
               Call_hmac_New saltedPassword;
               Call_hmac_Write (lit "Client Key");
               Call_hmac_Sum;
               Call_sha256_Sum256 clientKey;
               Call_hmac_New saltedPassword;
               Call_hmac_Write (lit "Server Key");
               Call_hmac_Sum ]).
Proof.
  intros _ Hi Hl Hp.
  destruct (next_salt_app w salt rest Hl Hp) as [Hs Hr].
  rewrite (generate_succeeds password iterations w Hi Hr), Hs.
  unfold derivation_calls, StoredKey, ServerKey, ClientKey, SaltedPassword,
    keyLength, saltLength.
  rewrite !hmac_is_RFC, !Key_is_RFC. reflexivity.
Qed.

Lemma derivation_follows_the_algorithm_witness :
  validatePassword example_password = None
  /\ 1 <= 4096
  /\ length example_salt = 16%nat
  /\ pending (rand_Reader world_two_salts) = example_salt ++ example_salt'
  /\ (let saltedPassword := RFC.PBKDF2 example_password example_salt 4096 32 in
      let clientKey := RFC.HMAC_SHA256 saltedPassword (lit "Client Key") in
      let storedKey := SHA256.Sum256 clientKey in
      let serverKey := RFC.HMAC_SHA256 saltedPassword (lit "Server Key") in
      generateSCRAMSHA256 example_password 4096 world_two_salts
      = ((Verifier.render 4096 example_salt storedKey serverKey, None),
         drawn world_two_salts [ Call_rand_Read 16;
                   Call_pbkdf2_Key example_password example_salt 4096 32;
                   Call_hmac_New saltedPassword;
                   Call_hmac_Write (lit "Client Key");
                   Call_hmac_Sum;
                   Call_sha256_Sum256 clientKey;
                   Call_hmac_New saltedPassword;
                   Call_hmac_Write (lit "Server Key");
                   Call_hmac_Sum ])).
Proof.
  split; [reflexivity|]. split; [lia|]. split; [reflexivity|].
  split; [reflexivity|].
  apply (derivation_follows_the_algorithm example_password example_salt example_salt'
           4096 world_two_salts); [reflexivity | lia | reflexivity | reflexivity].
Defined.

(** C2. The string of a successful derivation is the concatenation of
    [SCRAM-SHA-256$], the iteration count in decimal, [:], the salt in
    padded standard base64, [$], the stored key in padded standard base64,
    [:] and the server key in padded standard base64; the decimal field
    reads back as the iteration count, and no byte of the string is white
    space. *)
Theorem output_is_the_documented_concatenation
    (password : bytes) (iterations : Z) (w w' : World) (s : bytes) :
  generateSCRAMSHA256 password iterations w = ((s, None), w') ->
  s = lit "SCRAM-SHA-256$" ++ fmt.FormatInt iterations ++ lit ":"
      ++ base64.EncodeToString (next_salt w) ++ lit "$"
      ++ base64.EncodeToString (StoredKey password (next_salt w) iterations)
      ++ lit ":"
      ++ base64.EncodeToString (ServerKey password (next_salt w) iterations)
  /\ Verifier.parse_decimal (fmt.FormatInt iterations) = Some iterations
  /\ forallb (fun c => negb (Verifier.is_space c)) s = true.
Proof.
  intros E.
  destruct (generate_success_inv _ _ _ _ _ E) as (Hi & _ & Hs & _).
  assert (H0 : 0 <= iterations) by lia.
  split; [exact Hs|]. split.
  - now destruct (FormatInt_spec iterations H0) as (_ & Hp & _).
  - rewrite Hs. now apply render_no_space.
Qed.

Lemma output_is_the_documented_concatenation_witness :
  example_run = ((fst (fst example_run), None), snd example_run)
  /\ fst (fst example_run)
     = lit "SCRAM-SHA-256$" ++ fmt.FormatInt 2 ++ lit ":"
       ++ base64.EncodeToString (next_salt world_one_salt) ++ lit "$"
       ++ base64.EncodeToString (StoredKey example_password (next_salt world_one_salt) 2)
       ++ lit ":"
       ++ base64.EncodeToString (ServerKey example_password (next_salt world_one_salt) 2)
  /\ Verifier.parse_decimal (fmt.FormatInt 2) = Some 2
  /\ forallb (fun c => negb (Verifier.is_space c)) (fst (fst example_run)) = true.
Proof.
  assert (E : example_run = ((fst (fst example_run), None), snd example_run)) by (vm_compute; reflexivity).
  split; [exact E|].
  exact (output_is_the_documented_concatenation example_password 2 world_one_salt (snd example_run)
           (fst (fst example_run)) E).
Defined.

(** C3. With the salt fixed, the derivation is a function of the password,
    the salt and the iteration count alone: two runs in two worlds whose
    random sources deliver the same 16 bytes next return the same string,
    and that string carries the same stored key and the same server key,
    whatever else differs between the two worlds. *)
Theorem derivation_is_deterministic_given_the_salt
    (password salt rest1 rest2 : bytes) (iterations : Z) (w1 w2 : World) :
  1 <= iterations ->
  length salt = 16%nat ->
  pending (rand_Reader w1) = salt ++ rest1 ->
  pending (rand_Reader w2) = salt ++ rest2 ->
  exists s,
    fst (generateSCRAMSHA256 password iterations w1) = (s, None)
    /\ fst (generateSCRAMSHA256 password iterations w2) = (s, None)
    /\ Verifier.parse s
       = Some (iterations, salt, StoredKey password salt iterations,
               ServerKey password salt iterations).
Proof.
  intros Hi Hl H1 H2.
  destruct (next_salt_app w1 salt rest1 Hl H1) as [S1 R1].
  destruct (next_salt_app w2 salt rest2 Hl H2) as [S2 R2].
  rewrite (generate_succeeds password iterations w1 Hi R1), S1.
  rewrite (generate_succeeds password iterations w2 Hi R2), S2.
  eexists. split; [reflexivity|]. split; [reflexivity|].
  apply parse_render. lia.
Qed.

Lemma derivation_is_deterministic_given_the_salt_witness :
  1 <= 4096
  /\ length example_salt = 16%nat
  /\ pending (rand_Reader world_two_salts) = example_salt ++ example_salt'
  /\ pending (rand_Reader world_other) = example_salt ++ [xff]
  /\ exists s,
       fst (generateSCRAMSHA256 example_password 4096 world_two_salts) = (s, None)
       /\ fst (generateSCRAMSHA256 example_password 4096 world_other) = (s, None)
       /\ Verifier.parse s
          = Some (4096, example_salt, StoredKey example_password example_salt 4096,
                  ServerKey example_password example_salt 4096).
Proof.
  split; [lia|]. split; [reflexivity|]. split; [reflexivity|].
  split; [reflexivity|].
  apply (derivation_is_deterministic_given_the_salt example_password example_salt
           example_salt' [xff] 4096 world_two_salts world_other);
    [lia | reflexivity | reflexivity | reflexivity].
Defined.

(** C4. Splitting the string of a successful derivation on [$] and [:]
    gives back the iteration count that was passed in, a salt field that
    decodes to the 16 bytes drawn, and stored-key and server-key fields
    that decode to 32 bytes each. *)
Theorem output_round_trips
    (password : bytes) (iterations : Z) (w w' : World) (s : bytes) :
  generateSCRAMSHA256 password iterations w = ((s, None), w') ->
  exists salt stored server,
    Verifier.parse s = Some (iterations, salt, stored, server)
    /\ length salt = 16%nat
    /\ length stored = 32%nat
    /\ length server = 32%nat
    /\ salt = next_salt w
    /\ stored = StoredKey password salt iterations
    /\ server = ServerKey password salt iterations.
Proof.
  intros E.
  destruct (generate_success_inv _ _ _ _ _ E) as (Hi & Hr & Hs & _).
  exists (next_salt w), (StoredKey password (next_salt w) iterations),
    (ServerKey password (next_salt w) iterations).
  split; [rewrite Hs; apply parse_render; lia|].
  split; [now apply next_salt_length|].
  split; [apply StoredKey_length|].
  split; [apply ServerKey_length|].
  split; [reflexivity|]. split; reflexivity.
Qed.

Lemma output_round_trips_witness :
  example_run = ((fst (fst example_run), None), snd example_run)
  /\ exists salt stored server,
       Verifier.parse (fst (fst example_run)) = Some (2, salt, stored, server)
       /\ length salt = 16%nat
       /\ length stored = 32%nat
       /\ length server = 32%nat
       /\ salt = next_salt world_one_salt
       /\ stored = StoredKey example_password salt 2
       /\ server = ServerKey example_password salt 2.
Proof.
  assert (E : example_run = ((fst (fst example_run), None), snd example_run)) by (vm_compute; reflexivity).
  split; [exact E|].
  exact (output_round_trips example_password 2 world_one_salt (snd example_run) (fst (fst example_run)) E).
Defined.

(** C6. An iteration count below 1 is refused before anything else
    happens: the call returns the empty string and the error
    [iterations must be at least 1], and the world it returns is the one it
    was given, so no byte was taken from the random source and the trace
    has no new call (no read of a salt, no PBKDF2, HMAC or SHA-256). *)
Theorem low_iteration_count_is_refused_first
    (password : bytes) (iterations : Z) (w : World) :
  iterations < 1 ->
  generateSCRAMSHA256 password iterations w
  = (([], Some (errorString (lit "iterations must be at least 1"))), w)
  /\ rand_Reader (snd (generateSCRAMSHA256 password iterations w))
     = rand_Reader w
  /\ trace (snd (generateSCRAMSHA256 password iterations w)) = trace w.
Proof.
  intros H. rewrite (generate_rejects password iterations w H).
  split; [reflexivity|]. split; reflexivity.
Qed.

Lemma low_iteration_count_is_refused_first_witness :
  0 < 1
  /\ generateSCRAMSHA256 example_password 0 world_one_salt
     = (([], Some (errorString (lit "iterations must be at least 1"))), world_one_salt)
  /\ rand_Reader (snd (generateSCRAMSHA256 example_password 0 world_one_salt)) = rand_Reader world_one_salt
  /\ trace (snd (generateSCRAMSHA256 example_password 0 world_one_salt)) = trace world_one_salt.
Proof.
  split; [lia|].
  apply (low_iteration_count_is_refused_first example_password 0 world_one_salt). lia.
Defined.

(** C7. Whenever a call returns, it returns either an error and
    the empty string, or no error and a valid verifier string, never a part
    of one.  The errors are the refusal of an iteration count below 1,
    which leaves the world as it was, and an error that the one read of
    the random source returned: whatever error that is, it comes back
    wrapped behind [failed to generate salt: ], and the world is the one
    that read left, so that nothing was retried and no other source was
    asked.  Success needs the 16 bytes to have been delivered, and the salt
    of the string is these bytes. *)
Theorem derivation_is_all_or_nothing
    (password : bytes) (iterations : Z) (w w' : World) (s : bytes)
    (result : option error) :
  generateSCRAMSHA256 password iterations w = ((s, result), w') ->
  match result with
  | None =>
      Verifier.valid s = true
      /\ 1 <= iterations
      /\ (saltLength <= length (pending (rand_Reader w)))%nat
      /\ Verifier.parse s
         = Some (iterations, next_salt w,
                 StoredKey password (next_salt w) iterations,
                 ServerKey password (next_salt w) iterations)
  | Some e =>
      s = []
      /\ ((iterations < 1
           /\ e = errorString (lit "iterations must be at least 1")
           /\ w' = w)
          \/ (1 <= iterations
              /\ exists got n err,
                   rand_Read (make saltLength) w = ((got, n, Some err), w')
                   /\ Error e = lit "failed to generate salt: " ++ Error err
                   /\ Unwrap e = Some err
                   /\ trace w' = trace w ++ [Call_rand_Read saltLength]))
  end.
Proof.
  intros E.
  destruct (generate_cases password iterations w)
    as [[Hi R]|[(Hi & Hr & got & n & err & Rd & R)|(Hi & Hr & R)]];
    rewrite R in E; injection E as <- <- <-.
  - split; [reflexivity|]. left. repeat split. assumption.
  - split; [reflexivity|]. right.
    split; [assumption|]. exists got, n, err.
    split; [exact Rd|]. split; [reflexivity|]. split; reflexivity.
  - assert (P : Verifier.parse
                  (Verifier.render iterations (next_salt w)
                     (StoredKey password (next_salt w) iterations)
                     (ServerKey password (next_salt w) iterations))
                = Some (iterations, next_salt w,
                        StoredKey password (next_salt w) iterations,
                        ServerKey password (next_salt w) iterations))
      by (apply parse_render; lia).
    split; [|split; [assumption|split; [assumption|exact P]]].
    unfold Verifier.valid. rewrite P.
    rewrite (next_salt_length w Hr), StoredKey_length, ServerKey_length.
    apply Z.leb_le in Hi. rewrite Hi. reflexivity.
Qed.

Lemma derivation_is_all_or_nothing_witness :
  generateSCRAMSHA256 example_password 2 world_one_salt
  = ((Verifier.render 2 example_salt
        (StoredKey example_password example_salt 2)
        (ServerKey example_password example_salt 2), None),
     drawn world_one_salt
       (derivation_calls example_password example_salt 2))
  /\ Verifier.valid
       (Verifier.render 2 example_salt
          (StoredKey example_password example_salt 2)
          (ServerKey example_password example_salt 2)) = true
  /\ Verifier.parse
       (Verifier.render 2 example_salt
          (StoredKey example_password example_salt 2)
          (ServerKey example_password example_salt 2))
     = Some (2, example_salt,
             StoredKey example_password example_salt 2,
             ServerKey example_password example_salt 2).
Proof.
  assert (G : generateSCRAMSHA256 example_password 2 world_one_salt
              = ((Verifier.render 2 example_salt
                    (StoredKey example_password example_salt 2)
                    (ServerKey example_password example_salt 2), None),
                 drawn world_one_salt
                   (derivation_calls example_password example_salt 2))).
  { apply (generate_succeeds example_password 2 world_one_salt);
      [lia | apply Nat.leb_le; reflexivity]. }
  split; [exact G|].
  destruct (derivation_is_all_or_nothing example_password 2 world_one_salt
              _ _ None G) as (V & _ & _ & P).
  split; [exact V | exact P].
Defined.

(** C9. Every call draws its own salt: two calls in a row take the next 16
    and then the following 16 bytes of the random source, whatever the
    password is, and put them into their strings as the salt.  The two
    strings are equal exactly when the two draws are, so that they differ
    unless the source repeats a 16-byte draw. *)
Theorem each_call_draws_a_fresh_salt
    (password salt1 salt2 rest : bytes) (iterations : Z) (w : World) :
  1 <= iterations ->
  length salt1 = 16%nat ->
  length salt2 = 16%nat ->
  pending (rand_Reader w) = salt1 ++ salt2 ++ rest ->
  exists s1 w1 s2 w2,
    generateSCRAMSHA256 password iterations w = ((s1, None), w1)
    /\ generateSCRAMSHA256 password iterations w1 = ((s2, None), w2)
    /\ pending (rand_Reader w1) = salt2 ++ rest
    /\ pending (rand_Reader w2) = rest
    /\ Verifier.parse s1
       = Some (iterations, salt1, StoredKey password salt1 iterations,
               ServerKey password salt1 iterations)
    /\ Verifier.parse s2
       = Some (iterations, salt2, StoredKey password salt2 iterations,
               ServerKey password salt2 iterations)
    /\ (s1 = s2 <-> salt1 = salt2).
Proof.
  intros Hi H1 H2 Hp.
  destruct (next_salt_app w salt1 (salt2 ++ rest) H1 Hp) as [S1 R1].
  pose proof (generate_succeeds password iterations w Hi R1) as E1.
  rewrite S1 in E1.
  set (w1 := drawn w (derivation_calls password salt1 iterations)) in *.
  assert (Hp1 : pending (rand_Reader w1) = salt2 ++ rest).
  { unfold w1, drawn. cbn [rand_Reader pending]. unfold saltLength.
    rewrite Hp, <- H1.
    rewrite skipn_app, skipn_all, Nat.sub_diag. reflexivity. }
  destruct (next_salt_app w1 salt2 rest H2 Hp1) as [S2 R2].
  pose proof (generate_succeeds password iterations w1 Hi R2) as E2.
  rewrite S2 in E2.
  set (w2 := drawn w1 (derivation_calls password salt2 iterations)) in *.
  assert (P1 := parse_render iterations salt1
                  (StoredKey password salt1 iterations)
                  (ServerKey password salt1 iterations) ltac:(lia)).
  assert (P2 := parse_render iterations salt2
                  (StoredKey password salt2 iterations)
                  (ServerKey password salt2 iterations) ltac:(lia)).
  eexists. exists w1. eexists. exists w2.
  split; [exact E1|]. split; [exact E2|]. split; [exact Hp1|].
  split.
  { unfold w2. unfold drawn at 1. cbn [rand_Reader pending].
    unfold saltLength. rewrite Hp1, <- H2.
    rewrite skipn_app, skipn_all, Nat.sub_diag. reflexivity. }
  split; [exact P1|]. split; [exact P2|].
  split.
  - intros Es. rewrite Es, P2 in P1. congruence.
  - intros Es. now rewrite Es.
Qed.

Lemma each_call_draws_a_fresh_salt_witness :
  1 <= 4096
  /\ length example_salt = 16%nat
  /\ length example_salt' = 16%nat
  /\ pending (rand_Reader world_three_draws) = example_salt ++ example_salt' ++ [xff]
  /\ exists s1 w1 s2 w2,
       generateSCRAMSHA256 example_password 4096 world_three_draws = ((s1, None), w1)
       /\ generateSCRAMSHA256 example_password 4096 w1 = ((s2, None), w2)
       /\ pending (rand_Reader w1) = example_salt' ++ [xff]
       /\ pending (rand_Reader w2) = [xff]
       /\ Verifier.parse s1
          = Some (4096, example_salt, StoredKey example_password example_salt 4096,
                  ServerKey example_password example_salt 4096)
       /\ Verifier.parse s2
          = Some (4096, example_salt', StoredKey example_password example_salt' 4096,
                  ServerKey example_password example_salt' 4096)
       /\ (s1 = s2 <-> example_salt = example_salt').
Proof.
  split; [lia|]. split; [reflexivity|]. split; [reflexivity|].
  split; [reflexivity|].
  apply (each_call_draws_a_fresh_salt example_password example_salt example_salt'
           [xff] 4096 world_three_draws); [lia | reflexivity | reflexivity | reflexivity].
Defined.

(** C10. The string of a successful derivation has a shape fixed by the
    iteration count alone: after [SCRAM-SHA-256$] come the decimal
    numeral of the count, [:], a salt field of 24 base64 characters, [$], a
    stored-key field of 44 and, after [:], a server-key field of 44; no
    base64 field contains [$] or [:]; and the length of the string is 129
    plus the number of decimal digits of the count. *)
Theorem output_has_a_fixed_shape
    (password : bytes) (iterations : Z) (w w' : World) (s : bytes) :
  generateSCRAMSHA256 password iterations w = ((s, None), w') ->
  exists digits salt64 stored64 server64,
    s = lit "SCRAM-SHA-256$" ++ digits ++ lit ":" ++ salt64 ++ lit "$"
        ++ stored64 ++ lit ":" ++ server64
    /\ Verifier.parse_decimal digits = Some iterations
    /\ 10 ^ (Z.of_nat (length digits) - 1) <= iterations
       < 10 ^ Z.of_nat (length digits)
    /\ length salt64 = 24%nat
    /\ length stored64 = 44%nat
    /\ length server64 = 44%nat
    /\ forallb Verifier.base64_char (salt64 ++ stored64 ++ server64) = true
    /\ ~ In x24 (salt64 ++ stored64 ++ server64)
    /\ ~ In x3a (salt64 ++ stored64 ++ server64)
    /\ length s = (129 + length digits)%nat.
Proof.
  intros E.
  destruct (generate_success_inv _ _ _ _ _ E) as (Hi & Hr & Hs & _).
  destruct (FormatInt_spec iterations ltac:(lia)) as (_ & Hp & _ & Hlo & Hhi).
  destruct (render_length iterations (next_salt w)
              (StoredKey password (next_salt w) iterations)
              (ServerKey password (next_salt w) iterations)
              (next_salt_length w Hr) (StoredKey_length _ _ _)
              (ServerKey_length _ _ _)) as (L1 & L2 & L3 & L4).
  exists (fmt.FormatInt iterations), (base64.EncodeToString (next_salt w)),
    (base64.EncodeToString (StoredKey password (next_salt w) iterations)),
    (base64.EncodeToString (ServerKey password (next_salt w) iterations)).
  split; [exact Hs|]. split; [exact Hp|].
  split; [split; [apply Hlo; lia | exact Hhi]|].
  split; [exact L1|]. split; [exact L2|]. split; [exact L3|].
  assert (F : forallb Verifier.field_char
                (base64.EncodeToString (next_salt w)
                 ++ base64.EncodeToString (StoredKey password (next_salt w) iterations)
                 ++ base64.EncodeToString (ServerKey password (next_salt w) iterations))
              = true)
    by (rewrite !forallb_app, !base64_field_chars; reflexivity).
  split.
  { rewrite !forallb_app.
    assert (B : forall src, forallb Verifier.base64_char (base64.EncodeToString src) = true).
    { intros src. apply forallb_forall. intros c Hc.
      pose proof (base64_chars src) as Hb. rewrite Forall_forall in Hb.
      now apply Hb. }
    now rewrite !B. }
  split; [apply field_chars_no; [reflexivity | exact F]|].
  split; [apply field_chars_no; [reflexivity | exact F]|].
  rewrite Hs. exact L4.
Qed.

Lemma output_has_a_fixed_shape_witness :
  example_run = ((fst (fst example_run), None), snd example_run)
  /\ exists digits salt64 stored64 server64,
       fst (fst example_run)
       = lit "SCRAM-SHA-256$" ++ digits ++ lit ":" ++ salt64 ++ lit "$"
         ++ stored64 ++ lit ":" ++ server64
       /\ Verifier.parse_decimal digits = Some 2
       /\ 10 ^ (Z.of_nat (length digits) - 1) <= 2
          < 10 ^ Z.of_nat (length digits)
       /\ length salt64 = 24%nat
       /\ length stored64 = 44%nat
       /\ length server64 = 44%nat
       /\ forallb Verifier.base64_char (salt64 ++ stored64 ++ server64) = true
       /\ ~ In x24 (salt64 ++ stored64 ++ server64)
       /\ ~ In x3a (salt64 ++ stored64 ++ server64)
       /\ length (fst (fst example_run)) = (129 + length digits)%nat.
Proof.
  assert (E : example_run = ((fst (fst example_run), None), snd example_run)) by (vm_compute; reflexivity).
  split; [exact E|].
  exact (output_has_a_fixed_shape example_password 2 world_one_salt (snd example_run) (fst (fst example_run)) E).
Defined.

(** ** Reading the password from standard input *)

Lemma split_after_found (d : byte) (line rest : bytes) :
  ~ In d line ->
  split_after d (line ++ d :: rest) = Some (line ++ [d], rest).
Proof.
  induction line as [|b line IH]; intros Hn.
  - cbn [app split_after]. now rewrite byte_eqb_refl.
  - cbn [app split_after].
    destruct (byte_eqb b d) eqn:E.
    + apply byte_eqb_eq in E. subst. exfalso. apply Hn. now left.
    + rewrite IH; [reflexivity|]. intros Hin. apply Hn. now right.
Qed.

Lemma split_after_none (d : byte) (s : bytes) :
  ~ In d s -> split_after d s = None.
Proof.
  induction s as [|b s IH]; intros Hn; [reflexivity|].
  cbn [split_after].
  destruct (byte_eqb b d) eqn:E.
  - apply byte_eqb_eq in E. subst. exfalso. apply Hn. now left.
  - rewrite IH; [reflexivity|]. intros Hin. apply Hn. now right.
Qed.

Lemma drop_while_spec (p : byte -> bool) (s : bytes) :
  exists dropped,
    s = dropped ++ strings.drop_while p s
    /\ forallb p dropped = true
    /\ (forall b kept, strings.drop_while p s = b :: kept -> p b = false).
Proof.
  induction s as [|b s (dropped & E & Hd & Hk)].
  - exists []. repeat split. intros b kept H. discriminate H.
  - cbn [strings.drop_while]. destruct (p b) eqn:Hp.
    + exists (b :: dropped). split; [cbn [app]; now rewrite <- E|].
      split; [cbn [forallb]; now rewrite Hp, Hd|exact Hk].
    + exists []. split; [reflexivity|]. split; [reflexivity|].
      intros b' kept H. injection H as -> _. exact Hp.
Qed.

(** [TrimRight] cuts a tail made of bytes of the cutset, and cuts all of
    it. *)
Lemma TrimRight_spec (s cutset : bytes) :
  exists tail,
    s = strings.TrimRight s cutset ++ tail
    /\ forallb (strings.contains cutset) tail = true
    /\ (forall kept c, strings.TrimRight s cutset = kept ++ [c] ->
                       strings.contains cutset c = false).
Proof.
  unfold strings.TrimRight.
  destruct (drop_while_spec (strings.contains cutset) (rev s))
    as (dropped & E & Hd & Hk).
  exists (rev dropped). split; [|split].
  - rewrite <- rev_app_distr, <- E. now rewrite rev_involutive.
  - apply forallb_forall. intros c Hc. rewrite <- in_rev in Hc.
    rewrite forallb_forall in Hd. now apply Hd.
  - intros kept c H. apply (f_equal (@rev byte)) in H.
    rewrite rev_involutive, rev_app_distr in H. cbn [rev app] in H.
    now apply (Hk c (rev kept)).
Qed.

Lemma TrimRight_line_feed (line : bytes) :
  strings.TrimRight (line ++ LF) (CR ++ LF)
  = strings.TrimRight line (CR ++ LF).
Proof.
  unfold strings.TrimRight, LF. rewrite rev_app_distr. reflexivity.
Qed.

Lemma in_CR_LF (c : byte) :
  strings.contains (CR ++ LF) c = true <-> c = x0d \/ c = x0a.
Proof.
  unfold strings.contains, CR, LF. cbn [app existsb].
  rewrite orb_false_r, orb_true_iff, !byte_eqb_eq. reflexivity.
Qed.

(** The line without its terminator, trimmed: the password with nothing
    but carriage returns cut from its end. *)
Lemma trimmed_line (line : bytes) :
  ~ In x0a line ->
  exists tail,
    line = strings.TrimRight line (CR ++ LF) ++ tail
    /\ Forall (fun c => c = x0d) tail
    /\ (forall kept c, strings.TrimRight line (CR ++ LF) = kept ++ [c] ->
                       c <> x0d /\ c <> x0a).
Proof.
  intros Hn.
  destruct (TrimRight_spec line (CR ++ LF)) as (tail & E & Ht & Hk).
  exists tail. split; [exact E|]. split.
  - apply Forall_forall. intros c Hc.
    rewrite forallb_forall in Ht. specialize (Ht c Hc).
    apply in_CR_LF in Ht. destruct Ht as [Hc'|Hc']; [exact Hc'|].
    exfalso. apply Hn. rewrite E. apply in_or_app. right. now subst.
  - intros kept c H. specialize (Hk kept c H).
    split; intros ->; now rewrite (proj2 (in_CR_LF _)) in Hk; auto.
Qed.

(** C8. The password read from standard input is the first line of the
    input, up to its line feed or up to the end of the input when there is
    none (the end of the input is then no error), with every carriage
    return and line feed at its end removed and nothing else: all bytes in
    front of them, white space included, are kept as they are. *)
Theorem stdin_password_is_the_trimmed_line (w : World) (line rest : bytes) :
  ~ In x0a line ->
  pending (os_Stdin w) = line ++ x0a :: rest
  \/ (pending (os_Stdin w) = line /\ fault (os_Stdin w) = io_EOF) ->
  exists password tail w',
    readPasswordFromStdin w = ((password, None), w')
    /\ line = password ++ tail
    /\ Forall (fun c => c = x0d) tail
    /\ (forall kept c, password = kept ++ [c] -> c <> x0d /\ c <> x0a).
Proof.
  intros Hn Hin.
  destruct (trimmed_line line Hn) as (tail & E & Ht & Hk).
  exists (strings.TrimRight line (CR ++ LF)), tail.
  unfold readPasswordFromStdin.
  destruct Hin as [Hp|[Hp Hf]].
  - eexists.
    erewrite run_bind.
    2:{ unfold bufio_ReadString. rewrite Hp, split_after_found by exact Hn.
        reflexivity. }
    cbv beta iota.
    change (line ++ [x0a]) with (line ++ LF).
    rewrite TrimRight_line_feed.
    split; [reflexivity|]. split; [exact E|]. split; [exact Ht|exact Hk].
  - eexists.
    erewrite run_bind.
    2:{ unfold bufio_ReadString. rewrite Hp, split_after_none by exact Hn.
        rewrite Hf. reflexivity. }
    cbv beta iota. cbn [is_EOF negb].
    split; [reflexivity|]. split; [exact E|]. split; [exact Ht|exact Hk].
Qed.

Lemma stdin_password_is_the_trimmed_line_witness :
  ~ In x0a example_line
  /\ (pending (os_Stdin world_with_line) = example_line ++ x0a :: lit "second line"
      \/ (pending (os_Stdin world_with_line) = example_line /\ fault (os_Stdin world_with_line) = io_EOF))
  /\ exists password tail w',
       readPasswordFromStdin world_with_line = ((password, None), w')
       /\ example_line = password ++ tail
       /\ Forall (fun c => c = x0d) tail
       /\ (forall kept c, password = kept ++ [c] -> c <> x0d /\ c <> x0a).
Proof.
  assert (Hn : ~ In x0a example_line).
  { intros H. vm_compute in H.
    repeat (destruct H as [H|H]; [discriminate H|]). exact H. }
  split; [exact Hn|]. split; [left; reflexivity|].
  apply (stdin_password_is_the_trimmed_line world_with_line example_line (lit "second line") Hn).
  left. reflexivity.
Defined.

(** ** Validation *)

Lemma validatePassword_empty :
  validatePassword [] = Some (errorString (lit "password cannot be empty")).
Proof. reflexivity. Qed.

Lemma validatePassword_bad_encoding (password : bytes) :
  password <> [] ->
  utf8.ValidString password = false ->
  validatePassword password
  = Some (errorString (lit "password must be valid UTF-8")).
Proof.
  intros Hne Hv. unfold validatePassword.
  destruct password as [|b password]; [contradiction|].
  cbn [length Nat.eqb]. rewrite Hv. reflexivity.
Qed.

Lemma fmt_Fprintf_stderr (format : bytes) (args : list fmt.arg) (w : World) :
  let w' := snd (fmt_Fprintf Stderr format args w) in
  os_Stderr w' = os_Stderr w ++ fmt.Sprintf format args
  /\ os_Stdout w' = os_Stdout w
  /\ rand_Reader w' = rand_Reader w
  /\ trace w' = trace w.
Proof. repeat split. Qed.

Lemma fmt_Fprintf_stdout (format : bytes) (args : list fmt.arg) (w : World) :
  let w' := snd (fmt_Fprintf Stdout format args w) in
  rand_Reader w' = rand_Reader w /\ trace w' = trace w.
Proof. repeat split. Qed.

(** Reading the password, from standard input or from the terminal, draws
    nothing from the random source and makes no call to the cryptographic
    libraries. *)
Lemma readPasswordFromStdin_quiet (w : World) :
  rand_Reader (snd (readPasswordFromStdin w)) = rand_Reader w
  /\ trace (snd (readPasswordFromStdin w)) = trace w.
Proof.
  unfold readPasswordFromStdin, bind, bufio_ReadString.
  destruct (split_after x0a (pending (os_Stdin w))) as [[line rest]|].
  - split; reflexivity.
  - destruct (negb (is_EOF (fault (os_Stdin w)))); split; reflexivity.
Qed.

Lemma promptPassword_quiet (w : World) :
  rand_Reader (snd (promptPassword w)) = rand_Reader w
  /\ trace (snd (promptPassword w)) = trace w.
Proof.
  unfold promptPassword, bind, fmt_Print, fmt_Println, fmt_Fprintf,
    term_ReadPassword.
  cbn [terminal_fault terminal rand_Reader trace os_Stdin os_Args os_Stdout
       os_Stderr].
  destruct (terminal_fault w) as [e|].
  - split; reflexivity.
  - destruct (readPasswordLine (pending (terminal w)) []) as [[got rest] ended].
    destruct ended; [split; reflexivity|].
    destruct (is_EOF (fault (terminal w)) && negb (length got =? 0)%nat);
      split; reflexivity.
Qed.

Lemma Sprintf_invalid_password (err : error) :
  fmt.Sprintf (lit "Invalid password: %v" ++ LF) [fmt.Err err]
  = lit "Invalid password: " ++ Error err ++ LF.
Proof.
  unfold fmt.Sprintf. cbv - [Error app]. cbn [app]. reflexivity.
Qed.

(** C5, as the code has it.  [validatePassword] refuses the empty password
    with the error [password cannot be empty] and a password that is not
    valid UTF-8 with [password must be valid UTF-8].  [main] calls it on
    the password it has read, before the derivation: on such a password it
    prints [Invalid password:] and the error to standard error and exits
    with status 1, and up to there nothing was printed by the derivation,
    no byte was taken from the random source and no cryptographic call was
    made.  ([generateSCRAMSHA256] itself does not look at the password.) *)
Theorem password_is_validated_before_the_derivation
    (config : Config) (password : bytes) (w w1 : World) :
  ShowHelp config = false ->
  (if UseStdin config then readPasswordFromStdin else promptPassword) w
  = ((password, None), w1) ->
  password = [] \/ utf8.ValidString password = false ->
  exists err w2,
    validatePassword password = Some err
    /\ err = errorString (match password with
                          | [] => lit "password cannot be empty"
                          | _ :: _ => lit "password must be valid UTF-8"
                          end)
    /\ main config w = (1, w2)
    /\ os_Stderr w2 = os_Stderr w1 ++ lit "Invalid password: " ++ Error err ++ LF
    /\ os_Stdout w2 = os_Stdout w1
    /\ rand_Reader w2 = rand_Reader w
    /\ trace w2 = trace w.
Proof.
  intros Hh Hread Hbad.
  assert (Hv : validatePassword password
               = Some (errorString (match password with
                                    | [] => lit "password cannot be empty"
                                    | _ :: _ => lit "password must be valid UTF-8"
                                    end))).
  { destruct password as [|b password]; [apply validatePassword_empty|].
    destruct Hbad as [Hbad|Hbad]; [discriminate Hbad|].
    now apply validatePassword_bad_encoding. }
  set (err := errorString _) in *.
  assert (Hq : rand_Reader w1 = rand_Reader w /\ trace w1 = trace w).
  { destruct (UseStdin config).
    - pose proof (readPasswordFromStdin_quiet w) as Q. now rewrite Hread in Q.
    - pose proof (promptPassword_quiet w) as Q. now rewrite Hread in Q. }
  destruct Hq as [Hq1 Hq2].
  exists err,
    (snd (fmt_Fprintf Stderr (lit "Invalid password: %v" ++ LF) [fmt.Err err] w1)).
  destruct (fmt_Fprintf_stderr (lit "Invalid password: %v" ++ LF) [fmt.Err err] w1)
    as (F1 & F2 & F3 & F4).
  cbv zeta in F1, F2, F3, F4.
  split; [exact Hv|]. split; [reflexivity|]. split.
  - unfold main. rewrite Hh.
    destruct (UseStdin config).
    + erewrite run_bind; [| erewrite run_bind by exact Hread; reflexivity].
      cbv beta iota. rewrite Hv. reflexivity.
    + erewrite run_bind; [| erewrite run_bind by exact Hread; reflexivity].
      cbv beta iota. rewrite Hv. reflexivity.
  - split; [rewrite F1, Sprintf_invalid_password; reflexivity|].
    split; [exact F2|]. split; [now rewrite F3|now rewrite F4].
Qed.

Lemma password_is_validated_before_the_derivation_witness :
  ShowHelp (mkConfig true false 4096) = false
  /\ readPasswordFromStdin world_bad_utf8
     = (([xff], None), snd (readPasswordFromStdin world_bad_utf8))
  /\ ([xff] = [] \/ utf8.ValidString [xff] = false)
  /\ exists err w2,
       validatePassword [xff] = Some err
       /\ err = errorString (lit "password must be valid UTF-8")
       /\ main (mkConfig true false 4096) world_bad_utf8 = (1, w2)
       /\ os_Stderr w2
          = os_Stderr (snd (readPasswordFromStdin world_bad_utf8))
            ++ lit "Invalid password: " ++ Error err ++ LF
       /\ os_Stdout w2 = os_Stdout (snd (readPasswordFromStdin world_bad_utf8))
       /\ rand_Reader w2 = rand_Reader world_bad_utf8
       /\ trace w2 = trace world_bad_utf8.
Proof.
  split; [reflexivity|]. split; [reflexivity|].
  split; [right; reflexivity|].
  apply (password_is_validated_before_the_derivation
           (mkConfig true false 4096) [xff] world_bad_utf8
           (snd (readPasswordFromStdin world_bad_utf8)));
    [reflexivity | reflexivity | right; reflexivity].
Defined.

(** C5, as the claim has it, fails: called with the empty password, and
    with a password that is not valid UTF-8, the derivation returns a
    verifier string and no error. *)
Lemma derivation_accepts_unvalidated_passwords :
  validatePassword [] <> None
  /\ fst (generateSCRAMSHA256 [] 1 world_one_salt)
     = (lit "SCRAM-SHA-256$1:AAECAwQFBgcICQoLDA0ODw==$rZDKo+jTVD9O1+1/EmOpBiAGsKYJB6y5pC24a/BpMuc=:mA/7Y8larT4zHhhigjfNEcxF/TFqq+1bvDbSJ/K2Kt4=",
        None)
  /\ validatePassword [xff] <> None
  /\ fst (generateSCRAMSHA256 [xff] 1 world_one_salt)
     = (lit "SCRAM-SHA-256$1:AAECAwQFBgcICQoLDA0ODw==$JJKOeBHCucgbq4UUoHKrvGlrUxZmed4ADy35ju8EoDA=:iu7T7NrxC9FVqsZh4IW+hbU6mnZFZSVC6iM+1n37iQ8=",
        None).
Proof.
  split; [discriminate|]. split; [vm_compute; reflexivity|].
  split; [discriminate|]. vm_compute; reflexivity.
Qed.

(** * Further properties of the program *)

(** ** Formatting *)

Lemma doPrintf_plain (text rest : bytes) (args : list fmt.arg) :
  ~ In x25 text ->
  fmt.doPrintf (text ++ rest) args = text ++ fmt.doPrintf rest args.
Proof.
  induction text as [|c text IH]; intros Hn; [reflexivity|].
  cbn [app fmt.doPrintf].
  destruct (byte_eqb c x25) eqn:E.
  - apply byte_eqb_eq in E. subst. exfalso. apply Hn. now left.
  - rewrite IH; [reflexivity|]. intros Hin. apply Hn. now right.
Qed.

Lemma Sprintf_error_line (text : bytes) (err : error) :
  ~ In x25 text ->
  fmt.Sprintf (text ++ lit "%v" ++ LF) [fmt.Err err] = text ++ Error err ++ LF.
Proof.
  intros Hn. unfold fmt.Sprintf. rewrite doPrintf_plain by exact Hn.
  apply (f_equal (app text)). reflexivity.
Qed.

Lemma Sprintf_string (s tail : bytes) :
  ~ In x25 tail ->
  fmt.Sprintf (lit "%s" ++ tail) [fmt.Str s] = s ++ tail.
Proof.
  intros Hn. unfold fmt.Sprintf.
  change (lit "%s" ++ tail) with (x25 :: x73 :: tail).
  cbn [fmt.doPrintf]. change (byte_eqb x25 x25) with true.
  change (byte_eqb x73 x25) with false. cbv iota.
  change (fmt.printArg x73 (fmt.Str s)) with s.
  f_equal. rewrite <- (app_nil_r tail) at 1.
  rewrite doPrintf_plain by exact Hn. cbn [fmt.doPrintf]. apply app_nil_r.
Qed.

Lemma fmt_Fprintf_printed (f : File) (format : bytes) (args : list fmt.arg)
    (w : World) :
  fmt_Fprintf f format args w = (tt, printed f (fmt.Sprintf format args) w).
Proof. destruct f; reflexivity. Qed.

Lemma fmt_Println_printed (s : bytes) (w : World) :
  fmt_Println s w = (tt, printed Stdout (s ++ LF) w).
Proof.
  unfold fmt_Println. rewrite fmt_Fprintf_printed.
  rewrite Sprintf_string; [reflexivity|].
  intros [H|[]]. discriminate H.
Qed.

Lemma fmt_Print_printed (s : bytes) (w : World) :
  fmt_Print s w = (tt, printed Stdout s w).
Proof.
  unfold fmt_Print. rewrite fmt_Fprintf_printed.
  change (lit "%s") with (lit "%s" ++ []).
  rewrite Sprintf_string; [now rewrite app_nil_r|]. intros [].
Qed.

Lemma fmt_Printf_printed (format : bytes) (args : list fmt.arg) (w : World) :
  fmt_Printf format args w = (tt, printed Stdout (fmt.Sprintf format args) w).
Proof. apply fmt_Fprintf_printed. Qed.

Ltac no_percent :=
  let H := fresh in
  intros H; vm_compute in H;
  repeat (destruct H as [H|H]; [discriminate H|]); exact H.

(** ** The paths of [main] *)

Lemma main_help (config : Config) (w : World) :
  ShowHelp config = true -> main config w = (0, snd (showHelp w)).
Proof.
  intros H. unfold main. rewrite H. unfold bind, ret.
  now destruct (showHelp w).
Qed.

Ltac error_line prefix :=
  match goal with
  | |- context [fmt.Sprintf ?format [fmt.Err ?e]] =>
      replace (fmt.Sprintf format [fmt.Err e]) with (prefix ++ Error e ++ LF)
        by (symmetry; apply (Sprintf_error_line prefix); no_percent)
  end.

Lemma main_read_failed (config : Config) (w w1 : World) (password : bytes)
    (err : error) :
  ShowHelp config = false ->
  password_reader config w = ((password, Some err), w1) ->
  main config w
  = (1, printed Stderr (read_error_prefix config ++ Error err ++ LF) w1).
Proof.
  intros Hh Hread. unfold main. rewrite Hh.
  unfold password_reader, read_error_prefix in *.
  destruct (UseStdin config).
  - erewrite run_bind.
    2:{ erewrite run_bind by exact Hread. cbv beta iota.
        erewrite run_bind by apply fmt_Fprintf_printed. reflexivity. }
    cbv beta iota.
    error_line (lit "Error reading password from stdin: "). reflexivity.
  - erewrite run_bind.
    2:{ erewrite run_bind by exact Hread. cbv beta iota.
        erewrite run_bind by apply fmt_Fprintf_printed. reflexivity. }
    cbv beta iota.
    error_line (lit "Error reading password: "). reflexivity.
Qed.

Lemma main_after_read (config : Config) (w w1 : World) (password : bytes) :
  ShowHelp config = false ->
  password_reader config w = ((password, None), w1) ->
  main config w
  = match validatePassword password with
    | Some err =>
        (1, printed Stderr (lit "Invalid password: " ++ Error err ++ LF) w1)
    | None =>
        match generateSCRAMSHA256 password (Iterations config) w1 with
        | ((hash, Some err), w2) =>
            (1, printed Stderr (lit "Error generating SCRAM-SHA-256: "
                                ++ Error err ++ LF) w2)
        | ((hash, None), w2) => (0, printed Stdout (hash ++ LF) w2)
        end
    end.
Proof.
  intros Hh Hread. unfold main. rewrite Hh.
  assert (A : (if UseStdin config
               then
                 '(password, err) <- readPasswordFromStdin ;;
                 match err with
                 | Some err =>
                     fmt_Fprintf Stderr
                       (lit "Error reading password from stdin: %v" ++ LF)
                       [fmt.Err err] ;; ret (inl 1)
                 | None => ret (inr password)
                 end
               else
                 '(password, err) <- promptPassword ;;
                 match err with
                 | Some err =>
                     fmt_Fprintf Stderr (lit "Error reading password: %v" ++ LF)
                       [fmt.Err err] ;; ret (inl 1)
                 | None => ret (inr password)
                 end) w = (inr password, w1)).
  { unfold password_reader in Hread. destruct (UseStdin config);
      erewrite run_bind by exact Hread; reflexivity. }
  rewrite (run_bind _ _ _ _ _ A). cbv beta iota.
  destruct (validatePassword password) as [err|].
  - erewrite run_bind by apply fmt_Fprintf_printed.
    error_line (lit "Invalid password: "). reflexivity.
  - destruct (generateSCRAMSHA256 password (Iterations config) w1)
      as [[hash [err|]] w2] eqn:G.
    + rewrite (run_bind _ _ _ _ _ G). cbv beta iota.
      erewrite run_bind by apply fmt_Fprintf_printed.
      error_line (lit "Error generating SCRAM-SHA-256: "). reflexivity.
    + rewrite (run_bind _ _ _ _ _ G). cbv beta iota.
      erewrite run_bind by apply fmt_Println_printed. reflexivity.
Qed.

(** ** What the readers and the derivation leave alone *)

Lemma readPasswordFromStdin_frame (w : World) :
  let w' := snd (readPasswordFromStdin w) in
  rand_Reader w' = rand_Reader w /\ terminal w' = terminal w
  /\ terminal_fault w' = terminal_fault w /\ os_Args w' = os_Args w
  /\ os_Stdout w' = os_Stdout w /\ os_Stderr w' = os_Stderr w
  /\ trace w' = trace w.
Proof.
  unfold readPasswordFromStdin, bind, bufio_ReadString.
  destruct (split_after x0a (pending (os_Stdin w))) as [[line rest]|].
  - cbv zeta. repeat split.
  - destruct (negb (is_EOF (fault (os_Stdin w)))); cbv zeta; repeat split.
Qed.

Lemma term_ReadPassword_frame (w : World) :
  let w' := snd (term_ReadPassword w) in
  rand_Reader w' = rand_Reader w /\ os_Stdin w' = os_Stdin w
  /\ os_Args w' = os_Args w /\ os_Stdout w' = os_Stdout w
  /\ os_Stderr w' = os_Stderr w /\ trace w' = trace w.
Proof.
  unfold term_ReadPassword.
  destruct (terminal_fault w) as [e|]; [cbv zeta; repeat split|].
  destruct (readPasswordLine (pending (terminal w)) []) as [[got rest] ended].
  destruct ended; [cbv zeta; repeat split|].
  destruct (is_EOF (fault (terminal w)) && negb (length got =? 0)%nat);
    cbv zeta; repeat split.
Qed.

(** [promptPassword] writes the prompt, and a line feed once a password
    was read; an error of the terminal comes back wrapped. *)
Lemma promptPassword_run (w : World) :
  let t := term_ReadPassword (printed Stdout (lit "Password: ") w) in
  promptPassword w
  = match snd (fst t) with
    | Some err =>
        (([], Some (wrapError (lit "failed to read password: " ++ Error err)
                              err)), snd t)
    | None => ((fst (fst t), None), printed Stdout LF (snd t))
    end.
Proof.
  cbv zeta. unfold promptPassword.
  rewrite (run_bind _ _ _ _ _ (fmt_Print_printed _ w)).
  destruct (term_ReadPassword (printed Stdout (lit "Password: ") w))
    as [[got [err|]] w1] eqn:T.
  - rewrite (run_bind _ _ _ _ _ T). cbv beta iota. cbn [fst snd]. unfold ret.
    f_equal. f_equal. f_equal.
    unfold fmt.Errorf, fmt.Sprintf.
    cbv - [Error app]. cbn [app]. now rewrite app_nil_r.
  - rewrite (run_bind _ _ _ _ _ T). cbv beta iota. cbn [fst snd].
    rewrite (run_bind _ _ _ _ _ (fmt_Println_printed _ w1)). reflexivity.
Qed.

Lemma generate_frame (password : bytes) (iterations : Z) (w : World) :
  let w' := snd (generateSCRAMSHA256 password iterations w) in
  os_Stdin w' = os_Stdin w /\ terminal w' = terminal w
  /\ terminal_fault w' = terminal_fault w /\ os_Args w' = os_Args w
  /\ os_Stdout w' = os_Stdout w /\ os_Stderr w' = os_Stderr w
  /\ fault (rand_Reader w') = fault (rand_Reader w)
  /\ pending (rand_Reader w')
     = (if iterations <? 1 then pending (rand_Reader w)
        else skipn saltLength (pending (rand_Reader w))).
Proof.
  destruct (generate_cases password iterations w)
    as [[Hi R]|[(Hi & Hr & got & n & err & _ & R)|(Hi & Hr & R)]];
    rewrite R; cbv zeta; cbn [snd].
  - apply Z.ltb_lt in Hi. rewrite Hi. repeat split.
  - apply Z.ltb_ge in Hi. rewrite Hi. repeat split.
  - apply Z.ltb_ge in Hi. rewrite Hi. repeat split.
Qed.

Lemma password_reader_frame (config : Config) (w : World) :
  let r := password_reader config w in
  rand_Reader (snd r) = rand_Reader w
  /\ trace (snd r) = trace w
  /\ os_Stderr (snd r) = os_Stderr w
  /\ os_Stdout (snd r)
     = os_Stdout w
       ++ (if UseStdin config then []
           else match snd (fst r) with
                | None => lit "Password: " ++ LF
                | Some _ => lit "Password: "
                end).
Proof.
  unfold password_reader. destruct (UseStdin config); cbv zeta.
  - destruct (readPasswordFromStdin_frame w) as (F1 & _ & _ & _ & F5 & F6 & F7).
    cbv zeta in *. rewrite app_nil_r. auto.
  - rewrite promptPassword_run. cbv zeta.
    destruct (term_ReadPassword_frame (printed Stdout (lit "Password: ") w))
      as (F1 & _ & _ & F4 & F5 & F6).
    cbv zeta in *.
    destruct (term_ReadPassword (printed Stdout (lit "Password: ") w))
      as [[got [err|]] w1].
    + cbn [fst snd] in *. auto.
    + cbn [fst snd printed rand_Reader trace os_Stderr os_Stdout] in *.
      rewrite F4. cbn [os_Stdout]. rewrite <- app_assoc. auto.
Qed.

(** ** [main] and [showHelp] *)

Lemma printed_twice (a b : bytes) (w : World) :
  printed Stdout b (printed Stdout a w) = printed Stdout (a ++ b) w.
Proof.
  unfold printed. cbn [rand_Reader os_Stdin terminal terminal_fault os_Args
                       os_Stdout os_Stderr trace].
  now rewrite <- app_assoc.
Qed.

Lemma only_prints_Println (s : bytes) : only_prints (fmt_Println s).
Proof. intros w. eexists. apply fmt_Println_printed. Qed.

Lemma only_prints_Printf (format : bytes) (args : list fmt.arg) :
  only_prints (fmt_Printf format args).
Proof. intros w. eexists. apply fmt_Printf_printed. Qed.

Lemma only_prints_bind (m : M unit) (k : unit -> M unit) :
  only_prints m -> (forall u, only_prints (k u)) -> only_prints (bind m k).
Proof.
  intros Hm Hk w. destruct (Hm w) as (t1 & E1).
  destruct (Hk tt (printed Stdout t1 w)) as (t2 & E2).
  exists (t1 ++ t2). rewrite (run_bind _ _ _ _ _ E1), E2.
  now rewrite printed_twice.
Qed.

Lemma only_prints_with_name (k : bytes -> M unit) :
  (forall name, only_prints (k name)) -> only_prints (bind os_Args0 k).
Proof.
  intros Hk w. destruct (Hk (nth 0 (os_Args w) []) w) as (t & E).
  exists t. erewrite run_bind by reflexivity. exact E.
Qed.

Ltac prints :=
  lazymatch goal with
  | |- only_prints (bind os_Args0 _) =>
      apply only_prints_with_name; intros ?; prints
  | |- only_prints (bind _ _) =>
      apply only_prints_bind; [prints | intros ?; prints]
  | |- only_prints (fmt_Println _) => apply only_prints_Println
  | |- only_prints (fmt_Printf _ _) => apply only_prints_Printf
  end.

Lemma showHelp_only_prints : only_prints showHelp.
Proof. unfold showHelp. prints. Qed.

Lemma showHelp_run (w : World) :
  exists rest,
    showHelp w
    = (tt, printed Stdout
             ((lit "SCRAM-SHA-256 Password Generator" ++ LF) ++ rest) w).
Proof.
  assert (T : exists k, showHelp
                        = bind (fmt_Println (lit "SCRAM-SHA-256 Password Generator")) k
                        /\ forall u, only_prints (k u)).
  { eexists. split; [reflexivity|]. intros u. cbv beta. prints. }
  destruct T as (k & E & Hk). rewrite E.
  rewrite (run_bind _ _ _ _ _ (fmt_Println_printed _ w)).
  destruct (Hk tt (printed Stdout (lit "SCRAM-SHA-256 Password Generator" ++ LF) w))
    as (rest & R).
  exists rest. rewrite R. now rewrite printed_twice.
Qed.


(** X1. With the help flag set, [main] prints the help text to standard
    output and exits with status 0, whatever the other flags say: no
    password is read from standard input or the terminal, nothing is
    written to standard error, no random byte is drawn and no
    cryptographic call is made. *)
Theorem help_comes_first (config : Config) (w : World) :
  ShowHelp config = true ->
  exists text,
    main config w = (0, printed Stdout text w)
    /\ firstn 33 text = lit "SCRAM-SHA-256 Password Generator" ++ LF
    /\ main config w = main (mkConfig false true 0) w.
Proof.
  intros H. destruct (showHelp_run w) as (rest & E).
  exists ((lit "SCRAM-SHA-256 Password Generator" ++ LF) ++ rest).
  rewrite (main_help config w H), (main_help (mkConfig false true 0) w eq_refl).
  rewrite E. split; [reflexivity|]. split; reflexivity.
Qed.

Lemma help_comes_first_witness :
  ShowHelp (mkConfig true true 0) = true
  /\ exists text,
       main (mkConfig true true 0) world_bad_utf8
       = (0, printed Stdout text world_bad_utf8)
       /\ firstn 33 text = lit "SCRAM-SHA-256 Password Generator" ++ LF
       /\ main (mkConfig true true 0) world_bad_utf8
          = main (mkConfig false true 0) world_bad_utf8.
Proof.
  split; [reflexivity|].
  apply (help_comes_first (mkConfig true true 0) world_bad_utf8). reflexivity.
Defined.

(** X2. The complete run that succeeds: when a password was read, passes
    validation, the iteration count is at least 1 and the random source
    still has 16 bytes, [main] exits with status 0 after printing one line
    to standard output, the verifier string with a line feed; the salt in
    it is the next 16 bytes of the source, and standard error is as the
    reader left it. *)
Theorem main_prints_the_verifier
    (config : Config) (password : bytes) (w w1 : World) :
  ShowHelp config = false ->
  password_reader config w = ((password, None), w1) ->
  validatePassword password = None ->
  1 <= Iterations config ->
  (saltLength <= length (pending (rand_Reader w)))%nat ->
  exists w2,
    main config w
    = (0, printed Stdout
            (Verifier.render (Iterations config) (next_salt w)
               (StoredKey password (next_salt w) (Iterations config))
               (ServerKey password (next_salt w) (Iterations config)) ++ LF)
            w2)
    /\ os_Stdout w2 = os_Stdout w1
    /\ os_Stderr w2 = os_Stderr w
    /\ trace w2
       = trace w ++ derivation_calls password (next_salt w) (Iterations config).
Proof.
  intros Hh Hread Hv Hi Hr.
  destruct (password_reader_frame config w) as (F1 & F2 & F3 & _).
  cbv zeta in F1, F2, F3. rewrite Hread in F1, F2, F3. cbn [snd] in F1, F2, F3.
  assert (Hs : next_salt w1 = next_salt w) by (unfold next_salt; now rewrite F1).
  rewrite (main_after_read config w w1 password Hh Hread), Hv.
  rewrite generate_succeeds by (rewrite ?F1; assumption).
  rewrite Hs. eexists. split; [reflexivity|].
  unfold drawn. cbn [os_Stdout os_Stderr trace].
  split; [reflexivity|]. split; [exact F3|]. now rewrite F2.
Qed.

Lemma stdin_reads_the_example :
  password_reader (mkConfig true false 4096)
    (example_world example_salt (lit "pencil" ++ CR ++ LF))
  = ((lit "pencil", None),
     snd (readPasswordFromStdin
            (example_world example_salt (lit "pencil" ++ CR ++ LF)))).
Proof. reflexivity. Qed.

Lemma main_prints_the_verifier_witness :
  ShowHelp (mkConfig true false 4096) = false
  /\ validatePassword (lit "pencil") = None
  /\ 1 <= Iterations (mkConfig true false 4096)
  /\ (saltLength
      <= length (pending (rand_Reader
                   (example_world example_salt (lit "pencil" ++ CR ++ LF)))))%nat
  /\ exists w2,
       main (mkConfig true false 4096)
            (example_world example_salt (lit "pencil" ++ CR ++ LF))
       = (0, printed Stdout
               (Verifier.render 4096 example_salt
                  (StoredKey (lit "pencil") example_salt 4096)
                  (ServerKey (lit "pencil") example_salt 4096) ++ LF)
               w2).
Proof.
  split; [reflexivity|]. split; [reflexivity|]. split; [cbn; lia|].
  split; [apply Nat.leb_le; reflexivity|].
  destruct (main_prints_the_verifier (mkConfig true false 4096) (lit "pencil")
              (example_world example_salt (lit "pencil" ++ CR ++ LF)) _
              eq_refl stdin_reads_the_example eq_refl)
    as (w2 & E & _); [cbn; lia | apply Nat.leb_le; reflexivity |].
  exists w2. exact E.
Defined.

(** X3. When the derivation returns an error, [main] exits with status 1
    and writes [Error generating SCRAM-SHA-256: ], the message of that
    error and a line feed to standard error.  Nothing goes to standard
    output, whatever string came back with the error, and the derivation
    itself has written nothing.  With an iteration count below 1 the error
    is [iterations must be at least 1] and the derivation has left the
    world as the reader left it: no byte of the random source is drawn. *)
Theorem main_reports_a_failed_derivation
    (config : Config) (password s : bytes) (e : error) (w w1 w2 : World) :
  ShowHelp config = false ->
  password_reader config w = ((password, None), w1) ->
  validatePassword password = None ->
  generateSCRAMSHA256 password (Iterations config) w1 = ((s, Some e), w2) ->
  main config w
  = (1, printed Stderr
          (lit "Error generating SCRAM-SHA-256: " ++ Error e ++ LF) w2)
  /\ os_Stdout w2 = os_Stdout w1
  /\ os_Stderr w2 = os_Stderr w
  /\ (Iterations config < 1 ->
      e = errorString (lit "iterations must be at least 1") /\ w2 = w1).
Proof.
  intros Hh Hread Hv Hg.
  destruct (password_reader_frame config w) as (_ & _ & F3 & _).
  cbv zeta in F3. rewrite Hread in F3. cbn [snd] in F3.
  destruct (generate_frame password (Iterations config) w1)
    as (_ & _ & _ & _ & G5 & G6 & _).
  cbv zeta in G5, G6. rewrite Hg in G5, G6. cbn [snd] in G5, G6.
  split.
  - rewrite (main_after_read config w w1 password Hh Hread), Hv, Hg.
    reflexivity.
  - split; [exact G5|]. split; [now rewrite G6|].
    intros Hlt. rewrite (generate_rejects password _ w1 Hlt) in Hg.
    injection Hg as _ He Hw. now subst.
Qed.

Lemma main_reports_a_failed_derivation_witness :
  ShowHelp (mkConfig true false 0) = false
  /\ validatePassword (lit "pencil") = None
  /\ generateSCRAMSHA256 (lit "pencil") (Iterations (mkConfig true false 0))
       (snd (readPasswordFromStdin
               (example_world example_salt (lit "pencil" ++ CR ++ LF))))
     = (([], Some (errorString (lit "iterations must be at least 1"))),
        snd (readPasswordFromStdin
               (example_world example_salt (lit "pencil" ++ CR ++ LF))))
  /\ main (mkConfig true false 0)
          (example_world example_salt (lit "pencil" ++ CR ++ LF))
     = (1, printed Stderr
             (lit "Error generating SCRAM-SHA-256: "
              ++ lit "iterations must be at least 1" ++ LF)
             (snd (readPasswordFromStdin
                     (example_world example_salt (lit "pencil" ++ CR ++ LF))))).
Proof.
  assert (G : generateSCRAMSHA256 (lit "pencil")
                (Iterations (mkConfig true false 0))
                (snd (readPasswordFromStdin
                        (example_world example_salt (lit "pencil" ++ CR ++ LF))))
              = (([], Some (errorString (lit "iterations must be at least 1"))),
                 snd (readPasswordFromStdin
                        (example_world example_salt
                           (lit "pencil" ++ CR ++ LF)))))
    by (apply generate_rejects; cbn; lia).
  split; [reflexivity|]. split; [reflexivity|]. split; [exact G|].
  exact (proj1 (main_reports_a_failed_derivation (mkConfig true false 0)
                  (lit "pencil") [] _
                  (example_world example_salt (lit "pencil" ++ CR ++ LF)) _ _
                  eq_refl stdin_reads_the_example eq_refl G)).
Defined.

Lemma readPasswordFromStdin_fails (w : World) :
  ~ In x0a (pending (os_Stdin w)) ->
  is_EOF (fault (os_Stdin w)) = false ->
  readPasswordFromStdin w
  = (([], Some (wrapError (lit "failed to read from stdin: "
                           ++ Error (fault (os_Stdin w)))
                          (fault (os_Stdin w)))),
     mkWorld (rand_Reader w) (mkStream [] (fault (os_Stdin w))) (terminal w)
             (terminal_fault w) (os_Args w) (os_Stdout w) (os_Stderr w)
             (trace w)).
Proof.
  intros Hn He. unfold readPasswordFromStdin.
  erewrite run_bind.
  2:{ unfold bufio_ReadString. rewrite split_after_none by exact Hn.
      reflexivity. }
  cbv beta iota. rewrite He. cbn [negb]. unfold ret.
  f_equal. f_equal. f_equal.
  unfold fmt.Errorf, fmt.Sprintf.
  cbv - [Error app]. cbn [app]. now rewrite app_nil_r.
Qed.

(** X4. A read error on standard input that is not the end of the input
    is fatal: [readPasswordFromStdin] returns the empty string, dropping
    the bytes read before the error, and an error that wraps the one of the
    stream; [main] then writes [Error reading password from stdin:] and
    this error to standard error and exits with status 1, with nothing on
    standard output and no byte drawn from the random source. *)
Theorem stdin_read_error_is_fatal (config : Config) (w : World) :
  ShowHelp config = false ->
  UseStdin config = true ->
  ~ In x0a (pending (os_Stdin w)) ->
  is_EOF (fault (os_Stdin w)) = false ->
  exists err w1,
    readPasswordFromStdin w = (([], Some err), w1)
    /\ Error err = lit "failed to read from stdin: "
                   ++ Error (fault (os_Stdin w))
    /\ Unwrap err = Some (fault (os_Stdin w))
    /\ main config w
       = (1, printed Stderr
               (lit "Error reading password from stdin: "
                ++ lit "failed to read from stdin: "
                ++ Error (fault (os_Stdin w)) ++ LF) w1)
    /\ os_Stdout w1 = os_Stdout w
    /\ os_Stderr w1 = os_Stderr w
    /\ rand_Reader w1 = rand_Reader w
    /\ trace w1 = trace w.
Proof.
  intros Hh Hu Hn He.
  pose proof (readPasswordFromStdin_fails w Hn He) as R.
  eexists. eexists. split; [exact R|].
  split; [reflexivity|]. split; [reflexivity|]. split.
  - assert (R' : password_reader config w
                 = (([], Some (wrapError (lit "failed to read from stdin: "
                                          ++ Error (fault (os_Stdin w)))
                                         (fault (os_Stdin w)))),
                    mkWorld (rand_Reader w) (mkStream [] (fault (os_Stdin w)))
                            (terminal w) (terminal_fault w) (os_Args w)
                            (os_Stdout w) (os_Stderr w) (trace w)))
      by (unfold password_reader; rewrite Hu; exact R).
    rewrite (main_read_failed config w _ _ _ Hh R').
    unfold read_error_prefix. rewrite Hu. cbn [Error].
    now rewrite <- !app_assoc.
  - repeat split.
Qed.

Lemma stdin_read_error_is_fatal_witness :
  ShowHelp (mkConfig true false 4096) = false
  /\ UseStdin (mkConfig true false 4096) = true
  /\ ~ In x0a (pending (os_Stdin world_broken_stdin))
  /\ is_EOF (fault (os_Stdin world_broken_stdin)) = false
  /\ exists err w1,
       readPasswordFromStdin world_broken_stdin = (([], Some err), w1)
       /\ Error err = lit "failed to read from stdin: "
                      ++ Error (fault (os_Stdin world_broken_stdin))
       /\ Unwrap err = Some (fault (os_Stdin world_broken_stdin))
       /\ main (mkConfig true false 4096) world_broken_stdin
          = (1, printed Stderr
                  (lit "Error reading password from stdin: "
                   ++ lit "failed to read from stdin: "
                   ++ Error (fault (os_Stdin world_broken_stdin)) ++ LF) w1)
       /\ os_Stdout w1 = os_Stdout world_broken_stdin
       /\ os_Stderr w1 = os_Stderr world_broken_stdin
       /\ rand_Reader w1 = rand_Reader world_broken_stdin
       /\ trace w1 = trace world_broken_stdin.
Proof.
  assert (Hn : ~ In x0a (pending (os_Stdin world_broken_stdin))).
  { intros H. vm_compute in H.
    repeat (destruct H as [H|H]; [discriminate H|]). exact H. }
  split; [reflexivity|]. split; [reflexivity|]. split; [exact Hn|].
  split; [reflexivity|].
  apply (stdin_read_error_is_fatal (mkConfig true false 4096)
           world_broken_stdin eq_refl eq_refl Hn eq_refl).
Defined.




(** ** UTF-8 validity *)

Lemma first_bounds (b : Z) (size : nat) (lo hi : Z) :
  utf8.first b = Some (size, lo, hi) ->
  0x80 <= lo /\ hi <= 0xBF /\ (size = 2 \/ size = 3 \/ size = 4)%nat.
Proof.
  unfold utf8.first.
  repeat match goal with
         | |- context [if ?c then _ else _] => destruct c
         end;
    intros H; inversion H; subst; lia.
Qed.

Lemma ascii_out_of_range (lo hi : Z) (c : byte) :
  0x80 <= lo -> is_ascii c = true -> utf8.in_range lo hi c = false.
Proof.
  unfold is_ascii, utf8.in_range. intros Hlo Hc.
  apply Z.ltb_lt in Hc. apply andb_false_iff. left. apply Z.leb_gt. lia.
Qed.

Lemma ValidString_ascii (s : bytes) :
  forallb is_ascii s = true -> utf8.ValidString s = true.
Proof.
  induction s as [|b s IH]; [reflexivity|].
  cbn [forallb utf8.ValidString]. intros H.
  apply andb_true_iff in H. destruct H as [Hb Hs].
  unfold is_ascii in Hb. rewrite Hb. now apply IH.
Qed.

(** ASCII bytes at the end of a string do not change whether it is valid
    UTF-8. *)
Lemma ValidString_app_ascii (tail : bytes) :
  forallb is_ascii tail = true ->
  forall s, utf8.ValidString (s ++ tail) = utf8.ValidString s.
Proof.
  intros Ht.
  assert (Hhead : forall lo hi k,
             0x80 <= lo ->
             match tail with
             | [] => false
             | c :: rest => if negb (utf8.in_range lo hi c) then false else k c rest
             end = false).
  { intros lo hi k Hlo. destruct tail as [|c rest]; [reflexivity|].
    cbn [forallb] in Ht. apply andb_true_iff in Ht. destruct Ht as [Hc _].
    now rewrite (ascii_out_of_range lo hi c Hlo Hc). }
  intros s. remember (length s) as n eqn:Hn. revert s Hn.
  induction n as [n IH] using lt_wf_ind. intros s Hn.
  destruct s as [|si s1].
  - cbn [app]. now rewrite ValidString_ascii.
  - cbn [app utf8.ValidString].
    destruct (byte_to_Z si <? 128) eqn:Hsi.
    + apply (IH (length s1)); [subst n; cbn [length]; lia | reflexivity].
    + destruct (utf8.first (byte_to_Z si)) as [[[size lo] hi]|] eqn:Hf;
        [|reflexivity].
      destruct (first_bounds _ _ _ _ Hf) as (Hlo & _ & _).
      destruct s1 as [|c1 s2].
      { cbn [app]. apply (Hhead lo hi); exact Hlo. }
      cbn [app]. destruct (negb (utf8.in_range lo hi c1)); [reflexivity|].
      destruct (size =? 2)%nat.
      { apply (IH (length s2)); [subst n; cbn [length]; lia | reflexivity]. }
      destruct s2 as [|c2 s3].
      { cbn [app]. unfold utf8.cont. apply (Hhead 0x80 0xBF). lia. }
      cbn [app]. destruct (negb (utf8.cont c2)); [reflexivity|].
      destruct (size =? 3)%nat.
      { apply (IH (length s3)); [subst n; cbn [length]; lia | reflexivity]. }
      destruct s3 as [|c3 s4].
      { cbn [app]. unfold utf8.cont.
        apply (Hhead 0x80 0xBF (fun _ rest => utf8.ValidString rest)). lia. }
      cbn [app]. destruct (negb (utf8.cont c3)); [reflexivity|].
      apply (IH (length s4)); [subst n; cbn [length]; lia | reflexivity].
Qed.

Lemma never_not_ascii (b : byte) :
  byte_to_Z b < 0x80 -> never_in_utf8 b = false.
Proof.
  unfold never_in_utf8. intros H.
  repeat (apply orb_false_iff; split); try apply Z.eqb_neq; try apply Z.leb_gt; lia.
Qed.

Lemma never_not_continuation (lo hi : Z) (c : byte) :
  0x80 <= lo -> hi <= 0xBF -> utf8.in_range lo hi c = true ->
  never_in_utf8 c = false.
Proof.
  unfold utf8.in_range, never_in_utf8. intros Hlo Hhi H.
  apply andb_true_iff in H. destruct H as [H1 H2].
  apply Z.leb_le in H1, H2.
  repeat (apply orb_false_iff; split); try apply Z.eqb_neq; try apply Z.leb_gt; lia.
Qed.

Lemma never_not_leading (b : byte) (size : nat) (lo hi : Z) :
  utf8.first (byte_to_Z b) = Some (size, lo, hi) -> never_in_utf8 b = false.
Proof.
  unfold utf8.first, never_in_utf8.
  repeat match goal with
         | |- context [if ?c then _ else _] => destruct c eqn:?
         end;
    intros H; try discriminate H;
    repeat match goal with
           | E : (_ && _) = true |- _ => apply andb_true_iff in E; destruct E
           | E : (_ <=? _) = true |- _ => apply Z.leb_le in E
           | E : (_ =? _) = true |- _ => apply Z.eqb_eq in E
           end;
    repeat (apply orb_false_iff; split);
    try apply Z.eqb_neq; try apply Z.leb_gt; lia.
Qed.

(** No byte of a valid UTF-8 string is one of the bytes that UTF-8 never
    uses. *)
Lemma ValidString_no_never (s : bytes) :
  utf8.ValidString s = true ->
  forall b, In b s -> never_in_utf8 b = false.
Proof.
  remember (length s) as n eqn:Hn. revert s Hn.
  induction n as [n IH] using lt_wf_ind. intros s Hn Hv b Hb.
  destruct s as [|si s1]; [contradiction|].
  cbn [utf8.ValidString] in Hv.
  destruct (byte_to_Z si <? 128) eqn:Hsi.
  - destruct Hb as [->|Hb].
    + apply never_not_ascii. now apply Z.ltb_lt in Hsi.
    + apply (IH (length s1)) with (s := s1); auto. subst n. cbn [length]. lia.
  - destruct (utf8.first (byte_to_Z si)) as [[[size lo] hi]|] eqn:Hf;
      [|discriminate Hv].
    destruct (first_bounds _ _ _ _ Hf) as (Hlo & Hhi & _).
    destruct Hb as [->|Hb]; [now apply (never_not_leading _ _ _ _ Hf)|].
    destruct s1 as [|c1 s2]; [discriminate Hv|].
    destruct (utf8.in_range lo hi c1) eqn:H1; [|discriminate Hv].
    cbn [negb] in Hv.
    destruct Hb as [->|Hb]; [now apply (never_not_continuation lo hi)|].
    destruct (size =? 2)%nat.
    { apply (IH (length s2)) with (s := s2); auto. subst n. cbn [length]. lia. }
    destruct s2 as [|c2 s3]; [discriminate Hv|].
    destruct (utf8.cont c2) eqn:H2; [|discriminate Hv].
    cbn [negb] in Hv.
    destruct Hb as [->|Hb];
      [now apply (never_not_continuation 0x80 0xBF); try lia|].
    destruct (size =? 3)%nat.
    { apply (IH (length s3)) with (s := s3); auto. subst n. cbn [length]. lia. }
    destruct s3 as [|c3 s4]; [discriminate Hv|].
    destruct (utf8.cont c3) eqn:H3; [|discriminate Hv].
    cbn [negb] in Hv.
    destruct Hb as [->|Hb];
      [now apply (never_not_continuation 0x80 0xBF); try lia|].
    apply (IH (length s4)) with (s := s4); auto. subst n. cbn [length]. lia.
Qed.

(** ** Reading and validating *)

Lemma readPasswordFromStdin_reads (w : World) (line rest : bytes) :
  ~ In x0a line ->
  pending (os_Stdin w) = line ++ x0a :: rest
  \/ (pending (os_Stdin w) = line /\ fault (os_Stdin w) = io_EOF) ->
  exists w',
    readPasswordFromStdin w
    = ((strings.TrimRight line (CR ++ LF), None), w').
Proof.
  intros Hn Hin. unfold readPasswordFromStdin.
  destruct Hin as [Hp|[Hp Hf]].
  - eexists. erewrite run_bind.
    2:{ unfold bufio_ReadString. rewrite Hp, split_after_found by exact Hn.
        reflexivity. }
    cbv beta iota. change (line ++ [x0a]) with (line ++ LF).
    rewrite TrimRight_line_feed. reflexivity.
  - eexists. erewrite run_bind.
    2:{ unfold bufio_ReadString. rewrite Hp, split_after_none by exact Hn.
        rewrite Hf. reflexivity. }
    cbv beta iota. cbn [is_EOF negb]. reflexivity.
Qed.

Lemma validatePassword_None (password : bytes) :
  validatePassword password = None
  <-> password <> [] /\ utf8.ValidString password = true.
Proof.
  unfold validatePassword. destruct password as [|b password].
  - cbn [length Nat.eqb]. split; [discriminate|]. intros [H _]. contradiction.
  - cbn [length Nat.eqb].
    destruct (utf8.ValidString (b :: password)); cbn [negb].
    + split; [intros _; split; [discriminate|reflexivity]|reflexivity].
    + split; [discriminate|]. intros [_ H]. discriminate H.
Qed.

Lemma carriage_returns_are_ascii (tail : bytes) :
  Forall (fun c => c = x0d) tail -> forallb is_ascii tail = true.
Proof.
  intros H. apply forallb_forall. intros c Hc.
  rewrite Forall_forall in H. now rewrite (H c Hc).
Qed.

(** X6. Which lines of standard input make a password that
    [validatePassword] accepts: exactly those that are valid UTF-8 and
    hold a byte other than a carriage return.  Cutting the line end does
    not change whether the bytes are valid UTF-8, and an empty line or a
    line of carriage returns gives the empty password, which is
    refused. *)
Theorem accepted_lines_of_stdin (w : World) (line rest : bytes) :
  ~ In x0a line ->
  pending (os_Stdin w) = line ++ x0a :: rest
  \/ (pending (os_Stdin w) = line /\ fault (os_Stdin w) = io_EOF) ->
  exists password w',
    readPasswordFromStdin w = ((password, None), w')
    /\ utf8.ValidString password = utf8.ValidString line
    /\ (password = [] <-> Forall (fun c => c = x0d) line)
    /\ (validatePassword password = None
        <-> utf8.ValidString line = true
            /\ ~ Forall (fun c => c = x0d) line).
Proof.
  intros Hn Hin.
  destruct (readPasswordFromStdin_reads w line rest Hn Hin) as (w' & R).
  destruct (trimmed_line line Hn) as (tail & E & Ht & Hk).
  remember (strings.TrimRight line (CR ++ LF)) as password eqn:Hpw.
  clear Hpw.
  assert (Hv : utf8.ValidString password = utf8.ValidString line).
  { transitivity (utf8.ValidString (password ++ tail)).
    - symmetry. apply ValidString_app_ascii.
      now apply carriage_returns_are_ascii.
    - now rewrite <- E. }
  assert (He : password = [] <-> Forall (fun c => c = x0d) line).
  { split.
    - intros P. rewrite E, P. exact Ht.
    - intros Hall.
      destruct password as [|b0 p0]; [reflexivity|]. exfalso.
      destruct (exists_last (l := b0 :: p0)) as (kept & c & P);
        [discriminate|].
      destruct (Hk kept c P) as [Hc _]. apply Hc.
      rewrite Forall_forall in Hall. apply Hall.
      rewrite E, P. apply in_or_app. left. apply in_or_app. right. now left. }
  exists password, w'. split; [exact R|]. split; [exact Hv|].
  split; [exact He|].
  rewrite validatePassword_None, Hv. split.
  - intros [Hne Hval]. split; [exact Hval|]. intros Hall. apply Hne.
    now apply He.
  - intros [Hval Hnall]. split; [|exact Hval]. intros P. apply Hnall.
    now apply He.
Qed.

Lemma accepted_lines_of_stdin_witness :
  ~ In x0a example_line
  /\ (pending (os_Stdin world_with_line)
      = example_line ++ x0a :: lit "second line"
      \/ (pending (os_Stdin world_with_line) = example_line
          /\ fault (os_Stdin world_with_line) = io_EOF))
  /\ exists password w',
       readPasswordFromStdin world_with_line = ((password, None), w')
       /\ utf8.ValidString password = utf8.ValidString example_line
       /\ (password = [] <-> Forall (fun c => c = x0d) example_line)
       /\ (validatePassword password = None
           <-> utf8.ValidString example_line = true
               /\ ~ Forall (fun c => c = x0d) example_line).
Proof.
  assert (Hn : ~ In x0a example_line).
  { intros H. vm_compute in H.
    repeat (destruct H as [H|H]; [discriminate H|]). exact H. }
  split; [exact Hn|]. split; [left; reflexivity|].
  apply (accepted_lines_of_stdin world_with_line example_line
           (lit "second line") Hn).
  left. reflexivity.
Defined.

(** X7. Every non-empty password of ASCII bytes passes [validatePassword],
    whatever the bytes are: spaces, control characters and the NUL byte
    included.  The check is about emptiness and encoding only. *)
Theorem ascii_passwords_are_accepted (password : bytes) :
  password <> [] ->
  forallb is_ascii password = true ->
  validatePassword password = None.
Proof.
  intros Hne Ha. apply validatePassword_None. split; [exact Hne|].
  now apply ValidString_ascii.
Qed.

Lemma ascii_passwords_are_accepted_witness :
  [x00; x20; x09; x7f] <> []
  /\ forallb is_ascii [x00; x20; x09; x7f] = true
  /\ validatePassword [x00; x20; x09; x7f] = None.
Proof.
  split; [discriminate|]. split; [reflexivity|].
  apply (ascii_passwords_are_accepted [x00; x20; x09; x7f]);
    [discriminate | reflexivity].
Defined.

(** X8. A password that holds, anywhere, one of the bytes 0xC0, 0xC1 or
    0xF5 to 0xFF is refused by [validatePassword] with the error
    [password must be valid UTF-8]: these bytes occur in no UTF-8 text. *)
Theorem impossible_bytes_are_refused (password : bytes) (b : byte) :
  In b password ->
  never_in_utf8 b = true ->
  validatePassword password
  = Some (errorString (lit "password must be valid UTF-8")).
Proof.
  intros Hin Hb.
  apply validatePassword_bad_encoding.
  - intros ->. contradiction.
  - destruct (utf8.ValidString password) eqn:Hv; [|reflexivity].
    rewrite (ValidString_no_never password Hv b Hin) in Hb. discriminate Hb.
Qed.

Lemma impossible_bytes_are_refused_witness :
  In xc0 (lit "pass" ++ [xc0; x80] ++ lit "word")
  /\ never_in_utf8 xc0 = true
  /\ validatePassword (lit "pass" ++ [xc0; x80] ++ lit "word")
     = Some (errorString (lit "password must be valid UTF-8")).
Proof.
  assert (Hin : In xc0 (lit "pass" ++ [xc0; x80] ++ lit "word")).
  { apply in_or_app. right. now left. }
  split; [exact Hin|]. split; [reflexivity|].
  apply (impossible_bytes_are_refused _ xc0 Hin). reflexivity.
Defined.

(** ** The terminal reader *)



(** ** More on [generateSCRAMSHA256] *)

(** X10. Where the iteration count is refused or the random source
    delivers, the derivation has no effect but on the random source and
    the trace of its own calls: it writes nothing to standard output or
    standard error and reads nothing from standard input or the terminal.
    From the random source it takes nothing when the iteration count is
    below 1, and otherwise exactly the next 16 bytes. *)
Theorem derivation_only_draws_randomness
    (password : bytes) (iterations : Z) (w : World) :
  iterations < 1 \/ (saltLength <= length (pending (rand_Reader w)))%nat ->
  os_Stdout (snd (generateSCRAMSHA256 password iterations w)) = os_Stdout w
  /\ os_Stderr (snd (generateSCRAMSHA256 password iterations w)) = os_Stderr w
  /\ os_Stdin (snd (generateSCRAMSHA256 password iterations w)) = os_Stdin w
  /\ terminal (snd (generateSCRAMSHA256 password iterations w)) = terminal w
  /\ pending (rand_Reader (snd (generateSCRAMSHA256 password iterations w)))
     = (if iterations <? 1 then pending (rand_Reader w)
        else skipn saltLength (pending (rand_Reader w))).
Proof.
  intros H.
  destruct (Z.lt_ge_cases iterations 1) as [Hlt|Hge].
  - rewrite (generate_rejects password iterations w Hlt). cbn [snd].
    apply Z.ltb_lt in Hlt. rewrite Hlt.
    split; [reflexivity|]. split; [reflexivity|]. split; [reflexivity|].
    split; reflexivity.
  - destruct H as [Hlt|Hr]; [lia|].
    rewrite (generate_succeeds password iterations w Hge Hr). cbn [snd].
    apply Z.ltb_ge in Hge. rewrite Hge. unfold drawn.
    cbn [os_Stdout os_Stderr os_Stdin terminal rand_Reader pending].
    split; [reflexivity|]. split; [reflexivity|]. split; [reflexivity|].
    split; reflexivity.
Qed.

Lemma derivation_only_draws_randomness_witness :
  (2 < 1 \/ (saltLength <= length (pending (rand_Reader world_three_draws)))%nat)
  /\ os_Stdout (snd (generateSCRAMSHA256 example_password 2 world_three_draws))
     = os_Stdout world_three_draws
  /\ pending (rand_Reader
                (snd (generateSCRAMSHA256 example_password 2
                        world_three_draws)))
     = example_salt' ++ [xff].
Proof.
  assert (H : 2 < 1
              \/ (saltLength
                  <= length (pending (rand_Reader world_three_draws)))%nat)
    by (right; apply Nat.leb_le; reflexivity).
  split; [exact H|].
  destruct (derivation_only_draws_randomness example_password 2
              world_three_draws H) as (G1 & _ & _ & _ & G5).
  split; [exact G1|]. rewrite G5. reflexivity.
Defined.

Lemma digit_verifier_char (c : byte) :
  Verifier.is_digit c = true -> verifier_char c = true.
Proof. destruct c; intros H; try reflexivity; discriminate H. Qed.

Lemma base64_verifier_char (c : byte) :
  Verifier.base64_char c = true -> verifier_char c = true.
Proof. destruct c; intros H; try reflexivity; discriminate H. Qed.

Lemma verifier_char_ascii (c : byte) :
  verifier_char c = true -> is_ascii c = true.
Proof. destruct c; intros H; try reflexivity; discriminate H. Qed.

Lemma base64_verifier_chars (src : bytes) :
  forallb verifier_char (base64.EncodeToString src) = true.
Proof.
  apply forallb_forall. intros c Hc. apply base64_verifier_char.
  pose proof (base64_chars src) as H. rewrite Forall_forall in H. now apply H.
Qed.

(** X11. The string of a successful derivation is plain text: each of its
    bytes is a letter, a digit or one of [+ / = $ : -], so that it is ASCII
    and valid UTF-8. *)
Theorem output_is_plain_text
    (password : bytes) (iterations : Z) (w w' : World) (s : bytes) :
  generateSCRAMSHA256 password iterations w = ((s, None), w') ->
  forallb verifier_char s = true
  /\ forallb is_ascii s = true
  /\ utf8.ValidString s = true.
Proof.
  intros E.
  destruct (generate_success_inv _ _ _ _ _ E) as (Hi & _ & Hs & _).
  assert (V : forallb verifier_char s = true).
  { rewrite Hs. unfold Verifier.render. rewrite !forallb_app.
    rewrite !base64_verifier_chars.
    assert (D : forallb verifier_char (fmt.FormatInt iterations) = true).
    { destruct (FormatInt_spec iterations ltac:(lia)) as (Hd & _).
      apply forallb_forall. intros c Hc. apply digit_verifier_char.
      rewrite forallb_forall in Hd. now apply Hd. }
    rewrite D. reflexivity. }
  assert (A : forallb is_ascii s = true).
  { apply forallb_forall. intros c Hc. apply verifier_char_ascii.
    rewrite forallb_forall in V. now apply V. }
  split; [exact V|]. split; [exact A|]. now apply ValidString_ascii.
Qed.

Lemma output_is_plain_text_witness :
  example_run = ((fst (fst example_run), None), snd example_run)
  /\ forallb verifier_char (fst (fst example_run)) = true
  /\ forallb is_ascii (fst (fst example_run)) = true
  /\ utf8.ValidString (fst (fst example_run)) = true.
Proof.
  assert (E : example_run = ((fst (fst example_run), None), snd example_run))
    by (vm_compute; reflexivity).
  split; [exact E|].
  exact (output_is_plain_text example_password 2 world_one_salt
           (snd example_run) (fst (fst example_run)) E).
Defined.

Lemma count_app (b : byte) (s t : bytes) :
  count b (s ++ t) = (count b s + count b t)%nat.
Proof. unfold count. now rewrite filter_app, length_app. Qed.

Lemma count_field (b : byte) (s : bytes) :
  Verifier.field_char b = false ->
  forallb Verifier.field_char s = true -> count b s = 0%nat.
Proof.
  intros Hb Hs. unfold count.
  induction s as [|c s IH]; [reflexivity|].
  cbn [forallb] in Hs. apply andb_true_iff in Hs. destruct Hs as [Hc Hs].
  cbn [filter]. destruct (byte_eqb b c) eqn:E.
  - apply byte_eqb_eq in E. subst. congruence.
  - now apply IH.
Qed.

(** X12. In the string of a successful derivation the byte [$] occurs
    exactly twice and the byte [:] exactly twice: the four delimiters of
    the format, and no others. *)
Theorem delimiters_occur_twice
    (password : bytes) (iterations : Z) (w w' : World) (s : bytes) :
  generateSCRAMSHA256 password iterations w = ((s, None), w') ->
  count x24 s = 2%nat /\ count x3a s = 2%nat.
Proof.
  intros E.
  destruct (generate_success_inv _ _ _ _ _ E) as (Hi & _ & Hs & _).
  assert (Cb : forall b src,
             Verifier.field_char b = false ->
             count b (base64.EncodeToString src) = 0%nat)
    by (intros; apply count_field; [assumption | apply base64_field_chars]).
  assert (Cd : forall b,
             Verifier.field_char b = false ->
             count b (fmt.FormatInt iterations) = 0%nat)
    by (intros; apply count_field;
        [assumption | apply FormatInt_field_chars; lia]).
  rewrite Hs. unfold Verifier.render. rewrite !count_app.
  rewrite !(Cb x24), !(Cb x3a), (Cd x24), (Cd x3a) by reflexivity.
  split; reflexivity.
Qed.

Lemma delimiters_occur_twice_witness :
  example_run = ((fst (fst example_run), None), snd example_run)
  /\ count x24 (fst (fst example_run)) = 2%nat
  /\ count x3a (fst (fst example_run)) = 2%nat.
Proof.
  assert (E : example_run = ((fst (fst example_run), None), snd example_run))
    by (vm_compute; reflexivity).
  split; [exact E|].
  exact (delimiters_occur_twice example_password 2 world_one_salt
           (snd example_run) (fst (fst example_run)) E).
Defined.

Lemma enc_letter (v : Z) : base64_letter (base64.enc v) = true.
Proof.
  apply (alphabet_forall base64_letter). vm_compute. reflexivity.
Qed.

(** Where [EncodeToString] puts pad characters: none for a multiple of
    three bytes, two after one odd byte, one after two, always at the
    end. *)
Lemma base64_shape (src : bytes) :
  match (length src mod 3)%nat with
  | O => forallb base64_letter (base64.EncodeToString src) = true
  | S O =>
      exists body,
        base64.EncodeToString src
        = body ++ [base64.StdPadding; base64.StdPadding]
        /\ forallb base64_letter body = true
  | S (S _) =>
      exists body,
        base64.EncodeToString src = body ++ [base64.StdPadding]
        /\ forallb base64_letter body = true
  end.
Proof.
  induction src as [|b0|b0 b1|b0 b1 b2 src IH] using list_ind3.
  - reflexivity.
  - change (length [b0] mod 3)%nat with 1%nat.
    cbn [base64.EncodeToString]. eexists [_; _]. split; [reflexivity|].
    cbn [forallb]. now rewrite !enc_letter.
  - change (length [b0; b1] mod 3)%nat with 2%nat.
    cbn [base64.EncodeToString]. eexists [_; _; _]. split; [reflexivity|].
    cbn [forallb]. now rewrite !enc_letter.
  - replace (length (b0 :: b1 :: b2 :: src)) with (length src + 1 * 3)%nat
      by (cbn [length]; lia).
    rewrite Nat.Div0.mod_add.
    cbn [base64.EncodeToString].
    destruct (length src mod 3)%nat as [|[|k]].
    + cbn [forallb]. now rewrite !enc_letter, IH.
    + destruct IH as (body & E & L). rewrite E.
      eexists (_ :: _ :: _ :: _ :: body). split; [reflexivity|].
      cbn [forallb]. now rewrite !enc_letter, L.
    + destruct IH as (body & E & L). rewrite E.
      eexists (_ :: _ :: _ :: _ :: body). split; [reflexivity|].
      cbn [forallb]. now rewrite !enc_letter, L.
Qed.

Lemma base64_of_16 (src : bytes) :
  length src = 16%nat ->
  exists body,
    base64.EncodeToString src = body ++ lit "=="
    /\ length body = 22%nat /\ forallb base64_letter body = true.
Proof.
  intros H. pose proof (base64_shape src) as S. rewrite H in S.
  change (16 mod 3)%nat with 1%nat in S. destruct S as (body & E & L).
  exists body. split; [exact E|]. split; [|exact L].
  pose proof (base64_length src) as Hl. rewrite E, H, length_app in Hl.
  change (4 * ((16 + 2) / 3))%nat with 24%nat in Hl. cbn [length] in Hl. lia.
Qed.

Lemma base64_of_32 (src : bytes) :
  length src = 32%nat ->
  exists body,
    base64.EncodeToString src = body ++ lit "="
    /\ length body = 43%nat /\ forallb base64_letter body = true.
Proof.
  intros H. pose proof (base64_shape src) as S. rewrite H in S.
  change (32 mod 3)%nat with 2%nat in S. destruct S as (body & E & L).
  exists body. split; [exact E|]. split; [|exact L].
  pose proof (base64_length src) as Hl. rewrite E, H, length_app in Hl.
  change (4 * ((32 + 2) / 3))%nat with 44%nat in Hl. cbn [length] in Hl. lia.
Qed.

(** X13. The padding of the three base64 fields is always the same: the
    salt field is 22 letters of the alphabet followed by [==], and the
    stored-key and server-key fields are 43 letters followed by one [=];
    the pad character occurs nowhere else in the fields. *)
Theorem fields_end_in_fixed_padding
    (password : bytes) (iterations : Z) (w w' : World) (s : bytes) :
  generateSCRAMSHA256 password iterations w = ((s, None), w') ->
  exists salt_body stored_body server_body,
    s = lit "SCRAM-SHA-256$" ++ fmt.FormatInt iterations ++ lit ":"
        ++ (salt_body ++ lit "==") ++ lit "$"
        ++ (stored_body ++ lit "=") ++ lit ":"
        ++ (server_body ++ lit "=")
    /\ length salt_body = 22%nat
    /\ length stored_body = 43%nat
    /\ length server_body = 43%nat
    /\ forallb base64_letter (salt_body ++ stored_body ++ server_body) = true.
Proof.
  intros E.
  destruct (generate_success_inv _ _ _ _ _ E) as (Hi & Hr & Hs & _).
  destruct (base64_of_16 (next_salt w) (next_salt_length w Hr))
    as (a & Ea & La & Aa).
  destruct (base64_of_32 _ (StoredKey_length password (next_salt w) iterations))
    as (b & Eb & Lb & Ab).
  destruct (base64_of_32 _ (ServerKey_length password (next_salt w) iterations))
    as (c & Ec & Lc & Ac).
  exists a, b, c. split.
  - rewrite Hs. unfold Verifier.render. now rewrite Ea, Eb, Ec.
  - split; [exact La|]. split; [exact Lb|]. split; [exact Lc|].
    now rewrite !forallb_app, Aa, Ab, Ac.
Qed.

Lemma fields_end_in_fixed_padding_witness :
  example_run = ((fst (fst example_run), None), snd example_run)
  /\ exists salt_body stored_body server_body,
       fst (fst example_run)
       = lit "SCRAM-SHA-256$" ++ fmt.FormatInt 2 ++ lit ":"
         ++ (salt_body ++ lit "==") ++ lit "$"
         ++ (stored_body ++ lit "=") ++ lit ":"
         ++ (server_body ++ lit "=")
       /\ length salt_body = 22%nat
       /\ length stored_body = 43%nat
       /\ length server_body = 43%nat
       /\ forallb base64_letter (salt_body ++ stored_body ++ server_body)
          = true.
Proof.
  assert (E : example_run = ((fst (fst example_run), None), snd example_run))
    by (vm_compute; reflexivity).
  split; [exact E|].
  exact (fields_end_in_fixed_padding example_password 2 world_one_salt
           (snd example_run) (fst (fst example_run)) E).
Defined.

(** X14. The string of a successful derivation determines what went into
    it: two successful calls that return the same string were made with
    the same iteration count, drew the same salt and derived the same
    stored key and server key.  Calls with different iteration counts, or
    with different salts, never return the same string. *)
Theorem output_determines_its_fields
    (password1 password2 : bytes) (iterations1 iterations2 : Z)
    (w1 w1' w2 w2' : World) (s : bytes) :
  generateSCRAMSHA256 password1 iterations1 w1 = ((s, None), w1') ->
  generateSCRAMSHA256 password2 iterations2 w2 = ((s, None), w2') ->
  iterations1 = iterations2
  /\ next_salt w1 = next_salt w2
  /\ StoredKey password1 (next_salt w1) iterations1
     = StoredKey password2 (next_salt w2) iterations2
  /\ ServerKey password1 (next_salt w1) iterations1
     = ServerKey password2 (next_salt w2) iterations2.
Proof.
  intros E1 E2.
  destruct (generate_success_inv _ _ _ _ _ E1) as (Hi1 & _ & Hs1 & _).
  destruct (generate_success_inv _ _ _ _ _ E2) as (Hi2 & _ & Hs2 & _).
  pose proof (parse_render iterations1 (next_salt w1)
                (StoredKey password1 (next_salt w1) iterations1)
                (ServerKey password1 (next_salt w1) iterations1)
                ltac:(lia)) as P1.
  pose proof (parse_render iterations2 (next_salt w2)
                (StoredKey password2 (next_salt w2) iterations2)
                (ServerKey password2 (next_salt w2) iterations2)
                ltac:(lia)) as P2.
  rewrite <- Hs1 in P1. rewrite <- Hs2, P1 in P2.
  remember (StoredKey password1 (next_salt w1) iterations1) as K1 eqn:HK1.
  remember (StoredKey password2 (next_salt w2) iterations2) as K2 eqn:HK2.
  remember (ServerKey password1 (next_salt w1) iterations1) as V1 eqn:HV1.
  remember (ServerKey password2 (next_salt w2) iterations2) as V2 eqn:HV2.
  remember (next_salt w1) as salt1 eqn:HS1.
  remember (next_salt w2) as salt2 eqn:HS2.
  clear - P2. injection P2 as Ei Es Ek Ev.
  split; [exact Ei|]. split; [exact Es|]. split; [exact Ek|exact Ev].
Qed.

Lemma output_determines_its_fields_witness :
  example_run = ((fst (fst example_run), None), snd example_run)
  /\ generateSCRAMSHA256 example_password 2 world_other
     = ((fst (fst example_run), None),
        snd (generateSCRAMSHA256 example_password 2 world_other))
  /\ next_salt world_one_salt = next_salt world_other
  /\ StoredKey example_password (next_salt world_one_salt) 2
     = StoredKey example_password (next_salt world_other) 2.
Proof.
  assert (E1 : example_run = ((fst (fst example_run), None), snd example_run))
    by (vm_compute; reflexivity).
  assert (E2 : generateSCRAMSHA256 example_password 2 world_other
               = ((fst (fst example_run), None),
                  snd (generateSCRAMSHA256 example_password 2 world_other)))
    by (vm_compute; reflexivity).
  split; [exact E1|]. split; [exact E2|].
  destruct (output_determines_its_fields example_password example_password
              2 2 world_one_salt (snd example_run) world_other
              (snd (generateSCRAMSHA256 example_password 2 world_other))
              (fst (fst example_run)) E1 E2) as (_ & Hs & Hk & _).
  split; [exact Hs | exact Hk].
Defined.

(** ** [parseFlags] *)

Lemma bytes_eqb_eq (a b : bytes) : bytes_eqb a b = true -> a = b.
Proof.
  revert b. induction a as [|x a IH]; intros [|y b] H; try discriminate H.
  - reflexivity.
  - cbn [bytes_eqb] in H. apply andb_true_iff in H. destruct H as [Hx Ha].
    apply byte_eqb_eq in Hx. subst. f_equal. now apply IH.
Qed.

(** The shape of a flag name: not empty, no dash or equals sign in front,
    no equals sign inside. *)
Lemma defined_name_shape (name : bytes) (v : flag.Value) :
  defined_flags name = Some v ->
  exists b name',
    name = b :: name' /\ byte_eqb b x2d = false /\ byte_eqb b x3d = false
    /\ ~ In x3d name'.
Proof.
  unfold defined_flags. intros H.
  assert (C : name = lit "stdin" \/ name = lit "help" \/ name = lit "h"
              \/ name = lit "iterations" \/ name = lit "i").
  { destruct (bytes_eqb name (lit "stdin")) eqn:E1;
      [apply bytes_eqb_eq in E1; tauto|].
    destruct (bytes_eqb name (lit "help")) eqn:E2;
      [apply bytes_eqb_eq in E2; tauto|].
    destruct (bytes_eqb name (lit "h")) eqn:E3;
      [apply bytes_eqb_eq in E3; tauto|].
    destruct (bytes_eqb name (lit "iterations")) eqn:E4;
      [apply bytes_eqb_eq in E4; tauto|].
    destruct (bytes_eqb name (lit "i")) eqn:E5;
      [apply bytes_eqb_eq in E5; tauto|].
    discriminate H. }
  destruct C as [-> | [-> | [-> | [-> | ->]]]];
    (eexists; eexists; split; [reflexivity|]; split; [reflexivity|];
     split; [reflexivity|];
     let H := fresh in
     intros H; vm_compute in H;
     repeat (destruct H as [H|H]; [discriminate H|]); exact H).
Qed.

Lemma cut_value_none (s : bytes) :
  ~ In x3d s -> flag.cut_value s = (s, None).
Proof.
  induction s as [|c s IH]; intros Hn; [reflexivity|].
  cbn [flag.cut_value]. destruct (byte_eqb c x3d) eqn:E.
  - apply byte_eqb_eq in E. subst. exfalso. apply Hn. now left.
  - rewrite IH; [reflexivity|]. intros Hin. apply Hn. now right.
Qed.

Lemma cut_value_some (s v : bytes) :
  ~ In x3d s -> flag.cut_value (s ++ x3d :: v) = (s, Some v).
Proof.
  induction s as [|c s IH]; intros Hn.
  - reflexivity.
  - cbn [app flag.cut_value]. destruct (byte_eqb c x3d) eqn:E.
    + apply byte_eqb_eq in E. subst. exfalso. apply Hn. now left.
    + rewrite IH; [reflexivity|]. intros Hin. apply Hn. now right.
Qed.

Section ParseOne.

Variable formal : bytes -> option flag.Value.

(** A flag without [=]: what [parseOne] does with it. *)
Lemma parseOne_plain (d : bytes) (b : byte) (name' : bytes)
    (rest : list bytes) (config : Config) :
  dashes d ->
  byte_eqb b x2d = false -> byte_eqb b x3d = false -> ~ In x3d name' ->
  flag.parseOne formal ((d ++ b :: name') :: rest) config
  = match formal (b :: name') with
    | None => flag.Failed
    | Some (flag.boolVar set) => flag.Seen rest (set true config)
    | Some (flag.intVar set) =>
        match rest with
        | v :: rest' =>
            match strconv.ParseInt v with
            | Some n => flag.Seen rest' (set n config)
            | None => flag.Failed
            end
        | [] => flag.Failed
        end
    end.
Proof.
  intros [->| ->] Hd He Hn; unfold flag.parseOne;
    change (lit "-") with [x2d]; change (lit "--") with [x2d; x2d];
    cbn [app length hd nth skipn Nat.ltb Nat.leb Nat.eqb orb andb negb];
    change (byte_eqb x2d x2d) with true; rewrite ?Hd, ?He;
    cbn [orb andb negb Nat.eqb skipn length hd flag.name_and_value];
    rewrite ?Hd, ?He; cbn [orb];
    rewrite (cut_value_none name' Hn);
    destruct (formal (b :: name')) as [[set|set]|]; reflexivity.
Qed.

(** A flag with [=value]. *)
Lemma parseOne_valued (d : bytes) (b : byte) (name' v : bytes)
    (rest : list bytes) (config : Config) :
  dashes d ->
  byte_eqb b x2d = false -> byte_eqb b x3d = false -> ~ In x3d name' ->
  flag.parseOne formal ((d ++ (b :: name') ++ x3d :: v) :: rest) config
  = match formal (b :: name') with
    | None => flag.Failed
    | Some (flag.boolVar set) =>
        match strconv.ParseBool v with
        | Some x => flag.Seen rest (set x config)
        | None => flag.Failed
        end
    | Some (flag.intVar set) =>
        match strconv.ParseInt v with
        | Some n => flag.Seen rest (set n config)
        | None => flag.Failed
        end
    end.
Proof.
  intros [->| ->] Hd He Hn; unfold flag.parseOne;
    change (lit "-") with [x2d]; change (lit "--") with [x2d; x2d];
    cbn [app length hd nth skipn Nat.ltb Nat.leb Nat.eqb orb andb negb];
    change (byte_eqb x2d x2d) with true; rewrite ?Hd, ?He;
    cbn [orb andb negb Nat.eqb skipn length hd flag.name_and_value];
    rewrite ?Hd, ?He; cbn [orb];
    rewrite (cut_value_some name' v Hn);
    destruct (formal (b :: name')) as [[set|set]|]; reflexivity.
Qed.

(** Where the flags end, [parseOne] stops and keeps the configuration. *)
Lemma parseOne_over (rest : list bytes) (config : Config) :
  ends_flags rest ->
  exists rest', flag.parseOne formal rest config = flag.Over rest'.
Proof.
  destruct rest as [|s rest]; intros H.
  - now exists [].
  - cbn [ends_flags] in H. unfold flag.parseOne.
    destruct H as [H|[H| ->]].
    + apply Nat.ltb_lt in H. rewrite H. now exists (s :: rest).
    + apply byte_eqb_neq in H. rewrite H. cbn [negb].
      rewrite orb_true_r. now exists (s :: rest).
    + now exists rest.
Qed.

(** Every flag seen takes at least one argument away. *)
Lemma parseOne_shrinks (args args' : list bytes) (config config' : Config) :
  flag.parseOne formal args config = flag.Seen args' config' ->
  (length args' < length args)%nat.
Proof.
  unfold flag.parseOne. destruct args as [|s rest]; [discriminate|].
  destruct ((length s <? 2)%nat || negb (byte_eqb (hd x00 s) x2d));
    [discriminate|].
  destruct (byte_eqb (nth 1 s x00) x2d && (length s =? 2)%nat);
    [discriminate|].
  match goal with
  | |- context [if ?c then flag.Failed else _] => destruct c; [discriminate|]
  end.
  destruct (flag.name_and_value _) as [name value].
  destruct (formal name) as [[set|set]|]; [| |discriminate].
  - destruct value as [v|].
    + destruct (strconv.ParseBool v); intros H; inversion H; subst;
        cbn [length]; lia.
    + intros H; inversion H; subst; cbn [length]; lia.
  - destruct value as [v|].
    + destruct (strconv.ParseInt v); intros H; inversion H; subst;
        cbn [length]; lia.
    + destruct rest as [|v rest']; [discriminate|].
      destruct (strconv.ParseInt v); intros H; inversion H; subst;
        cbn [length]; lia.
Qed.

(** The loop does not depend on its fuel, once there is more of it than
    there are arguments. *)
Lemma Parse_loop_fuel (n : nat) :
  forall (m : nat) (args : list bytes) (config : Config),
    (length args < n)%nat -> (length args < m)%nat ->
    flag.Parse_loop formal n args config = flag.Parse_loop formal m args config.
Proof.
  induction n as [|n IH]; intros m args config Hn Hm; [lia|].
  destruct m as [|m]; [lia|].
  cbn [flag.Parse_loop].
  destruct (flag.parseOne formal args config) as [args' config'|args'|] eqn:E;
    try reflexivity.
  apply parseOne_shrinks in E. apply IH; lia.
Qed.

Lemma Parse_step (args args' : list bytes) (config config' : Config) :
  flag.parseOne formal args config = flag.Seen args' config' ->
  flag.Parse formal args config = flag.Parse formal args' config'.
Proof.
  intros E. unfold flag.Parse.
  pose proof (parseOne_shrinks _ _ _ _ E) as L.
  transitivity (flag.Parse_loop formal (length args) args' config').
  - change (flag.Parse_loop formal (S (length args)) args config)
      with (match flag.parseOne formal args config with
            | flag.Seen a c => flag.Parse_loop formal (length args) a c
            | flag.Over a => Some (config, a)
            | flag.Failed => None
            end).
    now rewrite E.
  - apply Parse_loop_fuel; lia.
Qed.

End ParseOne.

(** One well-formed use of a defined flag is read by [parseOne] as the
    setting it stands for. *)
Lemma parseOne_flag_arg (a : list bytes) (f : Config -> Config)
    (rest : list bytes) (config : Config) :
  flag_arg a f ->
  flag.parseOne defined_flags (a ++ rest) config = flag.Seen rest (f config).
Proof.
  intros H. destruct H as [d name set D F|d name v set b D F P
                          |d name v set n D F P|d name v set n D F P];
    destruct (defined_name_shape name _ F) as (c & name' & -> & Hd & He & Hn).
  - refine (eq_trans
              (parseOne_plain defined_flags d c name' rest config D Hd He Hn) _).
    now rewrite F.
  - refine (eq_trans
              (parseOne_valued defined_flags d c name' v rest config
                 D Hd He Hn) _).
    now rewrite F, P.
  - refine (eq_trans
              (parseOne_valued defined_flags d c name' v rest config
                 D Hd He Hn) _).
    now rewrite F, P.
  - refine (eq_trans
              (parseOne_plain defined_flags d c name' (v :: rest) config
                 D Hd He Hn) _).
    now rewrite F, P.
Qed.

Lemma Parse_flag_args (args : list bytes) (f : Config -> Config)
    (rest : list bytes) :
  flag_args args f -> ends_flags rest ->
  forall config : Config,
    exists rest',
      flag.Parse defined_flags (args ++ rest) config = Some (f config, rest').
Proof.
  intros H E. induction H as [|a args f g A As IH]; intros config.
  - cbn [app]. destruct (parseOne_over defined_flags rest config E) as [rest' R].
    exists rest'. unfold flag.Parse.
    change (flag.Parse_loop defined_flags (S (length rest)) rest config)
      with (match flag.parseOne defined_flags rest config with
            | flag.Seen a c => flag.Parse_loop defined_flags (length rest) a c
            | flag.Over a => Some (config, a)
            | flag.Failed => None
            end).
    now rewrite R.
  - rewrite <- app_assoc.
    rewrite (Parse_step defined_flags _ _ _ _
               (parseOne_flag_arg a f (args ++ rest) config A)).
    apply IH.
Qed.

(** ** Decimal numerals, printed and read back *)

Lemma is_digit_bounds (c : byte) :
  Verifier.is_digit c = true -> 48 <= byte_to_Z c <= 57.
Proof.
  unfold Verifier.is_digit. intros H. apply andb_true_iff in H.
  destruct H as [H1 H2]. apply Z.leb_le in H1. apply Z.leb_le in H2. lia.
Qed.

Lemma is_digit_no_underscore (c : byte) :
  Verifier.is_digit c = true -> byte_eqb c x5f = false.
Proof.
  intros H. destruct (byte_eqb c x5f) eqn:E; [|reflexivity].
  apply byte_eqb_eq in E. subst. discriminate H.
Qed.

Lemma decimal_fold_lower (ds : bytes) :
  forall n : Z,
    forallb Verifier.is_digit ds = true -> 0 <= n ->
    n <= fold_left (fun acc c => 10 * acc + (byte_to_Z c - 48)) ds n.
Proof.
  induction ds as [|c ds IH]; intros n H Hn; [cbn [fold_left]; lia|].
  cbn [forallb] in H. apply andb_true_iff in H. destruct H as [Hc Hds].
  apply is_digit_bounds in Hc. cbn [fold_left].
  specialize (IH (10 * n + (byte_to_Z c - 48)) Hds ltac:(lia)). lia.
Qed.

(** One turn of the digit loop on a decimal digit. *)
Lemma digits_loop_digit (c : byte) (s : bytes) (n : Z) :
  Verifier.is_digit c = true -> 0 <= n ->
  10 * n + (byte_to_Z c - 48) <= 18446744073709551615 ->
  strconv.digits_loop 10 (c :: s) n
  = strconv.digits_loop 10 s (10 * n + (byte_to_Z c - 48)).
Proof.
  intros Hc Hn Hmax. pose proof (is_digit_bounds c Hc) as Hb.
  change (strconv.digits_loop 10 (c :: s) n)
    with (if byte_eqb c x5f then strconv.digits_loop 10 s n
          else
            match
              (if Verifier.is_digit c then Some (byte_to_Z c - 48)
               else if (97 <=? strconv.lower c) && (strconv.lower c <=? 122)
                    then Some (strconv.lower c - 97 + 10)
                    else None)
            with
            | None => None
            | Some d =>
                if 10 <=? d then None
                else if 18446744073709551615 / 10 + 1 <=? n then None
                else if 18446744073709551615 <? n * 10 + d then None
                else strconv.digits_loop 10 s (n * 10 + d)
            end).
  rewrite (is_digit_no_underscore c Hc), Hc.
  destruct (10 <=? byte_to_Z c - 48) eqn:E1; [apply Z.leb_le in E1; lia|].
  change (18446744073709551615 / 10 + 1) with 1844674407370955162.
  destruct (1844674407370955162 <=? n) eqn:E2; [apply Z.leb_le in E2; lia|].
  destruct (18446744073709551615 <? n * 10 + (byte_to_Z c - 48)) eqn:E3;
    [apply Z.ltb_lt in E3; lia|].
  now rewrite (Z.mul_comm n 10).
Qed.

Lemma digits_loop_decimal (ds : bytes) :
  forall n : Z,
    forallb Verifier.is_digit ds = true -> 0 <= n ->
    fold_left (fun acc c => 10 * acc + (byte_to_Z c - 48)) ds n
      <= 18446744073709551615 ->
    strconv.digits_loop 10 ds n
    = Some (fold_left (fun acc c => 10 * acc + (byte_to_Z c - 48)) ds n).
Proof.
  induction ds as [|c ds IH]; intros n H Hn Hmax; [reflexivity|].
  cbn [forallb] in H. apply andb_true_iff in H. destruct H as [Hc Hds].
  pose proof (is_digit_bounds c Hc) as Hb.
  cbn [fold_left] in Hmax |- *.
  pose proof (decimal_fold_lower ds (10 * n + (byte_to_Z c - 48)) Hds
                ltac:(lia)) as Hlow.
  rewrite (digits_loop_digit c ds n Hc Hn ltac:(lia)).
  apply IH; [assumption|lia|assumption].
Qed.

Lemma digits_no_underscore (ds : bytes) :
  forallb Verifier.is_digit ds = true -> existsb (byte_eqb x5f) ds = false.
Proof.
  induction ds as [|c ds IH]; intros H; [reflexivity|].
  cbn [forallb] in H. apply andb_true_iff in H. destruct H as [Hc Hds].
  cbn [existsb]. rewrite (IH Hds), orb_false_r.
  destruct (byte_eqb x5f c) eqn:E; [|reflexivity].
  apply byte_eqb_eq in E. subst. discriminate Hc.
Qed.

(** A decimal numeral of the verifier's grammar is read by [ParseUint] as
    the number it stands for. *)
Lemma ParseUint_decimal (s : bytes) (u : Z) :
  Verifier.parse_decimal s = Some u -> u <= 18446744073709551615 ->
  strconv.ParseUint s = Some u.
Proof.
  unfold Verifier.parse_decimal. destruct s as [|d s']; [discriminate|].
  destruct (forallb Verifier.is_digit (d :: s')) eqn:Hds; [|discriminate].
  cbn [andb].
  destruct (byte_eqb d x30) eqn:Hd0.
  - destruct s' as [|c s'']; [|discriminate].
    apply byte_eqb_eq in Hd0. subst d. intros H _. inversion H. reflexivity.
  - cbn [andb negb]. intros H Hu. inversion H as [Hv]. clear H.
    unfold strconv.ParseUint, strconv.base_prefix. rewrite Hd0.
    unfold Verifier.decimal_value in Hv |- *.
    rewrite (digits_loop_decimal (d :: s') 0 Hds ltac:(lia));
      [|rewrite Hv; exact Hu].
    now rewrite (digits_no_underscore _ Hds).
Qed.

Lemma FormatInt_negative (z : Z) :
  z < 0 -> fmt.FormatInt z = x2d :: fmt.FormatInt (- z).
Proof.
  intros Hz. unfold fmt.FormatInt.
  destruct (z <? 0) eqn:E1; [|apply Z.ltb_ge in E1; lia].
  destruct (- z <? 0) eqn:E2; [apply Z.ltb_lt in E2; lia|].
  now rewrite Z.abs_opp.
Qed.

Lemma FormatInt_first_digit (z : Z) :
  0 <= z ->
  exists d s', fmt.FormatInt z = d :: s' /\ Verifier.is_digit d = true.
Proof.
  intros Hz. destruct (FormatInt_spec z Hz) as (Hd & _ & Hl & _).
  destruct (fmt.FormatInt z) as [|d s']; [cbn [length] in Hl; lia|].
  exists d, s'. split; [reflexivity|].
  cbn [forallb] in Hd. apply andb_true_iff in Hd. tauto.
Qed.

Lemma is_digit_no_sign (d : byte) :
  Verifier.is_digit d = true ->
  byte_eqb d x2d = false /\ byte_eqb d x2b = false.
Proof.
  intros H. split.
  - destruct (byte_eqb d x2d) eqn:E; [|reflexivity].
    apply byte_eqb_eq in E. subst. discriminate H.
  - destruct (byte_eqb d x2b) eqn:E; [|reflexivity].
    apply byte_eqb_eq in E. subst. discriminate H.
Qed.

(** What [%d] prints of a 64-bit integer, [ParseInt] reads back. *)
Lemma ParseInt_FormatInt (z : Z) :
  - 9223372036854775808 <= z < 9223372036854775808 ->
  strconv.ParseInt (fmt.FormatInt z) = Some z.
Proof.
  intros Hz. destruct (Z.ltb_spec z 0) as [Hneg|Hpos].
  - rewrite (FormatInt_negative z Hneg).
    destruct (FormatInt_first_digit (- z) ltac:(lia)) as (d & s' & E & Hd).
    destruct (FormatInt_spec (- z) ltac:(lia)) as (_ & Hp & _).
    cbv zeta in Hp.
    unfold strconv.ParseInt.
    change (byte_eqb x2d x2d) with true. rewrite orb_true_r.
    rewrite (ParseUint_decimal _ _ Hp ltac:(lia)).
    cbn [negb andb].
    change (2 ^ 63) with 9223372036854775808.
    destruct (9223372036854775808 <? - z) eqn:E1;
      [apply Z.ltb_lt in E1; lia|].
    now rewrite Z.opp_involutive.
  - destruct (FormatInt_first_digit z Hpos) as (d & s' & E & Hd).
    destruct (FormatInt_spec z Hpos) as (_ & Hp & _).
    cbv zeta in Hp. rewrite E in Hp |- *.
    destruct (is_digit_no_sign d Hd) as [H1 H2].
    unfold strconv.ParseInt. rewrite H1, H2. cbn [orb].
    rewrite (ParseUint_decimal _ _ Hp ltac:(lia)).
    cbn [negb andb].
    change (2 ^ 63) with 9223372036854775808.
    destruct (9223372036854775808 <=? z) eqn:E1;
      [apply Z.leb_le in E1; lia|].
    reflexivity.
Qed.

(** ** The command line *)

(** Well-formed uses of the flags in front are read one after the other. *)
Lemma Parse_flag_prefix (args : list bytes) (f : Config -> Config) :
  flag_args args f ->
  forall (rest : list bytes) (config : Config),
    flag.Parse defined_flags (args ++ rest) config
    = flag.Parse defined_flags rest (f config).
Proof.
  intros H. induction H as [|a args f g A As IH]; intros rest config.
  - reflexivity.
  - rewrite <- app_assoc.
    rewrite (Parse_step defined_flags _ _ _ _
               (parseOne_flag_arg a f (args ++ rest) config A)).
    apply IH.
Qed.

Lemma Parse_failed (formal : bytes -> option flag.Value) (args : list bytes)
    (config : Config) :
  flag.parseOne formal args config = flag.Failed ->
  flag.Parse formal args config = None.
Proof.
  intros E. unfold flag.Parse.
  change (flag.Parse_loop formal (S (length args)) args config)
    with (match flag.parseOne formal args config with
          | flag.Seen a c => flag.Parse_loop formal (length args) a c
          | flag.Over a => Some (config, a)
          | flag.Failed => None
          end).
  now rewrite E.
Qed.

Lemma flag_name_shape (name : bytes) :
  flag_name name ->
  exists b name',
    name = b :: name' /\ byte_eqb b x2d = false /\ byte_eqb b x3d = false
    /\ ~ In x3d name'.
Proof.
  destruct name as [|b name']; [contradiction|].
  intros (H1 & H2 & H3). exists b, name'.
  split; [reflexivity|].
  split; [now apply byte_eqb_neq|]. split; [now apply byte_eqb_neq|].
  exact H3.
Qed.

Lemma parseOne_bad_flag (args : list bytes) (config : Config) :
  bad_flag args -> flag.parseOne defined_flags args config = flag.Failed.
Proof.
  intros H.
  destruct H as [t rest|d t rest D|d name rest D N U|d name v rest D N U
                |d name v set rest D F P|d name v set rest D F P
                |d name v set rest D F P|d name set D F].
  - reflexivity.
  - destruct D as [-> | ->]; reflexivity.
  - destruct (flag_name_shape name N) as (c & name' & -> & Hd & He & Hn).
    refine (eq_trans
              (parseOne_plain defined_flags d c name' rest config D Hd He Hn) _).
    now rewrite U.
  - destruct (flag_name_shape name N) as (c & name' & -> & Hd & He & Hn).
    refine (eq_trans
              (parseOne_valued defined_flags d c name' v rest config
                 D Hd He Hn) _).
    now rewrite U.
  - destruct (defined_name_shape name _ F) as (c & name' & -> & Hd & He & Hn).
    refine (eq_trans
              (parseOne_valued defined_flags d c name' v rest config
                 D Hd He Hn) _).
    now rewrite F, P.
  - destruct (defined_name_shape name _ F) as (c & name' & -> & Hd & He & Hn).
    refine (eq_trans
              (parseOne_valued defined_flags d c name' v rest config
                 D Hd He Hn) _).
    now rewrite F, P.
  - destruct (defined_name_shape name _ F) as (c & name' & -> & Hd & He & Hn).
    refine (eq_trans
              (parseOne_plain defined_flags d c name' (v :: rest) config
                 D Hd He Hn) _).
    now rewrite F, P.
  - destruct (defined_name_shape name _ F) as (c & name' & -> & Hd & He & Hn).
    refine (eq_trans
              (parseOne_plain defined_flags d c name' [] config
                 D Hd He Hn) _).
    now rewrite F.
Qed.

(** X15. A command line of well-formed uses of the defined flags, ended by
    nothing, by an argument that is no flag or by [--], gives the
    configuration made from [{false, false, 4096}] by the settings in
    their order from left to right: a later use of a flag overrides an
    earlier one, and what follows the end of the flags sets nothing. *)
Theorem flags_set_the_configuration (w : World) (prog : bytes)
    (args rest : list bytes) (f : Config -> Config) :
  os_Args w = prog :: args ++ rest ->
  flag_args args f ->
  ends_flags rest ->
  parseFlags w = Parsed (f (mkConfig false false defaultIterations)).
Proof.
  intros A H E. unfold parseFlags, parseFlags_of. rewrite A.
  destruct (Parse_flag_args args f rest H E
              (mkConfig false false defaultIterations)) as [rest' R].
  now rewrite R.
Qed.

Lemma flags_set_the_configuration_witness :
  os_Args (world_with_args (example_flags ++ example_operands))
  = lit "scram-sha-256" :: example_flags ++ example_operands
  /\ flag_args example_flags
       (fun c => set_ShowHelp false
                   (set_Iterations 10000
                      (set_Iterations 8192 (set_UseStdin true c))))
  /\ ends_flags example_operands
  /\ parseFlags (world_with_args (example_flags ++ example_operands))
     = Parsed (mkConfig true false 10000).
Proof.
  assert (D1 : dashes (lit "-")) by (left; reflexivity).
  assert (D2 : dashes (lit "--")) by (right; reflexivity).
  assert (H : flag_args example_flags
       (fun c => set_ShowHelp false
                   (set_Iterations 10000
                      (set_Iterations 8192 (set_UseStdin true c))))).
  { exact (more_flags [lit "-stdin"] _ _ _
             (bool_flag (lit "-") (lit "stdin") set_UseStdin D1 eq_refl)
          (more_flags [lit "--iterations=8192"] _ _ _
             (int_flag_value (lit "--") (lit "iterations") (lit "8192")
                set_Iterations 8192 D2 eq_refl eq_refl)
          (more_flags [lit "-i"; lit "10000"] _ _ _
             (int_flag_next (lit "-") (lit "i") (lit "10000")
                set_Iterations 10000 D1 eq_refl eq_refl)
          (more_flags [lit "-h=false"] _ _ _
             (bool_flag_value (lit "-") (lit "h") (lit "false")
                set_ShowHelp false D1 eq_refl eq_refl)
             no_flags)))). }
  assert (E : ends_flags example_operands) by (right; right; reflexivity).
  split; [reflexivity|]. split; [exact H|]. split; [exact E|].
  exact (flags_set_the_configuration
           (world_with_args (example_flags ++ example_operands))
           (lit "scram-sha-256") example_flags example_operands _
           eq_refl H E).
Defined.

(** X16. The decimal numeral of any 64-bit integer, as [%d] prints it,
    given to [-i] or [-iterations] (with one dash or two, attached with
    [=] or as the next argument) is read back as that integer: the
    iteration count becomes exactly the number written, negative numbers
    and zero included. *)
Theorem decimal_iteration_counts_are_read (w : World) (prog d name : bytes)
    (n : Z) (rest : list bytes) :
  - 9223372036854775808 <= n < 9223372036854775808 ->
  dashes d ->
  name = lit "i" \/ name = lit "iterations" ->
  ends_flags rest ->
  os_Args w = prog :: (d ++ name) :: fmt.FormatInt n :: rest
  \/ os_Args w = prog :: (d ++ name ++ x3d :: fmt.FormatInt n) :: rest ->
  parseFlags w = Parsed (mkConfig false false n).
Proof.
  intros Hn D N E A.
  assert (F : defined_flags name = Some (flag.intVar set_Iterations))
    by (destruct N as [-> | ->]; reflexivity).
  pose proof (ParseInt_FormatInt n Hn) as P.
  destruct A as [A|A].
  - apply (flags_set_the_configuration w prog
             [d ++ name; fmt.FormatInt n] rest (fun c => set_Iterations n c));
      [exact A | | exact E].
    exact (more_flags [d ++ name; fmt.FormatInt n] [] _ _
             (int_flag_next d name (fmt.FormatInt n) set_Iterations n D F P)
             no_flags).
  - apply (flags_set_the_configuration w prog
             [d ++ name ++ x3d :: fmt.FormatInt n] rest
             (fun c => set_Iterations n c));
      [exact A | | exact E].
    exact (more_flags [d ++ name ++ x3d :: fmt.FormatInt n] [] _ _
             (int_flag_value d name (fmt.FormatInt n) set_Iterations n D F P)
             no_flags).
Qed.

Lemma decimal_iteration_counts_are_read_witness :
  parseFlags (world_with_args [lit "--iterations"; fmt.FormatInt (-15); lit "x"])
  = Parsed (mkConfig false false (-15)).
Proof.
  apply (decimal_iteration_counts_are_read
           (world_with_args [lit "--iterations"; fmt.FormatInt (-15); lit "x"])
           (lit "scram-sha-256") (lit "--") (lit "iterations") (-15)
           [lit "x"]).
  - lia.
  - right; reflexivity.
  - right; reflexivity.
  - left. apply Nat.ltb_lt. reflexivity.
  - left; reflexivity.
Defined.

(** X17. An argument in error among the flags ends the run inside the flag
    package with status 2, and no configuration is returned: after any
    well-formed uses of flags, an undefined flag, three dashes or an
    equals sign in front of the name, a boolean flag with a value that is
    no boolean, and an iteration flag whose value is missing or is no
    64-bit integer are all refused; the default is never used in their
    place. *)
Theorem bad_flags_end_the_run (w : World) (prog : bytes)
    (args bad : list bytes) (f : Config -> Config) :
  os_Args w = prog :: args ++ bad ->
  flag_args args f ->
  bad_flag bad ->
  parseFlags w = Exit2.
Proof.
  intros A H B. unfold parseFlags, parseFlags_of. rewrite A.
  rewrite (Parse_flag_prefix args f H bad).
  now rewrite (Parse_failed defined_flags bad _ (parseOne_bad_flag bad _ B)).
Qed.

Lemma bad_flags_end_the_run_witness :
  parseFlags (world_with_args [lit "-stdin"; lit "-i"; lit "4k"]) = Exit2.
Proof.
  apply (bad_flags_end_the_run
           (world_with_args [lit "-stdin"; lit "-i"; lit "4k"])
           (lit "scram-sha-256") [lit "-stdin"] [lit "-i"; lit "4k"]
           (fun c => set_UseStdin true c)).
  - reflexivity.
  - exact (more_flags [lit "-stdin"] [] _ _
             (bool_flag (lit "-") (lit "stdin") set_UseStdin
                (or_introl eq_refl) eq_refl)
             no_flags).
  - exact (int_flag_bad_next (lit "-") (lit "i") (lit "4k") set_Iterations []
             (or_introl eq_refl) eq_refl eq_refl).
Defined.
